(** * tcl-navigate: the lexical structure recovery of the TCL providers

    A shallow embedding of the comprehensive providers of the extension
    (document symbols, definitions, hover) and of the properties its
    specification states about them.

    Conventions of the embedding.
    - A JavaScript string is a list of code units; code units are modelled
      as [ascii] (the Latin-1 range), which covers every character the
      providers inspect.
    - A JavaScript number holding an offset, a line or a column is a [Z];
      [null] and [undefined] results become [None].
    - A [vscode.TextDocument] is its text, with LF line ends. *)

From Stdlib Require Import ZArith List Ascii String Lia Bool.
From stdpp Require Import gmap strings list.
Import ListNotations.
Open Scope Z_scope.

(** ** JavaScript strings *)

Abbreviation str := (list ascii).

Definition lit (s : string) : str := list_ascii_of_string s.

Module JS.

Definition len (t : str) : Z := Z.of_nat (length t).

(** [t.charAt(i)] and [t[i]]: no character outside the string. *)
Definition charAt (t : str) (i : Z) : option ascii :=
  if i <? 0 then None else t !! Z.to_nat i.

Definition clamp (t : str) (i : Z) : Z := Z.max 0 (Z.min i (len t)).

(** [t.substring(a, b)]: both ends are clamped to the string and swapped
    when they come in the wrong order. *)
Definition substring (t : str) (a b : Z) : str :=
  let a' := clamp t a in
  let b' := clamp t b in
  let lo := Z.min a' b' in
  let hi := Z.max a' b' in
  take (Z.to_nat (hi - lo)) (drop (Z.to_nat lo) t).

Definition is_char (c : ascii) (o : option ascii) : bool :=
  match o with
  | Some c' => Ascii.eqb c c'
  | None => false
  end.

End JS.

(** ** The brace matcher

    The four providers carry the same private method; it is embedded once. *)

Definition LBRACE : ascii := "{"%char.
Definition RBRACE : ascii := "}"%char.

(** The state of the loop is [(braceCount, pos)]; every turn moves [pos]
    one character forward, so [fuel] counts the turns that are left. *)
Fixpoint findMatchingBrace_loop (fuel : nat) (text : str) (braceCount pos : Z)
  : Z * Z :=
  match fuel with
  | O => (braceCount, pos)
  | S fuel' =>
      if (pos <? JS.len text) && (0 <? braceCount) then
        let braceCount' :=
          if JS.is_char LBRACE (JS.charAt text pos) then braceCount + 1
          else if JS.is_char RBRACE (JS.charAt text pos) then braceCount - 1
          else braceCount in
        findMatchingBrace_loop fuel' text braceCount' (pos + 1)
      else (braceCount, pos)
  end.

Definition findMatchingBrace (text : str) (openBracePos : Z) : option Z :=
  let '(braceCount, pos) :=
    findMatchingBrace_loop (Z.to_nat (JS.len text - (openBracePos + 1)))
                           text 1 (openBracePos + 1) in
  if braceCount =? 0 then Some (pos - 1) else None.

(** ** Depth counting, as the specification words it *)

Definition braceStep (c : ascii) : Z :=
  if Ascii.eqb c LBRACE then 1 else if Ascii.eqb c RBRACE then -1 else 0.

Fixpoint braceDelta (l : str) : Z :=
  match l with
  | [] => 0
  | c :: l' => braceStep c + braceDelta l'
  end.

(** The depth counter once the characters after [open], up to and including
    the one at [q], have been read. *)
Definition depthAt (text : str) (open q : Z) : Z :=
  1 + braceDelta (JS.substring text (open + 1) (q + 1)).

(** A run of text whose braces pair up: no prefix closes more than it opens. *)
Definition balanced (l : str) : Prop :=
  braceDelta l = 0 /\ forall n : nat, 0 <= braceDelta (take n l).

(** ** Regular expressions

    The patterns of the providers, as syntax trees, and the backtracking
    matcher of ECMAScript over them. Only the constructs the providers use
    are present; [^] and [$] are those of the [m] flag, the flag every
    anchored pattern of the providers carries.

    Where a pattern of the source is quoted in a comment, a star that is
    followed by a closing parenthesis is set apart from it by a space. *)

Module RegExp.

Inductive regex : Type :=
| Empty : regex                      (* the empty pattern *)
| Lit (c : ascii)                    (* a pattern character *)
| Class (p : ascii -> bool)          (* an escape or bracket class, [.] *)
| Seq (r1 r2 : regex)                (* r1r2 *)
| Alt (r1 r2 : regex)                (* r1|r2 *)
| Repeat (greedy : bool) (r : regex)  (* r* when greedy, r*? when lazy *)
| Group (n : nat) (r : regex)        (* the n-th capturing group (r) *)
| BOL : regex                        (* ^ *)
| EOL : regex                        (* $ *)
| WordB : regex.                     (* \b *)

(** [r*], [r*?], [r+] and [r?] *)
Definition Star (r : regex) : regex := Repeat true r.
Definition LazyStar (r : regex) : regex := Repeat false r.
Definition Plus (r : regex) : regex := Seq r (Star r).
Definition Opt (r : regex) : regex := Alt r Empty.

(** A word spliced into a pattern by a template literal. The providers only
    splice words made of word characters and colons, which a pattern reads
    as themselves. *)
Fixpoint Str (s : str) : regex :=
  match s with
  | [] => Empty
  | c :: s' => Seq (Lit c) (Str s')
  end.

(** *** Character classes *)

Definition code (c : ascii) : N := N_of_ascii c.

Definition inRange (lo hi : N) (c : ascii) : bool :=
  ((lo <=? code c) && (code c <=? hi))%N.

(** [\w] *)
Definition isWordChar (c : ascii) : bool :=
  inRange 97 122 c || inRange 65 90 c || inRange 48 57 c || (code c =? 95)%N.

(** [\s]: white space and line terminators (tab, LF, VT, FF, CR, space,
    no-break space). *)
Definition isSpace (c : ascii) : bool :=
  inRange 9 13 c || (code c =? 32)%N || (code c =? 160)%N.

Definition isLineTerminator (c : ascii) : bool :=
  (code c =? 10)%N || (code c =? 13)%N.

(** [.] *)
Definition dot (c : ascii) : bool := negb (isLineTerminator c).

Definition any (c : ascii) : bool := true.
Definition isNot (x : ascii) (c : ascii) : bool := negb (Ascii.eqb x c).

(** *** The matcher *)

Record mstate : Type := mkState { pos : Z; caps : gmap nat (Z * Z) }.

Definition cont : Type := mstate -> option mstate.

Definition orElse (a : option mstate) (b : unit -> option mstate)
  : option mstate :=
  match a with
  | Some s => Some s
  | None => b tt
  end.

Definition atLineStart (text : str) (i : Z) : bool :=
  (i =? 0) ||
  match JS.charAt text (i - 1) with
  | Some c => isLineTerminator c
  | None => false
  end.

Definition atLineEnd (text : str) (i : Z) : bool :=
  (i =? JS.len text) ||
  match JS.charAt text i with
  | Some c => isLineTerminator c
  | None => false
  end.

Definition isWordAt (text : str) (i : Z) : bool :=
  match JS.charAt text i with
  | Some c => isWordChar c
  | None => false
  end.

Definition atWordBoundary (text : str) (i : Z) : bool :=
  xorb (isWordAt text (i - 1)) (isWordAt text i).

(** The iterations of a quantified atom. An iteration that consumes nothing
    is rejected, so every iteration moves forward and [n], the number of
    characters left, bounds the iterations. *)
Fixpoint repeatMatcher (body : mstate -> cont -> option mstate) (greedy : bool)
  (n : nat) (s : mstate) (k : cont) : option mstate :=
  match n with
  | O => k s
  | S n' =>
      let again := fun _ : unit =>
        body s (fun s' =>
          if pos s <? pos s' then repeatMatcher body greedy n' s' k
          else None) in
      if greedy then orElse (again tt) (fun _ => k s)
      else orElse (k s) again
  end.

Fixpoint matcher (text : str) (r : regex) (s : mstate) (k : cont)
  : option mstate :=
  match r with
  | Empty => k s
  | Lit c =>
      if JS.is_char c (JS.charAt text (pos s))
      then k (mkState (pos s + 1) (caps s)) else None
  | Class p =>
      match JS.charAt text (pos s) with
      | Some c => if p c then k (mkState (pos s + 1) (caps s)) else None
      | None => None
      end
  | Seq r1 r2 => matcher text r1 s (fun s' => matcher text r2 s' k)
  | Alt r1 r2 => orElse (matcher text r1 s k) (fun _ => matcher text r2 s k)
  | Repeat greedy r' =>
      repeatMatcher (matcher text r') greedy
                    (Z.to_nat (JS.len text - pos s)) s k
  | Group n r' =>
      matcher text r' s
              (fun s' => k (mkState (pos s') (<[n := (pos s, pos s')]> (caps s'))))
  | BOL => if atLineStart text (pos s) then k s else None
  | EOL => if atLineEnd text (pos s) then k s else None
  | WordB => if atWordBoundary text (pos s) then k s else None
  end.

(** *** The language of a pattern

    [Matches text r i j]: the pattern [r] can match the characters of
    [text] from offset [i] up to, not including, offset [j]. *)

Inductive Matches (text : str) : regex -> Z -> Z -> Prop :=
| M_Empty i : Matches text Empty i i
| M_Lit c i :
    JS.charAt text i = Some c -> Matches text (Lit c) i (i + 1)
| M_Class p c i :
    JS.charAt text i = Some c -> p c = true ->
    Matches text (Class p) i (i + 1)
| M_Seq r1 r2 i j k :
    Matches text r1 i j -> Matches text r2 j k ->
    Matches text (Seq r1 r2) i k
| M_AltL r1 r2 i j : Matches text r1 i j -> Matches text (Alt r1 r2) i j
| M_AltR r1 r2 i j : Matches text r2 i j -> Matches text (Alt r1 r2) i j
| M_RepeatNil g r i : Matches text (Repeat g r) i i
| M_RepeatCons g r i j k :
    Matches text r i j -> i < j -> Matches text (Repeat g r) j k ->
    Matches text (Repeat g r) i k
| M_Group n r i j : Matches text r i j -> Matches text (Group n r) i j
| M_BOL i : atLineStart text i = true -> Matches text BOL i i
| M_EOL i : atLineEnd text i = true -> Matches text EOL i i
| M_WordB i : atWordBoundary text i = true -> Matches text WordB i i.

(** [Captures text r s s']: a match of [r] that the matcher starts in
    state [s] can end in state [s']; the captures of [s'] are those of [s]
    and what the groups of [r] recorded on the way. *)
Inductive Captures (text : str) : regex -> mstate -> mstate -> Prop :=
| C_Empty s : Captures text Empty s s
| C_Lit c s :
    JS.charAt text (pos s) = Some c ->
    Captures text (Lit c) s (mkState (pos s + 1) (caps s))
| C_Class p c s :
    JS.charAt text (pos s) = Some c -> p c = true ->
    Captures text (Class p) s (mkState (pos s + 1) (caps s))
| C_Seq r1 r2 s s1 s2 :
    Captures text r1 s s1 -> Captures text r2 s1 s2 ->
    Captures text (Seq r1 r2) s s2
| C_AltL r1 r2 s s' : Captures text r1 s s' -> Captures text (Alt r1 r2) s s'
| C_AltR r1 r2 s s' : Captures text r2 s s' -> Captures text (Alt r1 r2) s s'
| C_RepeatNil g r s : Captures text (Repeat g r) s s
| C_RepeatCons g r s s1 s2 :
    Captures text r s s1 -> pos s < pos s1 ->
    Captures text (Repeat g r) s1 s2 ->
    Captures text (Repeat g r) s s2
| C_Group n r s s' :
    Captures text r s s' ->
    Captures text (Group n r) s
             (mkState (pos s') (<[n := (pos s, pos s')]> (caps s')))
| C_BOL s : atLineStart text (pos s) = true -> Captures text BOL s s
| C_EOL s : atLineEnd text (pos s) = true -> Captures text EOL s s
| C_WordB s : atWordBoundary text (pos s) = true -> Captures text WordB s s.

(** Whether a pattern has a group numbered [n]. *)
Fixpoint records (n : nat) (r : regex) : bool :=
  match r with
  | Group m r' => (n =? m)%nat || records n r'
  | Seq r1 r2 | Alt r1 r2 => records n r1 || records n r2
  | Repeat _ r' => records n r'
  | Empty | Lit _ | Class _ | BOL | EOL | WordB => false
  end.

(** *** [exec] *)

Record rmatch : Type :=
  mkMatch { index : Z; endIndex : Z; groups : gmap nat (Z * Z) }.

Definition matchAt (r : regex) (text : str) (i : Z) : option rmatch :=
  match matcher text r (mkState i ∅) Some with
  | Some s => Some (mkMatch i (pos s) (caps s))
  | None => None
  end.

(** The start positions [i], [i + 1], ... are tried in turn. *)
Fixpoint execFrom (fuel : nat) (r : regex) (text : str) (i : Z)
  : option rmatch :=
  match matchAt r text i with
  | Some m => Some m
  | None =>
      match fuel with
      | O => None
      | S fuel' => execFrom fuel' r text (i + 1)
      end
  end.

(** [r.exec(text)] with [r.lastIndex = lastIndex]: the first match that
    starts at [lastIndex] or later. *)
Definition exec (r : regex) (text : str) (lastIndex : Z) : option rmatch :=
  if JS.len text <? lastIndex then None
  else execFrom (Z.to_nat (JS.len text - lastIndex)) r text lastIndex.

(** The matches seen by [while ((m = r.exec(text)) !== null)] for a pattern
    with the [g] flag: each call resumes where the last match ended. The
    loops of the providers neither touch [lastIndex] nor the text. *)
Fixpoint execLoop (fuel : nat) (r : regex) (text : str) (lastIndex : Z)
  : list rmatch :=
  match fuel with
  | O => []
  | S fuel' =>
      match exec r text lastIndex with
      | None => []
      | Some m => m :: execLoop fuel' r text (endIndex m)
      end
  end.

Definition execAll (r : regex) (text : str) : list rmatch :=
  execLoop (S (length text)) r text 0.

(** The least number of characters a match of a pattern holds. *)
Fixpoint minLen (r : regex) : Z :=
  match r with
  | Lit _ | Class _ => 1
  | Seq r1 r2 => minLen r1 + minLen r2
  | Alt r1 r2 => Z.min (minLen r1) (minLen r2)
  | Group _ r' => minLen r'
  | Empty | Repeat _ _ | BOL | EOL | WordB => 0
  end.


(** The pattern character a pattern ends with, when it ends with one. *)
Fixpoint lastLit (r : regex) : option ascii :=
  match r with
  | Lit c => Some c
  | Seq _ r2 => lastLit r2
  | _ => None
  end.

(** Every character a pattern can read is one of [P]. *)
Fixpoint charsIn (P : ascii -> Prop) (r : regex) : Prop :=
  match r with
  | Lit c => P c
  | Class p => forall c, p c = true -> P c
  | Seq r1 r2 | Alt r1 r2 => charsIn P r1 /\ charsIn P r2
  | Repeat _ r' | Group _ r' => charsIn P r'
  | Empty | BOL | EOL | WordB => True
  end.

(** What a matcher owes its continuation: a success went through the
    continuation, at the end of a stretch the pattern matches. *)
Definition sound_for (text : str) (r : regex)
  (body : mstate -> cont -> option mstate) : Prop :=
  forall s k res,
    body s k = Some res ->
    exists s', Matches text r (pos s) (pos s') /\ k s' = Some res.

(** Matches that come in order, each starting at or after the end of the
    one before, all inside the text and none before [lo]. *)
Inductive chained (text : str) (lo : Z) : list rmatch -> Prop :=
| chained_nil : chained text lo []
| chained_cons m ms :
    lo <= index m -> index m <= endIndex m -> endIndex m <= JS.len text ->
    chained text (endIndex m) ms -> chained text lo (m :: ms).

(** [m[0]] and [m[n]] *)
Definition matched (text : str) (m : rmatch) : str :=
  JS.substring text (index m) (endIndex m).

Definition group (text : str) (m : rmatch) (n : nat) : option str :=
  match groups m !! n with
  | Some (a, b) => Some (JS.substring text a b)
  | None => None
  end.

End RegExp.

(** ** More of the JavaScript string methods the providers call *)

Module JSStr.

(** [t.indexOf(c)] for a one-character needle, [-1] when absent. *)
Fixpoint indexOfChar_from (c : ascii) (t : str) (i : Z) : Z :=
  match t with
  | [] => -1
  | x :: t' => if Ascii.eqb x c then i else indexOfChar_from c t' (i + 1)
  end.

Definition indexOfChar (c : ascii) (t : str) : Z := indexOfChar_from c t 0.

(** [t.lastIndexOf(c)] *)
Fixpoint lastIndexOfChar_from (c : ascii) (t : str) (i : Z) (found : Z) : Z :=
  match t with
  | [] => found
  | x :: t' =>
      lastIndexOfChar_from c t' (i + 1) (if Ascii.eqb x c then i else found)
  end.

Definition lastIndexOfChar (c : ascii) (t : str) : Z :=
  lastIndexOfChar_from c t 0 (-1).

(** [t.lastIndexOf(c, fromIndex)]: the last occurrence at [fromIndex] or
    before; a negative [fromIndex] counts as 0. *)
Definition lastIndexOfCharFrom (c : ascii) (t : str) (fromIndex : Z) : Z :=
  lastIndexOfChar c (take (Z.to_nat (Z.max 0 fromIndex + 1)) t).

Fixpoint startsWith (t prefix : str) : bool :=
  match prefix, t with
  | [], _ => true
  | p :: prefix', x :: t' => Ascii.eqb p x && startsWith t' prefix'
  | _ :: _, [] => false
  end.

(** [t.indexOf(needle)] *)
Fixpoint indexOf_from (needle : str) (t : str) (i : Z) : Z :=
  if startsWith t needle then i
  else match t with
       | [] => -1
       | _ :: t' => indexOf_from needle t' (i + 1)
       end.

Definition indexOf (needle t : str) : Z := indexOf_from needle t 0.

Definition includes (t needle : str) : bool := 0 <=? indexOf needle t.

(** [t.trim()]: white space and line terminators go from both ends. *)
Fixpoint trimStart (t : str) : str :=
  match t with
  | c :: t' => if RegExp.isSpace c then trimStart t' else t
  | [] => []
  end.

Definition trim (t : str) : str := reverse (trimStart (reverse (trimStart t))).

(** [t.split('::')]: the separators are found from the left and do not
    overlap; [cur] holds the part being read, in reverse. *)
Fixpoint splitScope_aux (t : str) (cur : str) : list str :=
  match t with
  | ":"%char :: ":"%char :: t' => reverse cur :: splitScope_aux t' []
  | c :: t' => splitScope_aux t' (c :: cur)
  | [] => [reverse cur]
  end.

Definition splitScope (t : str) : list str := splitScope_aux t [].

(** [parts.join('::')] *)
Fixpoint joinScope (parts : list str) : str :=
  match parts with
  | [] => []
  | [p] => p
  | p :: ps => p ++ lit "::" ++ joinScope ps
  end.

(** [t.replace(/::/g, '')] *)
Fixpoint removeScope (t : str) : str :=
  match t with
  | ":"%char :: ":"%char :: t' => removeScope t'
  | c :: t' => c :: removeScope t'
  | [] => []
  end.

End JSStr.

(** ** The editor's document model

    The part of the [vscode] interface the providers use: positions, ranges
    and the text document. *)

Module vscode.

Record Position : Type := mkPosition { line : Z; character : Z }.

Definition isBefore (a b : Position) : bool :=
  (line a <? line b) || ((line a =? line b) && (character a <? character b)).

Definition isAfter (a b : Position) : bool := isBefore b a.

Definition isBeforeOrEqual (a b : Position) : bool := negb (isBefore b a).

Record Range : Type := mkRange { start : Position; end_ : Position }.

(** [new vscode.Range(a, b)]: the ends are swapped when [b] is before [a]. *)
Definition newRange (a b : Position) : Range :=
  if isBefore b a then mkRange b a else mkRange a b.

(** [range.contains(position)] and [range.contains(otherRange)] *)
Definition containsPosition (r : Range) (p : Position) : bool :=
  negb (isBefore p (start r)) && negb (isBefore (end_ r) p).

Definition contains (r other : Range) : bool :=
  containsPosition r (start other) && containsPosition r (end_ other).

Definition NL : ascii := "010"%char.

(** [document.positionAt(offset)]: the offset is clamped to the text. *)
Fixpoint positionAt_aux (t : str) (n : nat) (ln ch : Z) : Position :=
  match n, t with
  | S n', c :: t' =>
      if Ascii.eqb c NL then positionAt_aux t' n' (ln + 1) 0
      else positionAt_aux t' n' ln (ch + 1)
  | _, _ => mkPosition ln ch
  end.

Definition positionAt (text : str) (offset : Z) : Position :=
  positionAt_aux text (Z.to_nat offset) 0 0.

(** The lines of the document, without their line ends. *)
Fixpoint splitLines (t : str) : list str :=
  match t with
  | [] => [[]]
  | c :: t' =>
      if Ascii.eqb c NL then [] :: splitLines t'
      else match splitLines t' with
           | l :: ls => (c :: l) :: ls
           | [] => [[c]]
           end
  end.

Definition lineCount (text : str) : Z := Z.of_nat (length (splitLines text)).

(** [document.lineAt(line)] raises an error unless [line] is a line of the
    document; the providers only ask for lines that [positionAt] returned. *)
Definition validLine (text : str) (ln : Z) : Prop :=
  0 <= ln < lineCount text.

(** [document.lineAt(line).text] *)
Definition lineText (text : str) (ln : Z) : str :=
  if ln <? 0 then [] else default [] (splitLines text !! Z.to_nat ln).

(** [document.lineAt(line).range.end] *)
Definition lineEnd (text : str) (ln : Z) : Position :=
  mkPosition ln (JS.len (lineText text ln)).

(** The offset at which line [ln] starts. *)
Fixpoint lineOffset_aux (ls : list str) (n : nat) (acc : Z) : Z :=
  match n, ls with
  | S n', l :: ls' => lineOffset_aux ls' n' (acc + JS.len l + 1)
  | _, _ => acc
  end.

Definition lineOffset (text : str) (ln : Z) : Z :=
  lineOffset_aux (splitLines text) (Z.to_nat ln) 0.

(** [document.offsetAt(position)]: the position is first brought back into
    the document. *)
Definition offsetAt (text : str) (p : Position) : Z :=
  if lineCount text <=? line p then JS.len text
  else if line p <? 0 then 0
  else lineOffset text (line p)
       + Z.max 0 (Z.min (character p) (JS.len (lineText text (line p)))).

(** [document.getText(range)] *)
Definition getText (text : str) (r : Range) : str :=
  JS.substring text (offsetAt text (start r)) (offsetAt text (end_ r)).

(** [document.getWordRangeAtPosition(position, /[\w:]+/)] then
    [document.getText(wordRange)]: the run of word characters and colons of
    the line that holds or touches the column, if there is one. *)
Definition wordOrColon (c : ascii) : bool :=
  RegExp.isWordChar c || Ascii.eqb c ":"%char.

Definition wordPattern : RegExp.regex :=
  RegExp.Plus (RegExp.Class wordOrColon).

Definition getWordAtPosition (text : str) (p : Position) : option str :=
  let lineText := lineText text (line p) in
  match
    filter (fun m => RegExp.index m <= character p <= RegExp.endIndex m)
           (RegExp.execAll wordPattern lineText)
  with
  | m :: _ => Some (RegExp.matched lineText m)
  | [] => None
  end.

(** A text document: where it lives and what it holds. The document
    methods above take the text; a document stands for its text. *)
Record TextDocument : Type := mkDocument { uri : nat; getText_ : str }.

Coercion getText_ : TextDocument >-> list.

(** A location is the document it lies in and a range of it. *)
Record Location : Type := mkLocation { locUri : nat; locRange : Range }.

Inductive SymbolKind : Type :=
| KNamespace | KFunction | KVariable | KArray | KObject.

(** [new vscode.DocumentSymbol(name, detail, kind, range, selectionRange)]
    starts with no children. *)
Unset Elimination Schemes.
Inductive DocumentSymbol : Type :=
| mkSymbol (name detail : str) (kind : SymbolKind)
           (range selectionRange : Range) (children : list DocumentSymbol).
Set Elimination Schemes.

Definition name (s : DocumentSymbol) : str :=
  match s with mkSymbol n _ _ _ _ _ => n end.
Definition detail (s : DocumentSymbol) : str :=
  match s with mkSymbol _ d _ _ _ _ => d end.
Definition kind (s : DocumentSymbol) : SymbolKind :=
  match s with mkSymbol _ _ k _ _ _ => k end.
Definition range (s : DocumentSymbol) : Range :=
  match s with mkSymbol _ _ _ r _ _ => r end.
Definition selectionRange (s : DocumentSymbol) : Range :=
  match s with mkSymbol _ _ _ _ r _ => r end.
Definition children (s : DocumentSymbol) : list DocumentSymbol :=
  match s with mkSymbol _ _ _ _ _ c => c end.

Definition newDocumentSymbol (name detail : str) (kind : SymbolKind)
  (range selectionRange : Range) : DocumentSymbol :=
  mkSymbol name detail kind range selectionRange [].

(** The constructor checks the symbol it has built and raises an error
    when the name is empty or the selection range is not inside the range.
    [newDocumentSymbol] is the symbol the constructor builds; [validate]
    tells whether the check lets it through. *)
Definition validate (s : DocumentSymbol) : bool :=
  negb (bool_decide (name s = []))
  && contains (range s) (selectionRange s).

(** [symbol.children.push(child)] *)
Definition pushChild (child : DocumentSymbol) (s : DocumentSymbol)
  : DocumentSymbol :=
  match s with
  | mkSymbol n d k r sr c => mkSymbol n d k r sr (c ++ [child])
  end.

(** A symbol that is already part of the outline is named by its path from
    the top-level array: the index at each level. Pushing to the children
    of a symbol the outline holds changes the outline at that path. *)
Definition SymbolRef : Type := list nat.

Definition setChildren (c : list DocumentSymbol) (s : DocumentSymbol)
  : DocumentSymbol :=
  match s with
  | mkSymbol n d k r sr _ => mkSymbol n d k r sr c
  end.

Fixpoint alterAt (ref : SymbolRef) (f : DocumentSymbol -> DocumentSymbol)
  (symbols : list DocumentSymbol) : list DocumentSymbol :=
  match ref with
  | [] => symbols
  | [i] => alter f i symbols
  | i :: ref' =>
      alter (fun s => setChildren (alterAt ref' f (children s)) s) i symbols
  end.

Fixpoint lookupAt (ref : SymbolRef) (symbols : list DocumentSymbol)
  : option DocumentSymbol :=
  match ref with
  | [] => None
  | [i] => symbols !! i
  | i :: ref' =>
      match symbols !! i with
      | Some s => lookupAt ref' (children s)
      | None => None
      end
  end.

End vscode.

(** ** Writing patterns *)

Module RegExpNotations.
Import RegExp.

Infix ">>" := Seq (at level 60, right associativity).

(** [\s], [\w], [.], [[^c]] and a run of pattern characters *)
Definition ws : regex := Class isSpace.
Definition wd : regex := Class isWordChar.
Definition anyChar : regex := Class dot.
Definition notChar (c : ascii) : regex := Class (isNot c).
Definition word (s : string) : regex := Str (lit s).

End RegExpNotations.

(** ** The document symbol provider *)

Module TclDocumentSymbolProvider.
Import RegExp RegExpNotations vscode.

(** A number or [null] used as a condition: [null] and [0] do not pass. *)
Definition truthy (n : option Z) : option Z :=
  match n with
  | Some p => if p =? 0 then None else Some p
  | None => None
  end.

(** [m[n]] where the pattern makes the group take part in every match. *)
Definition groupOf (text : str) (m : rmatch) (n : nat) : str :=
  default [] (group text m n).

(** [value.length > 20 ? value.substring(0, 20) + '...' : value] after
    [value: ] *)
Definition valueDetail (value : str) : str :=
  lit "value: " ++
  (if 20 <? JS.len value then JS.substring value 0 20 ++ lit "..."
   else value).

(** The symbol of a block that starts at [startOffset] and whose brace
    opens at [bracePos]: its range runs to one past the matching brace; if
    the end could not be found, just the line is used. Namespaces and
    procedures are built this way. *)
Definition blockSymbol (document : TextDocument) (text : str)
  (name detail : str) (kind : SymbolKind) (startOffset bracePos : Z)
  : DocumentSymbol :=
  let startPos := positionAt document startOffset in
  let endPos :=
    match truthy (findMatchingBrace text bracePos) with
    | Some e => positionAt document (e + 1)
    | None => lineEnd document (line startPos)
    end in
  let range := newRange startPos endPos in
  let selectionRange :=
    newRange startPos (lineEnd document (line startPos)) in
  newDocumentSymbol name detail kind range selectionRange.

(** *** Local variables of a procedure *)

(** Pattern: /set\s+(\w+)\s+(.+)$/gm *)
Definition localVarRegex : regex :=
  word "set" >> Plus ws >> Group 1 (Plus wd) >> Plus ws >>
  Group 2 (Plus anyChar) >> EOL.

(** Pattern: /array\s+set\s+(\w+)\s+{([^}]* )}/gm *)
Definition arraySetRegex : regex :=
  word "array" >> Plus ws >> word "set" >> Plus ws >> Group 1 (Plus wd) >>
  Plus ws >> Lit LBRACE >> Group 2 (Star (notChar RBRACE)) >> Lit RBRACE.

(** The symbol of one match of the pattern of local variables. *)
Definition localVarSymbol (document : TextDocument) (procBody : str)
  (procBodyStartOffset : Z) (varMatch : rmatch) : DocumentSymbol :=
  let varName := groupOf procBody varMatch 1 in
  let value := JSStr.trim (groupOf procBody varMatch 2) in
  let startPos :=
    positionAt document (procBodyStartOffset + index varMatch) in
  let endPos :=
    positionAt document (procBodyStartOffset + index varMatch
                         + JS.len (matched procBody varMatch)) in
  let range := newRange startPos endPos in
  newDocumentSymbol varName (valueDetail value) KVariable range range.

Definition localVarStep (document : TextDocument) (procBody : str)
  (procBodyStartOffset : Z) (procSymbol : DocumentSymbol) (varMatch : rmatch)
  : DocumentSymbol :=
  let varName := groupOf procBody varMatch 1 in
  (* Skip already processed variables (e.g., loop variables) *)
  if existsb (fun child => bool_decide (name child = varName))
             (children procSymbol)
  then procSymbol
  else
    pushChild
      (localVarSymbol document procBody procBodyStartOffset varMatch)
      procSymbol.

Definition arraySymbol (document : TextDocument) (procBody : str)
  (procBodyStartOffset : Z) (arrayMatch : rmatch) : DocumentSymbol :=
  let arrayName := groupOf procBody arrayMatch 1 in
  let startPos :=
    positionAt document (procBodyStartOffset + index arrayMatch) in
  let endPos :=
    positionAt document (procBodyStartOffset + index arrayMatch
                         + JS.len (matched procBody arrayMatch)) in
  let range := newRange startPos endPos in
  newDocumentSymbol arrayName (lit "array") KArray range range.

Definition arraySetStep (document : TextDocument) (procBody : str)
  (procBodyStartOffset : Z) (procSymbol : DocumentSymbol) (arrayMatch : rmatch)
  : DocumentSymbol :=
  pushChild (arraySymbol document procBody procBodyStartOffset arrayMatch)
            procSymbol.

(** The procedure symbol comes in and goes out changed. *)
Definition processLocalVariables (document : TextDocument) (procBody : str)
  (procBodyStartOffset : Z) (procSymbol : DocumentSymbol) : DocumentSymbol :=
  let procSymbol :=
    fold_left (localVarStep document procBody procBodyStartOffset)
              (execAll localVarRegex procBody) procSymbol in
  fold_left (arraySetStep document procBody procBodyStartOffset)
            (execAll arraySetRegex procBody) procSymbol.

(** *** Variables and procedures of a namespace *)

(** Pattern: /variable\s+(\w+)(?:\s+(.+))?$/gm *)
Definition nsVarRegex : regex :=
  word "variable" >> Plus ws >> Group 1 (Plus wd) >>
  Opt (Plus ws >> Group 2 (Plus anyChar)) >> EOL.

Definition namespaceVariableStep (document : TextDocument) (nsContent : str)
  (nsContentStartOffset : Z) (nsSymbol : DocumentSymbol) (varMatch : rmatch)
  : DocumentSymbol :=
  let varName := groupOf nsContent varMatch 1 in
  let value :=
    match group nsContent varMatch 2 with
    | Some ((_ :: _) as g) => JSStr.trim g
    | _ => []
    end in
  let startPos :=
    positionAt document (nsContentStartOffset + index varMatch) in
  let endPos :=
    positionAt document (nsContentStartOffset + index varMatch
                         + JS.len (matched nsContent varMatch)) in
  let range := newRange startPos endPos in
  let varSymbol :=
    newDocumentSymbol varName
      (match value with
       | _ :: _ => valueDetail value
       | [] => lit "namespace variable"
       end)
      KVariable range range in
  pushChild varSymbol nsSymbol.

Definition processNamespaceVariables (document : TextDocument)
  (nsContent : str) (nsContentStartOffset : Z) (nsSymbol : DocumentSymbol)
  : DocumentSymbol :=
  fold_left (namespaceVariableStep document nsContent nsContentStartOffset)
            (execAll nsVarRegex nsContent) nsSymbol.

(** [args ? `args: ${args}` : ''] *)
Definition argsDetail (args : str) : str :=
  match args with
  | _ :: _ => lit "args: " ++ args
  | [] => []
  end.

(** Pattern: /proc\s+(\w+)\s*{([^}]* )}\s*{/gm *)
Definition nsProcRegex : regex :=
  word "proc" >> Plus ws >> Group 1 (Plus wd) >> Star ws >> Lit LBRACE >>
  Group 2 (Star (notChar RBRACE)) >> Lit RBRACE >> Star ws >> Lit LBRACE.

(** The last child of a symbol, just pushed, changed in place. *)
Definition alterLastChild (f : DocumentSymbol -> DocumentSymbol)
  (s : DocumentSymbol) : DocumentSymbol :=
  setChildren (alter f (pred (length (children s))) (children s)) s.

Definition namespaceProcedureStep (document : TextDocument) (nsContent : str)
  (nsContentStartOffset : Z) (nsSymbol : DocumentSymbol) (procMatch : rmatch)
  : DocumentSymbol :=
  let procName := groupOf nsContent procMatch 1 in
  let args := JSStr.trim (groupOf nsContent procMatch 2) in
  let procBodyStart :=
    nsContentStartOffset + index procMatch
    + JS.len (matched nsContent procMatch) - 1 in
  let procEndIndex := findMatchingBrace document procBodyStart in
  let procSymbol :=
    blockSymbol document document procName (argsDetail args) KFunction
                (nsContentStartOffset + index procMatch) procBodyStart in
  let nsSymbol := pushChild procSymbol nsSymbol in
  (* Process local variables *)
  match truthy procEndIndex with
  | Some e =>
      let procBody := JS.substring document (procBodyStart + 1) e in
      alterLastChild
        (processLocalVariables document procBody (procBodyStart + 1)) nsSymbol
  | None => nsSymbol
  end.

Definition processNamespaceProcedures (document : TextDocument)
  (nsContent : str) (nsContentStartOffset : Z) (nsSymbol : DocumentSymbol)
  : DocumentSymbol :=
  fold_left (namespaceProcedureStep document nsContent nsContentStartOffset)
            (execAll nsProcRegex nsContent) nsSymbol.

(** *** Namespaces *)

(** Pattern: /^namespace\s+eval\s+(\w+)(?:\s*{([\s\S]*?)^}|\s+([^{]+))/gm *)
Definition nsRegex : regex :=
  BOL >> word "namespace" >> Plus ws >> word "eval" >> Plus ws >>
  Group 1 (Plus wd) >>
  Alt (Star ws >> Lit LBRACE >> Group 2 (LazyStar (Class any)) >> BOL >>
       Lit RBRACE)
      (Plus ws >> Group 3 (Plus (notChar LBRACE))).

(** The outline being built: the top-level array and the map from a
    namespace name to the symbol of that name, kept as its place in the
    array. *)
Definition outline : Type := list DocumentSymbol * gmap str nat.

Definition namespaceStep (document : TextDocument) (text : str)
  (st : outline) (nsMatch : rmatch) : outline :=
  let '(symbols, namespaceMap) := st in
  let nsName := groupOf text nsMatch 1 in
  let bracePos :=
    index nsMatch + JSStr.indexOfChar LBRACE (matched text nsMatch) in
  let nsSymbol :=
    blockSymbol document text nsName (lit "namespace") KNamespace
                (index nsMatch) bracePos in
  (* Add to symbols and tracking map *)
  let nsRef := length symbols in
  let symbols := symbols ++ [nsSymbol] in
  let namespaceMap := <[nsName := nsRef]> namespaceMap in
  let nsContent := groupOf text nsMatch 2 in
  let symbols :=
    alter (processNamespaceVariables document nsContent (bracePos + 1))
          nsRef symbols in
  let symbols :=
    alter (processNamespaceProcedures document nsContent (bracePos + 1))
          nsRef symbols in
  (symbols, namespaceMap).

Definition processNamespaces (document : TextDocument) (text : str)
  (st : outline) : outline :=
  fold_left (namespaceStep document text) (execAll nsRegex text) st.

(** *** Global procedures *)

(** Pattern: /^proc\s+([^:\s]+::)?(\w+)\s*{([^}]* )}\s*{/gm *)
Definition notColonOrSpace (c : ascii) : bool :=
  negb (Ascii.eqb c ":"%char || isSpace c).

Definition procRegex : regex :=
  BOL >> word "proc" >> Plus ws >>
  Opt (Group 1 (Plus (Class notColonOrSpace) >> word "::")) >>
  Group 2 (Plus wd) >> Star ws >> Lit LBRACE >>
  Group 3 (Star (notChar RBRACE)) >> Lit RBRACE >> Star ws >> Lit LBRACE.

(** [procMatch[1] ? procMatch[1].slice(0, -2) : null], then
    [namespace && namespaceMap.has(namespace)]: the place of the namespace
    symbol the procedure goes under, if any. *)
Definition procNamespace (text : str) (procMatch : rmatch) : option str :=
  match group text procMatch 1 with
  | Some ((_ :: _) as g) => Some (take (length g - 2) g)
  | _ => None
  end.

Definition procParent (namespaceMap : gmap str nat) (namespace : option str)
  : option nat :=
  match namespace with
  | Some ((_ :: _) as ns) => namespaceMap !! ns
  | _ => None
  end.

Definition procStep (document : TextDocument) (text : str)
  (namespaceMap : gmap str nat) (symbols : list DocumentSymbol)
  (procMatch : rmatch) : list DocumentSymbol :=
  let namespace := procNamespace text procMatch in
  let procName := groupOf text procMatch 2 in
  let args := JSStr.trim (groupOf text procMatch 3) in
  let procBodyStart :=
    index procMatch + JS.len (matched text procMatch) - 1 in
  let procEndIndex := findMatchingBrace text procBodyStart in
  let procSymbol :=
    blockSymbol document text procName (argsDetail args) KFunction
                (index procMatch) procBodyStart in
  (* Add to appropriate parent (namespace or global) *)
  let '(symbols, procRef) :=
    match procParent namespaceMap namespace with
    | Some nsRef =>
        (alterAt [nsRef] (pushChild procSymbol) symbols,
         [nsRef; length (default [] (children <$> symbols !! nsRef))])
    | None => (symbols ++ [procSymbol], [length symbols])
    end in
  (* Process local variables within this procedure *)
  match truthy procEndIndex with
  | Some e =>
      let procBody := JS.substring text (procBodyStart + 1) e in
      alterAt procRef
        (processLocalVariables document procBody (procBodyStart + 1)) symbols
  | None => symbols
  end.

Definition processProcedures (document : TextDocument) (text : str)
  (symbols : list DocumentSymbol) (namespaceMap : gmap str nat)
  : list DocumentSymbol :=
  fold_left (procStep document text namespaceMap) (execAll procRegex text)
            symbols.

(** *** Global variables *)

(** Pattern: /^set\s+::(\w+)\s+(.+)$/gm *)
Definition globalVarRegex : regex :=
  BOL >> word "set" >> Plus ws >> word "::" >> Group 1 (Plus wd) >>
  Plus ws >> Group 2 (Plus anyChar) >> EOL.

Definition globalVarStep (document : TextDocument) (text : str)
  (symbols : list DocumentSymbol) (varMatch : rmatch) : list DocumentSymbol :=
  let varName := groupOf text varMatch 1 in
  let value := JSStr.trim (groupOf text varMatch 2) in
  let startPos := positionAt document (index varMatch) in
  let endPos :=
    positionAt document (index varMatch + JS.len (matched text varMatch)) in
  let range := newRange startPos endPos in
  let varSymbol :=
    newDocumentSymbol varName (valueDetail value) KVariable range range in
  symbols ++ [varSymbol].

Definition processGlobalVariables (document : TextDocument) (text : str)
  (symbols : list DocumentSymbol) : list DocumentSymbol :=
  fold_left (globalVarStep document text) (execAll globalVarRegex text)
            symbols.

(** *** Control blocks *)

(** Pattern: /\b(if|elseif|else|foreach|for|while|switch|catch)\b[^{]*{.*/gm *)
Definition controlRegex : regex :=
  WordB >>
  Group 1 (Alt (word "if") (Alt (word "elseif") (Alt (word "else")
          (Alt (word "foreach") (Alt (word "for") (Alt (word "while")
          (Alt (word "switch") (word "catch")))))))) >>
  WordB >> Star (notChar LBRACE) >> Lit LBRACE >> Star anyChar.

(** The first symbol of [symbols] whose range contains [range], or the
    deepest symbol found below it by the same search. *)
Fixpoint enclosingChild (range : Range) (symbol : DocumentSymbol)
  : option SymbolRef :=
  match symbol with
  | mkSymbol _ _ _ _ _ cs =>
      (fix scan (l : list DocumentSymbol) (i : nat) : option SymbolRef :=
         match l with
         | [] => None
         | s :: l' =>
             if contains (vscode.range s) range
             then Some (i :: default [] (enclosingChild range s))
             else scan l' (S i)
         end) cs 0%nat
  end.

Fixpoint findEnclosingSymbol_from (range : Range)
  (symbols : list DocumentSymbol) (i : nat) : option SymbolRef :=
  match symbols with
  | [] => None
  | s :: symbols' =>
      if contains (vscode.range s) range
      then Some (i :: default [] (enclosingChild range s))
      else findEnclosingSymbol_from range symbols' (S i)
  end.

Definition findEnclosingSymbol (range : Range) (symbols : list DocumentSymbol)
  : option SymbolRef :=
  findEnclosingSymbol_from range symbols 0.

(** The range and the symbol of a control block that closes at
    [closeBracePos]. *)
Definition controlRange (document : TextDocument) (m : rmatch)
  (closeBracePos : Z) : Range :=
  newRange (positionAt document (index m))
           (positionAt document (closeBracePos + 1)).

Definition controlSymbolOf (document : TextDocument) (text : str)
  (m : rmatch) (closeBracePos : Z) : DocumentSymbol :=
  let keyword := groupOf text m 1 in
  let startPos := positionAt document (index m) in
  newDocumentSymbol keyword (keyword ++ lit " block") KObject
    (controlRange document m closeBracePos)
    (newRange startPos (lineEnd document (line startPos))).

Definition controlStep (document : TextDocument) (text : str)
  (symbols : list DocumentSymbol) (m : rmatch) : list DocumentSymbol :=
  let openBracePos :=
    index m + JSStr.lastIndexOfChar LBRACE (matched text m) in
  match findMatchingBrace text openBracePos with
  | None => symbols
  | Some closeBracePos =>
      let startPos := positionAt document (index m) in
      let endPos := positionAt document (closeBracePos + 1) in
      let range := controlRange document m closeBracePos in
      (* Only add multi-line blocks *)
      if line endPos =? line startPos then symbols
      else
        let controlSymbol := controlSymbolOf document text m closeBracePos in
        (* Find a parent symbol that completely encloses this block *)
        match findEnclosingSymbol range symbols with
        | Some parent => alterAt parent (pushChild controlSymbol) symbols
        | None => symbols ++ [controlSymbol]
        end
  end.

Definition processControlBlocks (document : TextDocument) (text : str)
  (symbols : list DocumentSymbol) : list DocumentSymbol :=
  fold_left (controlStep document text) (execAll controlRegex text) symbols.

(** *** The outline *)

Definition provideDocumentSymbols (document : TextDocument)
  : list DocumentSymbol :=
  let text : str := document in
  let '(symbols, namespaceMap) := processNamespaces document text ([], ∅) in
  let symbols := processProcedures document text symbols namespaceMap in
  let symbols := processGlobalVariables document text symbols in
  processControlBlocks document text symbols.

(** The symbol of a procedure once its body, if its end was found, was
    scanned for local variables. *)
Definition withLocalVariables (document : TextDocument) (text : str)
  (procBodyStart : Z) (procSymbol : DocumentSymbol) : DocumentSymbol :=
  match truthy (findMatchingBrace text procBodyStart) with
  | Some e =>
      processLocalVariables document
        (JS.substring text (procBodyStart + 1) e) (procBodyStart + 1)
        procSymbol
  | None => procSymbol
  end.

(** Every entry of the map of namespaces names a namespace symbol of the
    top-level array. *)
Definition namespaceRefs (namespaceMap : gmap str nat)
  (symbols : list DocumentSymbol) : Prop :=
  forall (n : str) (i : nat),
    namespaceMap !! n = Some i ->
    exists s, symbols !! i = Some s /\ kind s = KNamespace.

(** *** What is in the outline, in words

    The frame of a symbol: what stays of it when children are added. *)
Definition frame (s : DocumentSymbol) : str * SymbolKind * Range * Range :=
  (name s, kind s, vscode.range s, selectionRange s).

(** [reported fr symbols]: the outline holds a symbol of frame [fr], at
    the top level or as a child of a top-level symbol. *)
Definition reported (fr : str * SymbolKind * Range * Range)
  (symbols : list DocumentSymbol) : Prop :=
  exists (i : nat) (s : DocumentSymbol),
    symbols !! i = Some s /\
    (frame s = fr \/
     exists (j : nat) (c : DocumentSymbol),
       children s !! j = Some c /\ frame c = fr).

(** [keeps l l']: what [l] holds down to the children of its top-level
    symbols is still in [l'], at the same places and with the same
    frames. *)
Definition keeps (l l' : list DocumentSymbol) : Prop :=
  forall (i : nat) (s : DocumentSymbol),
    l !! i = Some s ->
    exists s',
      l' !! i = Some s' /\ frame s' = frame s /\
      forall (j : nat) (c : DocumentSymbol),
        children s !! j = Some c ->
        exists c', children s' !! j = Some c' /\ frame c' = frame c.

(** *** Containment, in words

    The claim as the specification states it, for a whole tree: the
    declaration span of every symbol lies inside its span, and the span of
    every child lies inside the span of its parent. *)
Fixpoint containmentHolds (s : DocumentSymbol) : bool :=
  match s with
  | mkSymbol _ _ _ r sr cs =>
      contains r sr
      && (fix all (l : list DocumentSymbol) : bool :=
            match l with
            | [] => true
            | c :: l' =>
                contains r (vscode.range c) && containmentHolds c && all l'
            end) cs
  end.

(** What the provider keeps of it. The declaration span of a variable, an
    array or a control block lies inside its span. *)
Definition declarationInside (s : DocumentSymbol) : Prop :=
  match kind s with
  | KFunction | KNamespace => True
  | KVariable | KArray | KObject =>
      contains (vscode.range s) (selectionRange s) = true
  end.

(** The children of a procedure lie inside its span, and a control block
    lies inside the span of the symbol it was attached to. *)
Definition childInside (parent c : DocumentSymbol) : Prop :=
  match kind parent, kind c with
  | KFunction, _ | _, KObject =>
      contains (vscode.range parent) (vscode.range c) = true
  | _, _ => True
  end.

Unset Elimination Schemes.
Inductive wellNested : DocumentSymbol -> Prop :=
| wellNested_intro s :
    declarationInside s ->
    Forall (fun c => childInside s c /\ wellNested c) (children s) ->
    wellNested s.
Set Elimination Schemes.

(** The outline is returned when no call of the constructor raised an
    error. Every symbol the scans build goes into the outline and keeps
    the name and the spans it was built with, so this can be read off the
    outline: [accepted s] holds when [s] and the symbols below it pass the
    check of the constructor. *)
Fixpoint accepted (s : DocumentSymbol) : bool :=
  match s with
  | mkSymbol n d k r sr cs =>
      validate (mkSymbol n d k r sr cs)
      && (fix all (l : list DocumentSymbol) : bool :=
            match l with
            | [] => true
            | c :: l' => accepted c && all l'
            end) cs
  end.

(** Containment in an outline that was returned: the declaration span of
    every symbol lies inside its span, and the children lie where
    [childInside] puts them. *)
Unset Elimination Schemes.
Inductive nested : DocumentSymbol -> Prop :=
| nested_intro s :
    contains (vscode.range s) (selectionRange s) = true ->
    Forall (fun c => childInside s c /\ nested c) (children s) ->
    nested s.
Set Elimination Schemes.

(** A change of a symbol that keeps its name, its kind and its spans: all
    the provider does to a symbol of the outline is to add children. *)
Definition keepsFrame (f : DocumentSymbol -> DocumentSymbol) : Prop :=
  forall s,
    name (f s) = name s /\ kind (f s) = kind s /\
    vscode.range (f s) = vscode.range s /\
    selectionRange (f s) = selectionRange s.

(** *** What the scan of a body recorded, in words *)

Definition isVariable (c : DocumentSymbol) : bool :=
  match kind c with
  | KVariable => true
  | _ => false
  end.

(** The children that are called [n], *)
Definition childrenNamed (n : str) (s : DocumentSymbol)
  : list DocumentSymbol :=
  List.filter (fun c => bool_decide (name c = n)) (children s).

(** and those of them the scan for [set] recorded. *)
Definition variablesNamed (n : str) (s : DocumentSymbol)
  : list DocumentSymbol :=
  List.filter (fun c => isVariable c && bool_decide (name c = n))
              (children s).

(** *** Where a control block goes, in words

    [firstContaining range l i s]: [s] is the first symbol of [l] whose
    range contains [range], and it stands at index [i]. *)
Definition firstContaining (range : Range) (l : list DocumentSymbol)
  (i : nat) (s : DocumentSymbol) : Prop :=
  l !! i = Some s /\
  contains (vscode.range s) range = true /\
  forall j s', (j < i)%nat -> l !! j = Some s' ->
               contains (vscode.range s') range = false.

(** [descent range l ref parent]: going down from the list [l], at every
    level into the first symbol that contains [range], ends at [parent],
    none of whose children contains [range]; [ref] is the path taken. *)
Inductive descent (range : Range)
  : list DocumentSymbol -> SymbolRef -> DocumentSymbol -> Prop :=
| descent_here l i s :
    firstContaining range l i s ->
    Forall (fun c => contains (vscode.range c) range = false) (children s) ->
    descent range l [i] s
| descent_down l i s ref parent :
    firstContaining range l i s ->
    descent range (children s) ref parent ->
    descent range l (i :: ref) parent.

(** The claim on control blocks, read with every symbol built so far, at
    any depth, as a candidate parent: a block that some symbol of the
    outline contains is not appended at the top level. *)
Fixpoint anyContains (range : Range) (s : DocumentSymbol) : bool :=
  match s with
  | mkSymbol _ _ _ r _ cs =>
      contains r range
      || (fix any (l : list DocumentSymbol) : bool :=
            match l with
            | [] => false
            | c :: l' => anyContains range c || any l'
            end) cs
  end.

(** *** Where the blocks stand in the outline, in words

    The frames of the symbols built for a namespace header and for a
    procedure header the patterns matched. *)
Definition namespaceFrame (document : TextDocument) (m : rmatch)
  : str * SymbolKind * Range * Range :=
  let text : str := document in
  frame (blockSymbol document text (groupOf text m 1) (lit "namespace")
           KNamespace (index m)
           (index m + JSStr.indexOfChar LBRACE (matched text m))).

Definition procedureFrame (document : TextDocument) (m : rmatch)
  : str * SymbolKind * Range * Range :=
  let text : str := document in
  frame (blockSymbol document text (groupOf text m 2)
           (argsDetail (JSStr.trim (groupOf text m 3))) KFunction
           (index m) (index m + JS.len (matched text m) - 1)).

(** [occurs fr symbols]: the outline holds a symbol of frame [fr], at
    the top level or below it, at any depth. *)
Definition occurs (fr : str * SymbolKind * Range * Range)
  (symbols : list DocumentSymbol) : Prop :=
  exists (ref : SymbolRef) (s : DocumentSymbol),
    lookupAt ref symbols = Some s /\ frame s = fr.




(** The frames of the members the scan of the body of a namespace header
    gives: those of its variables, then those of its procedures. *)
Definition memberFrames (document : TextDocument) (m : rmatch)
  : list (str * SymbolKind * Range * Range) :=
  let text : str := document in
  let nsContent := groupOf text m 2 in
  let off := index m + JSStr.indexOfChar LBRACE (matched text m) + 1 in
  ((fun v =>
      let range :=
        newRange (positionAt document (off + index v))
                 (positionAt document
                    (off + index v + JS.len (matched nsContent v))) in
      (groupOf nsContent v 1, KVariable, range, range))
     <$> execAll nsVarRegex nsContent)
  ++
  ((fun p =>
      frame (blockSymbol document text (groupOf nsContent p 1)
               (argsDetail (JSStr.trim (groupOf nsContent p 2))) KFunction
               (off + index p)
               (off + index p + JS.len (matched nsContent p) - 1)))
     <$> execAll nsProcRegex nsContent).

(** The names of the namespace headers of a document, in the order of the
    headers. *)
Definition namespaceNames (document : TextDocument) : list str :=
  let text : str := document in
  (fun m => groupOf text m 1) <$> execAll nsRegex text.

(** [lastNamed n i names]: place [i] is the last one of [names] that
    holds [n]. *)
Definition lastNamed (n : str) (i : nat) (names : list str) : Prop :=
  names !! i = Some n /\ forall j, (i < j)%nat -> names !! j <> Some n.

(** [childAt fr i symbols]: the top-level symbol at place [i] has a child
    of frame [fr]. *)
Definition childAt (fr : str * SymbolKind * Range * Range) (i : nat)
  (symbols : list DocumentSymbol) : Prop :=
  exists (s : DocumentSymbol) (j : nat) (c : DocumentSymbol),
    symbols !! i = Some s /\ children s !! j = Some c /\ frame c = fr.

(** [topLevelAt fr i symbols]: the top-level symbol at place [i] has
    frame [fr]. *)
Definition topLevelAt (fr : str * SymbolKind * Range * Range) (i : nat)
  (symbols : list DocumentSymbol) : Prop :=
  exists s : DocumentSymbol, symbols !! i = Some s /\ frame s = fr.

End TclDocumentSymbolProvider.

(** ** The host: the files of the workspace

    Cross-file search reaches outside the document through the editor. A
    computation that may do so reads the workspace and records the calls it
    makes to the editor, in order. *)

Module Host.
Import vscode.

Inductive HostCall : Type :=
| FindFiles (pattern : str)          (* vscode.workspace.findFiles *)
| OpenTextDocument (file : nat).     (* vscode.workspace.openTextDocument *)

(** The files [findFiles] returns, in its order, each with the text that
    opening it gives. *)
Definition Workspace : Type := list TextDocument.

Definition M (A : Type) : Type := Workspace -> list HostCall * A.

Definition ret {A : Type} (a : A) : M A := fun _ => ([], a).

Definition bind {A B : Type} (m : M A) (f : A -> M B) : M B :=
  fun w =>
    let '(l1, a) := m w in
    let '(l2, b) := f a w in
    (l1 ++ l2, b).

Definition findFiles (pattern : str) : M (list TextDocument) :=
  fun w => ([FindFiles pattern], w).

Definition openTextDocument (file : TextDocument) : M TextDocument :=
  fun _ => ([OpenTextDocument (uri file)], file).

(** The calls a computation makes, and what it returns. *)
Definition calls {A : Type} (m : M A) (w : Workspace) : list HostCall :=
  fst (m w).

Definition result {A : Type} (m : M A) (w : Workspace) : A := snd (m w).

End Host.

Notation "x <- m ;; k" := (Host.bind m (fun x => k))
  (at level 100, m at next level, right associativity).

(** ** The definition provider *)

Module TclDefinitionProvider.
Import RegExp RegExpNotations vscode Host.

Definition truthy (n : option Z) : option Z :=
  match n with
  | Some p => if p =? 0 then None else Some p
  | None => None
  end.

(** "/[\w\s()]/.test(lineText[i])"; a column past the end of the line
    reads [undefined], which the test turns into a word. *)
Definition isVariableChar (o : option ascii) : bool :=
  match o with
  | Some c =>
      isWordChar c || isSpace c || Ascii.eqb c "("%char || Ascii.eqb c ")"%char
  | None => true
  end.

(** The loop of [isVariableReference], with [i + 1 = n]. *)
Fixpoint isVariableReference_from (lineText : str) (n : nat) : bool :=
  match n with
  | O => false
  | S i =>
      if JS.is_char "$"%char (JS.charAt lineText (Z.of_nat i)) then true
      else if negb (isVariableChar (JS.charAt lineText (Z.of_nat i)))
           then false
           else isVariableReference_from lineText i
  end.

Definition isVariableReference (lineText : str) (charPos : Z) : bool :=
  isVariableReference_from lineText (Z.to_nat charPos).

(** Pattern: /proc\s+(\w+|[\w:]+::[\w:]+)\s*{[^}]*}\s*{/g *)
Definition containingProcRegex : regex :=
  word "proc" >> Plus ws >>
  Group 1 (Alt (Plus wd)
               (Plus (Class wordOrColon) >> word "::" >>
                Plus (Class wordOrColon))) >>
  Star ws >> Lit LBRACE >> Star (notChar RBRACE) >> Lit RBRACE >>
  Star ws >> Lit LBRACE.

(** The range of a procedure whose closing brace was found. *)
Definition procRangeOf (document : TextDocument) (text : str) (m : rmatch)
  : option Range :=
  let procStart := index m in
  let procBodyStart := index m + JS.len (matched text m) - 1 in
  match truthy (findMatchingBrace text procBodyStart) with
  | Some procBodyEnd =>
      Some (newRange (positionAt document procStart)
                     (positionAt document (procBodyEnd + 1)))
  | None => None
  end.

Definition containingStep (document : TextDocument) (text : str)
  (position : Position) (bestProcRange : option Range) (m : rmatch)
  : option Range :=
  match procRangeOf document text m with
  | Some procRange =>
      if containsPosition procRange position then
        match bestProcRange with
        | None => Some procRange
        | Some best =>
            if isBefore (end_ procRange) (end_ best)
               && isAfter (start procRange) (start best)
            then Some procRange else Some best
        end
      else bestProcRange
  | None => bestProcRange
  end.

Definition getContainingProcedureRange (document : TextDocument)
  (position : Position) : option Range :=
  let text : str := document in
  fold_left (containingStep document text position)
            (execAll containingProcRegex text) None.

(** "set\s+::${globalName}\s+", "set\s+${varBaseName}\s+" and
    "variable\s+${varBaseName}(?:\s+|$)", all with flags gm *)
Definition globalRegex (globalName : str) : regex :=
  word "set" >> Plus ws >> word "::" >> Str globalName >> Plus ws.

Definition setRegex (varBaseName : str) : regex :=
  word "set" >> Plus ws >> Str varBaseName >> Plus ws.

Definition variableRegex (varBaseName : str) : regex :=
  word "variable" >> Plus ws >> Str varBaseName >> Alt (Plus ws) EOL.

Definition locationOf (document : TextDocument) (a b : Z) : Location :=
  mkLocation (uri document)
             (newRange (positionAt document a) (positionAt document b)).

Definition findVariableDefinition (document : TextDocument) (varName : str)
  (position : Position) : option Location :=
  let text : str := document in
  let isArrayRef := JSStr.includes varName (lit "(") in
  let varBaseName :=
    if isArrayRef
    then JS.substring varName 0 (JSStr.indexOfChar "("%char varName)
    else varName in
  let globalHit :=
    if JSStr.startsWith varName (lit "::") then
      let globalName := JS.substring varName 2 (JS.len varName) in
      exec (globalRegex globalName) text 0
    else None in
  match globalHit with
  | Some m =>
      Some (locationOf document (index m)
                       (index m + JS.len (matched text m) + 1))
  | None =>
      (* Start by looking in the current procedure *)
      let localHit :=
        match getContainingProcedureRange document position with
        | Some containingProcRange =>
            let procText := getText document containingProcRange in
            let procStart := offsetAt document (start containingProcRange) in
            match exec (setRegex varBaseName) procText 0 with
            | Some localMatch =>
                Some (locationOf document
                        (procStart + index localMatch)
                        (procStart + index localMatch
                         + JS.len (matched procText localMatch) + 1))
            | None =>
                match exec (variableRegex varBaseName) procText 0 with
                | Some localMatch =>
                    Some (locationOf document
                            (procStart + index localMatch)
                            (procStart + index localMatch
                             + JS.len (matched procText localMatch)))
                | None => None
                end
            end
        | None => None
        end in
      match localHit with
      | Some l => Some l
      | None =>
          (* If not found in local context, look in the document *)
          match exec (setRegex varBaseName) text 0 with
          | Some m =>
              Some (locationOf document (index m)
                               (index m + JS.len (matched text m) + 1))
          | None =>
              match exec (variableRegex varBaseName) text 0 with
              | Some m =>
                  Some (locationOf document (index m)
                                   (index m + JS.len (matched text m)))
              | None => None
              end
          end
      end
  end.

(** "proc\s+${procName}\s*{" and "namespace\s+eval\s+${nsName}\s*{",
    flags gm *)
Definition procDefRegex (procName : str) : regex :=
  word "proc" >> Plus ws >> Str procName >> Star ws >> Lit LBRACE.

Definition nsDefRegex (nsName : str) : regex :=
  word "namespace" >> Plus ws >> word "eval" >> Plus ws >> Str nsName >>
  Star ws >> Lit LBRACE.

(** The range from the start of a match to one past the brace that closes
    the block the match opens, or to the end of the line of the match. *)
Definition blockLocation (document : TextDocument) (text : str)
  (startOffset bodyStart : Z) : Location :=
  let startPos := positionAt document startOffset in
  let endPos :=
    match truthy (findMatchingBrace text bodyStart) with
    | Some bodyEnd => positionAt document (bodyEnd + 1)
    | None => lineEnd document (line startPos)
    end in
  mkLocation (uri document) (newRange startPos endPos).

Definition findProcedureDefinition (document : TextDocument) (procName : str)
  : option Location :=
  let text : str := document in
  match exec (procDefRegex procName) text 0 with
  | Some m =>
      Some (blockLocation document text (index m)
                          (index m + JS.len (matched text m) - 1))
  | None => None
  end.

Definition findNamespaceDefinition (document : TextDocument) (nsName : str)
  : option Location :=
  let text : str := document in
  match exec (nsDefRegex nsName) text 0 with
  | Some m =>
      Some (blockLocation document text (index m)
                          (index m + JS.len (matched text m) - 1))
  | None => None
  end.

(** "proc\s+(${cleanSymbol}|[\w:]+::${cleanSymbol})\s*{", flags gm *)
Definition workspaceProcRegex (cleanSymbol : str) : regex :=
  word "proc" >> Plus ws >>
  Group 1 (Alt (Str cleanSymbol)
               (Plus (Class wordOrColon) >> word "::" >> Str cleanSymbol)) >>
  Star ws >> Lit LBRACE.

(** [s.indexOf('{', from)] *)
Definition indexOfCharAfter (c : ascii) (t : str) (from : Z) : Z :=
  let from := JS.clamp t from in
  match JSStr.indexOfChar c (drop (Z.to_nat from) t) with
  | -1 => -1
  | i => from + i
  end.

(** What one file of the workspace answers. *)
Definition searchInFile (symbolName : str) (d : TextDocument)
  : option Location :=
  let cleanSymbol := JSStr.removeScope symbolName in
  let text : str := d in
  match exec (workspaceProcRegex cleanSymbol) text 0 with
  | Some m =>
      let m0 := matched text m in
      let procBodyStart :=
        index m
        + indexOfCharAfter LBRACE m0 (JSStr.indexOfChar RBRACE m0 + 1) in
      Some (blockLocation d text (index m) procBodyStart)
  | None =>
      if negb (JSStr.includes symbolName (lit "::")) then
        match exec (nsDefRegex symbolName) text 0 with
        | Some m =>
            Some (blockLocation d text (index m)
                                (index m + JS.len (matched text m) - 1))
        | None => None
        end
      else None
  end.

(** The loop over the files: each is opened, the first that answers ends
    the search. *)
Fixpoint searchInFiles (symbolName : str) (files : list TextDocument)
  : M (option Location) :=
  match files with
  | [] => ret None
  | file :: files' =>
      d <- openTextDocument file ;;
      match searchInFile symbolName d with
      | Some l => ret (Some l)
      | None => searchInFiles symbolName files'
      end
  end.

Definition searchInWorkspace (symbolName : str) : M (option Location) :=
  files <- findFiles (lit "**/*.tcl") ;;
  searchInFiles symbolName files.

(** [parts.slice(0, -1).join('::')] and [parts[parts.length - 1]] *)
Definition namespaceOf (qualifiedName : str) : str :=
  let parts := JSStr.splitScope qualifiedName in
  JSStr.joinScope (take (length parts - 1) parts).

Definition symbolOf (qualifiedName : str) : str :=
  let parts := JSStr.splitScope qualifiedName in
  default [] (last parts).

(** The search inside the block of the namespace. *)
Definition findInNamespace (document : TextDocument) (qualifiedName : str)
  : option Location :=
  let namespace := namespaceOf qualifiedName in
  let symbol := symbolOf qualifiedName in
  let text : str := document in
  match exec (nsDefRegex namespace) text 0 with
  | Some m =>
      let nsBodyStart := index m + JS.len (matched text m) - 1 in
      match truthy (findMatchingBrace text nsBodyStart) with
      | Some nsBodyEnd =>
          let nsBody := JS.substring text (nsBodyStart + 1) nsBodyEnd in
          match exec (procDefRegex symbol) nsBody 0 with
          | Some procMatch =>
              Some (blockLocation document text
                      (nsBodyStart + 1 + index procMatch)
                      (nsBodyStart + 1 + index procMatch
                       + JS.len (matched nsBody procMatch) - 1))
          | None =>
              match exec (variableRegex symbol) nsBody 0 with
              | Some varMatch =>
                  Some (locationOf document
                          (nsBodyStart + 1 + index varMatch)
                          (nsBodyStart + 1 + index varMatch
                           + JS.len (matched nsBody varMatch)))
              | None => None
              end
          end
      | None => None
      end
  | None => None
  end.

Definition findNamespaceQualifiedDefinition (document : TextDocument)
  (qualifiedName : str) : M (option Location) :=
  match findInNamespace document qualifiedName with
  | Some l => ret (Some l)
  | None =>
      (* If not found, search in workspace *)
      searchInWorkspace qualifiedName
  end.

Definition provideDefinition (document : TextDocument) (position : Position)
  : M (option Location) :=
  match getWordAtPosition document position with
  | None => ret None
  | Some word =>
      let lineText := lineText document (line position) in
      if isVariableReference lineText (character position) then
        ret (findVariableDefinition document word position)
      else if JSStr.includes word (lit "::") then
        findNamespaceQualifiedDefinition document word
      else
        match findProcedureDefinition document word with
        | Some procLocation => ret (Some procLocation)
        | None =>
            match findNamespaceDefinition document word with
            | Some nsLocation => ret (Some nsLocation)
            | None =>
                (* If not found in this document, search in workspace *)
                searchInWorkspace word
            end
        end
  end.

(** The order the specification words for a bare word: procedures, then
    namespaces, then variable declarations, then the workspace. It is
    written down to be compared with [provideDefinition]. *)
Definition specBareWordOrder (document : TextDocument) (position : Position)
  (word : str) : M (option Location) :=
  match findProcedureDefinition document word with
  | Some procLocation => ret (Some procLocation)
  | None =>
      match findNamespaceDefinition document word with
      | Some nsLocation => ret (Some nsLocation)
      | None =>
          match findVariableDefinition document word position with
          | Some varLocation => ret (Some varLocation)
          | None => searchInWorkspace word
          end
      end
  end.

(** The spans of [getContainingProcedureRange]: one for every procedure
    header the pattern matched whose closing brace was found; and those of
    them that hold a position. *)
Definition procSpans (document : TextDocument) : list Range :=
  let text : str := document in
  omap (procRangeOf document text) (execAll containingProcRegex text).

Definition containingSpans (document : TextDocument) (position : Position)
  : list Range :=
  List.filter (fun r => containsPosition r position) (procSpans document).

(** [inner] lies strictly inside [outer]: it starts later and ends
    earlier. *)
Definition inside (outer inner : Range) : Prop :=
  isBefore (start outer) (start inner) = true /\
  isBefore (end_ inner) (end_ outer) = true.

(** The tightest span, as the specification words it: one of the spans,
    with no span starting later and none ending earlier. *)
Definition tightest (r : Range) (spans : list Range) : Prop :=
  In r spans /\
  forall s, In s spans ->
    isBefore (start r) (start s) = false /\
    isBefore (end_ s) (end_ r) = false.

(** A declaration of [varName] in a piece [t] of the document that starts
    at offset [base]: the first [set], or else the first [variable]. *)
Definition declarationIn (document : TextDocument) (varName : str)
  (t : str) (base : Z) : option Location :=
  match exec (setRegex varName) t 0 with
  | Some m =>
      Some (locationOf document (base + index m)
                       (base + index m + JS.len (matched t m) + 1))
  | None =>
      match exec (variableRegex varName) t 0 with
      | Some m =>
          Some (locationOf document (base + index m)
                           (base + index m + JS.len (matched t m)))
      | None => None
      end
  end.

(** The lookup the specification words for a variable reference: the
    declarations inside the scope first, then those of the whole
    document. It is written down to be compared with
    [findVariableDefinition]. *)
Definition scopedLookup (document : TextDocument) (varName : str)
  (scope : option Range) : option Location :=
  let text : str := document in
  let inScope :=
    match scope with
    | Some r =>
        declarationIn document varName (getText document r)
                      (offsetAt document (start r))
    | None => None
    end in
  match inScope with
  | Some l => Some l
  | None => declarationIn document varName text 0
  end.

End TclDefinitionProvider.

(** ** The hover provider: documentation comments *)

Module TclHoverProvider.
Import RegExp RegExpNotations vscode.

(** The loop of [extractDocComment]: [currentPos] only moves back, so
    [fuel] bounds the turns. *)
Fixpoint extractDocComment_loop (fuel : nat) (text : str) (currentPos : Z)
  (comments : list str) : list str :=
  match fuel with
  | O => comments
  | S fuel' =>
      if 0 <=? currentPos then
        let prevLineEnd := JSStr.lastIndexOfCharFrom NL text currentPos in
        if prevLineEnd =? -1 then comments
        else
          let line :=
            JSStr.trim (JS.substring text (prevLineEnd + 1) (currentPos + 1)) in
          if JSStr.startsWith line (lit "#") then
            extractDocComment_loop fuel' text (prevLineEnd - 1)
              (JSStr.trim (JS.substring line 1 (JS.len line)) :: comments)
          else if negb (bool_decide (line = [])) then comments
          else extractDocComment_loop fuel' text (prevLineEnd - 1) comments
      else comments
  end.

(** [comments.join('\n')] *)
Fixpoint joinLines (ls : list str) : str :=
  match ls with
  | [] => []
  | [l] => l
  | l :: ls' => l ++ [NL] ++ joinLines ls'
  end.

Definition extractDocComment (text : str) (symbolPos : Z) : str :=
  let lineStartPos := JSStr.lastIndexOfCharFrom NL text (symbolPos - 1) in
  if lineStartPos =? -1 then []
  else
    joinLines
      (extractDocComment_loop (Z.to_nat (lineStartPos + 1)) text
                              (lineStartPos - 1) []).

(** Pattern: proc\s+${procName}\s*{([^}]* )}, no flag *)
Definition procHoverRegex (procName : str) : regex :=
  word "proc" >> Plus ws >> Str procName >> Star ws >> Lit LBRACE >>
  Group 1 (Star (notChar RBRACE)) >> Lit RBRACE.

(** The hover of a procedure: its three markdown strings. *)
Definition getProcedureHover (document : TextDocument) (procName : str)
  : option (list str) :=
  let text : str := document in
  match exec (procHoverRegex procName) text 0 with
  | Some m =>
      let args := JSStr.trim (default [] (group text m 1)) in
      let procStart := JSStr.indexOf (lit "proc " ++ procName) text in
      let docComment := extractDocComment text procStart in
      Some [lit "**Procedure**: `" ++ procName ++ lit "`";
            lit "**Arguments**: `" ++ args ++ lit "`";
            docComment]
  | None => None
  end.

(** *** The rest of the hover provider

    The hover provider carries its own copies of [isVariableReference],
    [getContainingProcedureRange] and [findMatchingBrace]; they are, word
    for word, those of the definition provider, whose embedding is used. *)

(** [new vscode.Hover(contents, range)]: the markdown strings and the range
    the hover applies to, if one was given. *)
Record Hover : Type :=
  mkHover { contents : list str; hoverRange : option Range }.

(** [document.getWordRangeAtPosition(position, /[\w:]+/)]: the range of the
    word [getWordAtPosition] returns. *)
Definition getWordRangeAtPosition (text : str) (p : Position)
  : option Range :=
  let lineText := lineText text (line p) in
  match
    filter (fun m => index m <= character p <= endIndex m)
           (execAll wordPattern lineText)
  with
  | m :: _ =>
      Some (mkRange (mkPosition (line p) (index m))
                    (mkPosition (line p) (endIndex m)))
  | [] => None
  end.

(** [t.split(/\s+/)]: the parts between the runs of white space; a run at
    either end leaves an empty part there. [cur] holds the part being
    read, in reverse. *)
Fixpoint splitWhitespace_aux (t : str) (cur : str) (inSeparator : bool)
  : list str :=
  match t with
  | [] => [reverse cur]
  | c :: t' =>
      if isSpace c then
        if inSeparator then splitWhitespace_aux t' cur true
        else reverse cur :: splitWhitespace_aux t' [] true
      else splitWhitespace_aux t' (c :: cur) false
  end.

Definition splitWhitespace (t : str) : list str :=
  splitWhitespace_aux t [] false.

(** [parts.join(' ')] *)
Fixpoint joinSpace (parts : list str) : str :=
  match parts with
  | [] => []
  | [p] => p
  | p :: ps => p ++ lit " " ++ joinSpace ps
  end.

Definition extractValueFromSetCommand (setCommand : str) : str :=
  let parts := splitWhitespace (JSStr.trim setCommand) in
  if 3 <=? Z.of_nat (length parts) then joinSpace (drop 2 parts) else [].

(** "set\s+${varName}\s+|variable\s+${varName}(?:\s+|$)", flags gm *)
Definition defRegex (varName : str) : regex :=
  Alt (TclDefinitionProvider.setRegex varName)
      (TclDefinitionProvider.variableRegex varName).

Definition findVariableDefinition (document : TextDocument) (varName : str)
  (isGlobal : bool) : option Location :=
  let text : str := document in
  if isGlobal then
    (* Look for global variable definition *)
    match exec (TclDefinitionProvider.globalRegex varName) text 0 with
    | Some m =>
        Some (TclDefinitionProvider.locationOf document (index m)
                (index m + JS.len (matched text m) + 1))
    | None => None
    end
  else
    (* Look for any variable definition *)
    match exec (defRegex varName) text 0 with
    | Some m =>
        Some (TclDefinitionProvider.locationOf document (index m)
                (index m + JS.len (matched text m)))
    | None => None
    end.

(** The text between the braces of the first block of the namespace. *)
Definition getNamespaceText (document : TextDocument) (namespace : str)
  : option str :=
  let text : str := document in
  match exec (TclDefinitionProvider.nsDefRegex namespace) text 0 with
  | Some m =>
      let nsBodyStart := index m + JS.len (matched text m) - 1 in
      match TclDefinitionProvider.truthy (findMatchingBrace text nsBodyStart)
      with
      | Some nsBodyEnd => Some (JS.substring text (nsBodyStart + 1) nsBodyEnd)
      | None => None
      end
  | None => None
  end.

(** "set\s+${varBaseName}\s+([^\n]+)", flag m *)
Definition localSetRegex (varBaseName : str) : regex :=
  word "set" >> Plus ws >> Str varBaseName >> Plus ws >>
  Group 1 (Plus (notChar NL)).

(** "variable\s+${symbol}(?:\s+([^\n]+))?", no flag *)
Definition nsVariableRegex (symbol : str) : regex :=
  word "variable" >> Plus ws >> Str symbol >>
  Opt (Plus ws >> Group 1 (Plus (notChar NL))).

(** "namespace\s+eval\s+${nsName}", no flag *)
Definition nsHoverRegex (nsName : str) : regex :=
  word "namespace" >> Plus ws >> word "eval" >> Plus ws >> Str nsName.

Definition getVariableHover (document : TextDocument) (varName : str)
  (position : Position) : option Hover :=
  let wordRange := getWordRangeAtPosition document position in
  (* Check if it's an array reference *)
  let isArrayRef := JSStr.includes varName (lit "(") in
  let varBaseName :=
    if isArrayRef
    then JS.substring varName 0 (JSStr.indexOfChar "("%char varName)
    else varName in
  (* Handle global variables *)
  let globalHover :=
    if JSStr.startsWith varName (lit "::") then
      let globalName := JS.substring varName 2 (JS.len varName) in
      match findVariableDefinition document globalName true with
      | Some defLocation =>
          let defLine :=
            lineText document (line (start (locRange defLocation))) in
          let value := extractValueFromSetCommand defLine in
          Some (mkHover [lit "**Global Variable**: `" ++ globalName ++ lit "`";
                         lit "**Value**: `" ++ value ++ lit "`"]
                        wordRange)
      | None => None
      end
    else None in
  match globalHover with
  | Some h => Some h
  | None =>
      (* Look in local context *)
      let localHover :=
        match
          TclDefinitionProvider.getContainingProcedureRange document position
        with
        | Some containingProcRange =>
            let procText := getText document containingProcRange in
            match
              exec (TclDefinitionProvider.variableRegex varBaseName)
                   procText 0
            with
            | Some _ =>
                Some (mkHover
                        [lit "**Namespace Variable**: `" ++ varBaseName
                         ++ lit "`";
                         lit "Imported into current procedure scope"]
                        wordRange)
            | None =>
                match exec (localSetRegex varBaseName) procText 0 with
                | Some m =>
                    let value :=
                      JSStr.trim (default [] (group procText m 1)) in
                    Some (mkHover
                            [lit "**Local Variable**: `" ++ varBaseName
                             ++ lit "`";
                             lit "**Value**: `" ++ value ++ lit "`"]
                            wordRange)
                | None => None
                end
            end
        | None => None
        end in
      match localHover with
      | Some h => Some h
      | None =>
          (* Look in global scope as a fallback *)
          match findVariableDefinition document varBaseName false with
          | Some defLocation =>
              let defLine :=
                lineText document (line (start (locRange defLocation))) in
              if JSStr.includes defLine (lit "set ") then
                Some (mkHover
                        [lit "**Variable**: `" ++ varBaseName ++ lit "`";
                         lit "**Value**: `"
                         ++ extractValueFromSetCommand defLine ++ lit "`"]
                        wordRange)
              else if JSStr.includes defLine (lit "variable ") then
                Some (mkHover
                        [lit "**Namespace Variable**: `" ++ varBaseName
                         ++ lit "`"]
                        wordRange)
              else None
          | None => None
          end
      end
  end.

Definition getNamespacedSymbolHover (document : TextDocument)
  (qualifiedName : str) : option Hover :=
  let namespace := TclDefinitionProvider.namespaceOf qualifiedName in
  let symbol := TclDefinitionProvider.symbolOf qualifiedName in
  match getNamespaceText document namespace with
  | Some ((_ :: _) as nsText) =>
      (* Look for procedure *)
      match exec (procHoverRegex symbol) nsText 0 with
      | Some m =>
          let args := JSStr.trim (default [] (group nsText m 1)) in
          let procStart := JSStr.indexOf (lit "proc " ++ symbol) nsText in
          let docComment := extractDocComment nsText procStart in
          Some (mkHover [lit "**Procedure**: `" ++ qualifiedName ++ lit "`";
                         lit "**Arguments**: `" ++ args ++ lit "`";
                         docComment]
                        None)
      | None =>
          (* Look for variable *)
          match exec (nsVariableRegex symbol) nsText 0 with
          | Some m =>
              let value :=
                match group nsText m 1 with
                | Some ((_ :: _) as g) => JSStr.trim g
                | _ => []
                end in
              Some (mkHover
                      [lit "**Namespace Variable**: `" ++ qualifiedName
                       ++ lit "`";
                       match value with
                       | _ :: _ => lit "**Value**: `" ++ value ++ lit "`"
                       | [] => []
                       end]
                      None)
          | None => None
          end
      end
  | _ => None
  end.

Definition getNamespaceHover (document : TextDocument) (nsName : str)
  : option Hover :=
  let text : str := document in
  match exec (nsHoverRegex nsName) text 0 with
  | Some _ => Some (mkHover [lit "**Namespace**: `" ++ nsName ++ lit "`"] None)
  | None => None
  end.

Definition provideHover (document : TextDocument) (position : Position)
  : option Hover :=
  match getWordAtPosition document position with
  | None => None
  | Some word =>
      let lineText := lineText document (line position) in
      if TclDefinitionProvider.isVariableReference lineText
                                                   (character position) then
        getVariableHover document word position
      else if JSStr.includes word (lit "::") then
        getNamespacedSymbolHover document word
      else
        (* Try procedures, then namespaces *)
        match getProcedureHover document word with
        | Some procHover => Some (mkHover procHover None)
        | None => getNamespaceHover document word
        end
  end.

(** *** The words of a line, in words

    The runs of characters other than white space, from left to right. *)
Fixpoint words_aux (t : str) (cur : str) : list str :=
  match t with
  | [] => match cur with [] => [] | _ => [reverse cur] end
  | c :: t' =>
      if isSpace c then
        match cur with
        | [] => words_aux t' []
        | _ => reverse cur :: words_aux t' []
        end
      else words_aux t' (c :: cur)
  end.

Definition words (t : str) : list str := words_aux t [].

(** *** The documentation above a declaration, in words

    The text of a first line and the lines [above], each closed by a line
    feed. *)
Definition linesText (first : str) (above : list str) : str :=
  first ++ [NL] ++ concat ((fun l => l ++ [NL]) <$> above).

(** [docScan ls comments]: the lines [ls] are read from the one nearest to
    the declaration upwards. A line that, trimmed, starts with [#] gives
    what follows the [#], trimmed, and goes in front of [comments]; an
    empty line is passed over; any other line ends the reading. *)
Fixpoint docScan (ls : list str) (comments : list str) : list str :=
  match ls with
  | [] => comments
  | l :: ls' =>
      let line := JSStr.trim l in
      if JSStr.startsWith line (lit "#") then
        docScan ls' (JSStr.trim (JS.substring line 1 (JS.len line))
                     :: comments)
      else if negb (bool_decide (line = [])) then comments
      else docScan ls' comments
  end.

End TclHoverProvider.

(** ** The folding range provider *)

Module TclFoldingRangeProvider.
Import RegExp RegExpNotations vscode.

(** [new vscode.FoldingRange(start, end)] *)
Record FoldingRange : Type := mkFoldingRange { foldStart : Z; foldEnd : Z }.

(** Pattern: /\b(proc|namespace|if|while|for|foreach|switch|catch)\b[^{]*{/g *)
Definition blockRegex : regex :=
  WordB >>
  Group 1 (Alt (word "proc") (Alt (word "namespace") (Alt (word "if")
          (Alt (word "while") (Alt (word "for") (Alt (word "foreach")
          (Alt (word "switch") (word "catch")))))))) >>
  WordB >> Star (notChar LBRACE) >> Lit LBRACE.

(** Pattern: /[\s;][^#\n\r]*{/g *)
Definition spaceOrSemicolon (c : ascii) : bool :=
  isSpace c || Ascii.eqb c ";"%char.

Definition notHashOrLineEnd (c : ascii) : bool :=
  negb (Ascii.eqb c "#"%char || Ascii.eqb c NL || Ascii.eqb c "013"%char).

Definition standaloneBlockRegex : regex :=
  Class spaceOrSemicolon >> Star (Class notHashOrLineEnd) >> Lit LBRACE.

(** What both loops do with the brace they found: the block is a folding
    range when its closing brace is found on a later line. *)
Definition foldBlock (document : TextDocument) (text : str)
  (ranges : list FoldingRange) (openBracePos : Z) : list FoldingRange :=
  match findMatchingBrace text openBracePos with
  | Some closeBracePos =>
      let startLine := line (positionAt document openBracePos) in
      let endLine := line (positionAt document closeBracePos) in
      (* Only add folding range if it spans multiple lines *)
      if startLine <? endLine
      then ranges ++ [mkFoldingRange startLine endLine]
      else ranges
  | None => ranges
  end.

Definition keywordStep (document : TextDocument) (text : str)
  (ranges : list FoldingRange) (m : rmatch) : list FoldingRange :=
  let openBracePos := index m + JS.len (matched text m) - 1 in
  foldBlock document text ranges openBracePos.

Definition standaloneStep (document : TextDocument) (text : str)
  (ranges : list FoldingRange) (m : rmatch) : list FoldingRange :=
  let openBracePos := index m + JS.len (matched text m) - 1 in
  (* Check if this is a comment *)
  let lineStart := JSStr.lastIndexOfCharFrom NL text openBracePos in
  let lineContent := JS.substring text (lineStart + 1) openBracePos in
  if JSStr.startsWith (JSStr.trim lineContent) (lit "#") then ranges
  else foldBlock document text ranges openBracePos.

Definition findBraceBlocks (document : TextDocument) (text : str)
  (ranges : list FoldingRange) : list FoldingRange :=
  let ranges :=
    fold_left (keywordStep document text) (execAll blockRegex text) ranges in
  fold_left (standaloneStep document text)
            (execAll standaloneBlockRegex text) ranges.

Definition provideFoldingRanges (document : TextDocument)
  : list FoldingRange :=
  let text : str := document in
  findBraceBlocks document text [].

End TclFoldingRangeProvider.

(** ** Writing texts: the lines of a file, joined by line feeds *)

Fixpoint unlines (ls : list string) : str :=
  match ls with
  | [] => []
  | [l] => lit l
  | l :: ls' => lit l ++ [vscode.NL] ++ unlines ls'
  end.

Definition doc (ls : list string) : vscode.TextDocument :=
  vscode.mkDocument 0 (unlines ls).

(** * Properties *)

(** ** Strings *)

Lemma len_nonneg (t : str) : 0 <= JS.len t.
Proof. unfold JS.len. lia. Qed.

Lemma charAt_Some_range (t : str) (i : Z) (c : ascii) :
  JS.charAt t i = Some c -> 0 <= i < JS.len t.
Proof.
  unfold JS.charAt, JS.len. destruct (Z.ltb_spec i 0); [discriminate|].
  intros Hl. apply lookup_lt_Some in Hl. lia.
Qed.

Lemma charAt_in_range (t : str) (i : Z) :
  0 <= i < JS.len t -> exists c, JS.charAt t i = Some c.
Proof.
  unfold JS.charAt, JS.len. intros Hi.
  destruct (Z.ltb_spec i 0); [lia|].
  destruct (lookup_lt_is_Some_2 t (Z.to_nat i)) as [c Hc]; [lia|]. eauto.
Qed.

Lemma charAt_None_out (t : str) (i : Z) :
  JS.len t <= i -> JS.charAt t i = None.
Proof.
  unfold JS.charAt, JS.len. intros Hi.
  destruct (Z.ltb_spec i 0); [reflexivity|].
  apply lookup_ge_None. lia.
Qed.

Lemma substring_ordered (t : str) (a b : Z) :
  0 <= a <= b -> b <= JS.len t ->
  JS.substring t a b = take (Z.to_nat (b - a)) (drop (Z.to_nat a) t).
Proof.
  intros Hab Hb. unfold JS.substring, JS.clamp.
  replace (Z.max 0 (Z.min a (JS.len t))) with a by lia.
  replace (Z.max 0 (Z.min b (JS.len t))) with b by lia.
  replace (Z.min a b) with a by lia.
  replace (Z.max a b) with b by lia. reflexivity.
Qed.

Lemma substring_empty (t : str) (a : Z) : JS.substring t a a = [].
Proof.
  unfold JS.substring. rewrite Z.max_id, Z.min_id, Z.sub_diag. reflexivity.
Qed.

Lemma substring_length (t : str) (a b : Z) :
  0 <= a <= b -> b <= JS.len t ->
  JS.len (JS.substring t a b) = b - a.
Proof.
  intros Hab Hb. rewrite substring_ordered by lia.
  unfold JS.len in *. rewrite length_take, length_drop. lia.
Qed.

Lemma substring_cons (t : str) (a b : Z) (c : ascii) :
  JS.charAt t a = Some c -> a < b ->
  JS.substring t a b = c :: JS.substring t (a + 1) b.
Proof.
  intros Hc Hab. pose proof (charAt_Some_range _ _ _ Hc) as Ha.
  unfold JS.charAt in Hc. destruct (Z.ltb_spec a 0); [lia|].
  unfold JS.substring, JS.clamp.
  destruct (Z.le_gt_cases b (JS.len t)) as [Hb|Hb].
  - replace (Z.max 0 (Z.min a (JS.len t))) with a by lia.
    replace (Z.max 0 (Z.min b (JS.len t))) with b by lia.
    replace (Z.max 0 (Z.min (a + 1) (JS.len t))) with (a + 1) by lia.
    replace (Z.min a b) with a by lia. replace (Z.max a b) with b by lia.
    replace (Z.min (a + 1) b) with (a + 1) by lia.
    replace (Z.max (a + 1) b) with b by lia.
    rewrite (drop_S _ _ _ Hc).
    replace (Z.to_nat (b - a)) with (S (Z.to_nat (b - (a + 1)))) by lia.
    replace (Z.to_nat (a + 1)) with (S (Z.to_nat a)) by lia. reflexivity.
  - replace (Z.max 0 (Z.min a (JS.len t))) with a by lia.
    replace (Z.max 0 (Z.min b (JS.len t))) with (JS.len t) by lia.
    replace (Z.max 0 (Z.min (a + 1) (JS.len t))) with (a + 1) by lia.
    replace (Z.min a (JS.len t)) with a by lia.
    replace (Z.max a (JS.len t)) with (JS.len t) by lia.
    replace (Z.min (a + 1) (JS.len t)) with (a + 1) by lia.
    replace (Z.max (a + 1) (JS.len t)) with (JS.len t) by lia.
    rewrite (drop_S _ _ _ Hc).
    replace (Z.to_nat (JS.len t - a))
      with (S (Z.to_nat (JS.len t - (a + 1)))) by lia.
    replace (Z.to_nat (a + 1)) with (S (Z.to_nat a)) by lia. reflexivity.
Qed.

Lemma substring_split (t : str) (a b c : Z) :
  0 <= a <= b -> b <= c -> c <= JS.len t ->
  JS.substring t a c = JS.substring t a b ++ JS.substring t b c.
Proof.
  intros Hab Hbc Hc. rewrite !substring_ordered by lia.
  replace (Z.to_nat (c - a)) with (Z.to_nat (b - a) + Z.to_nat (c - b))%nat
    by lia.
  rewrite <- take_take_drop, drop_drop. do 3 f_equal. lia.
Qed.

Lemma substring_snoc (t : str) (a q : Z) (c : ascii) :
  0 <= a <= q -> JS.charAt t q = Some c ->
  JS.substring t a (q + 1) = JS.substring t a q ++ [c].
Proof.
  intros Haq Hc. pose proof (charAt_Some_range _ _ _ Hc) as Hq.
  rewrite (substring_split t a q (q + 1)) by lia. f_equal.
  rewrite (substring_cons t q (q + 1) c Hc) by lia.
  rewrite substring_empty. reflexivity.
Qed.

(** ** Depth counting *)

Lemma braceDelta_app (a b : str) :
  braceDelta (a ++ b) = braceDelta a + braceDelta b.
Proof. induction a as [|c a IH]; simpl; lia. Qed.

Lemma braceStep_bound (c : ascii) : -1 <= braceStep c <= 1.
Proof.
  unfold braceStep. destruct (Ascii.eqb c LBRACE), (Ascii.eqb c RBRACE); lia.
Qed.

Lemma braceStep_close (c : ascii) : braceStep c = -1 <-> c = RBRACE.
Proof.
  unfold braceStep. destruct (Ascii.eqb_spec c LBRACE) as [->|H1].
  - split; [lia|discriminate].
  - destruct (Ascii.eqb_spec c RBRACE); split; intros; try lia; congruence.
Qed.

Lemma braceStep_open (c : ascii) : braceStep c = 1 <-> c = LBRACE.
Proof.
  unfold braceStep. destruct (Ascii.eqb_spec c LBRACE) as [->|H1].
  - split; reflexivity.
  - destruct (Ascii.eqb_spec c RBRACE); split; intros; try lia; congruence.
Qed.

(** One turn of the loop adds [braceStep] of the character read. *)
Lemma loop_count_step (text : str) (pos bc : Z) (c : ascii) :
  JS.charAt text pos = Some c ->
  (if JS.is_char LBRACE (JS.charAt text pos) then bc + 1
   else if JS.is_char RBRACE (JS.charAt text pos) then bc - 1
   else bc) = bc + braceStep c.
Proof.
  intros ->. unfold JS.is_char, braceStep.
  rewrite (Ascii.eqb_sym LBRACE c), (Ascii.eqb_sym RBRACE c).
  destruct (Ascii.eqb c LBRACE), (Ascii.eqb c RBRACE); lia.
Qed.

Lemma loop_done (fuel : nat) (text : str) (pos : Z) :
  findMatchingBrace_loop fuel text 0 pos = (0, pos).
Proof.
  destruct fuel; simpl; [reflexivity|].
  rewrite andb_false_r. reflexivity.
Qed.

(** What the loop computes from any state: either it stops one past the
    first character that brings the counter to zero, or the counter stays
    positive to the end of the text. *)
Lemma loop_spec (text : str) :
  forall (fuel : nat) (bc pos : Z),
    0 <= pos -> 0 < bc -> JS.len text - pos <= Z.of_nat fuel ->
    let '(bc', pos') := findMatchingBrace_loop fuel text bc pos in
    (bc' = 0 /\ pos < pos' <= JS.len text /\
     JS.charAt text (pos' - 1) = Some RBRACE /\
     bc + braceDelta (JS.substring text pos pos') = 0 /\
     forall q, pos <= q < pos' - 1 ->
               0 < bc + braceDelta (JS.substring text pos (q + 1)))
    \/
    (0 < bc' /\
     forall q, pos <= q < JS.len text ->
               0 < bc + braceDelta (JS.substring text pos (q + 1))).
Proof.
  induction fuel as [|fuel IH]; intros bc pos Hpos Hbc Hfuel.
  - simpl. right. split; [assumption|]. intros q Hq. lia.
  - simpl. destruct (Z.ltb_spec pos (JS.len text)) as [Hlt|Hge].
    2:{ simpl. right. split; [assumption|]. intros q Hq. lia. }
    destruct (Z.ltb_spec 0 bc) as [_|?]; [|lia]. simpl.
    destruct (charAt_in_range text pos) as [c Hc]; [lia|].
    rewrite (loop_count_step text pos bc c Hc).
    pose proof (braceStep_bound c) as Hb.
    destruct (Z.eq_dec (bc + braceStep c) 0) as [Hz|Hnz].
    + rewrite Hz, loop_done. left.
      assert (braceStep c = -1) as Hm1 by lia.
      apply braceStep_close in Hm1. subst c.
      replace (pos + 1 - 1) with pos by lia.
      rewrite (substring_cons text pos (pos + 1) _ Hc) by lia.
      rewrite substring_empty. simpl.
      repeat split; try lia; try assumption.
    + specialize (IH (bc + braceStep c) (pos + 1)).
      destruct (findMatchingBrace_loop fuel text (bc + braceStep c) (pos + 1))
        as [bc' pos'].
      destruct IH as [(H0 & Hr & Hch & Hsum & Hbefore)|(Hp & Hall)]; try lia.
      * left. repeat split; try lia; try assumption.
        -- rewrite (substring_cons text pos pos' c Hc) by lia. simpl. lia.
        -- intros q Hq.
           rewrite (substring_cons text pos (q + 1) c Hc) by lia. simpl.
           destruct (Z.eq_dec q pos) as [->|Hne].
           ++ rewrite substring_empty. simpl. lia.
           ++ specialize (Hbefore q). lia.
      * right. split; [assumption|]. intros q Hq.
        rewrite (substring_cons text pos (q + 1) c Hc) by lia. simpl.
        destruct (Z.eq_dec q pos) as [->|Hne].
        -- rewrite substring_empty. simpl. lia.
        -- specialize (Hall q). lia.
Qed.

(** The matcher, from any offset that is not before the text: the form the
    other proofs use. *)
Lemma findMatchingBrace_spec (text : str) (open : Z) :
  -1 <= open ->
  match findMatchingBrace text open with
  | Some p =>
      open < p < JS.len text /\
      JS.charAt text p = Some RBRACE /\
      depthAt text open p = 0 /\
      forall q, open < q < p -> 0 < depthAt text open q
  | None => forall q, open < q < JS.len text -> 0 < depthAt text open q
  end.
Proof.
  intros Hopen. unfold findMatchingBrace, depthAt.
  pose proof (loop_spec text (Z.to_nat (JS.len text - (open + 1))) 1
                (open + 1)) as H.
  destruct (findMatchingBrace_loop _ text 1 (open + 1)) as [bc' pos'].
  destruct H as [(H0 & Hr & Hch & Hsum & Hbefore)|(Hp & Hall)]; try lia.
  - subst bc'. simpl. replace (pos' - 1 + 1) with pos' by lia.
    repeat split; try lia; try assumption.
    intros q Hq. apply Hbefore. lia.
  - destruct (Z.eqb_spec bc' 0); [lia|]. intros q Hq. apply Hall. lia.
Qed.

(** The text strictly between a brace and its match is balanced. *)
Lemma matched_body_balanced (text : str) (open p : Z) :
  -1 <= open -> open < p < JS.len text ->
  JS.charAt text p = Some RBRACE ->
  depthAt text open p = 0 ->
  (forall q, open < q < p -> 0 < depthAt text open q) ->
  balanced (JS.substring text (open + 1) p).
Proof.
  intros Hopen Hp Hch Hd Hbefore. unfold depthAt in *. split.
  - rewrite (substring_snoc text (open + 1) p RBRACE) in Hd by (auto; lia).
    rewrite braceDelta_app in Hd. simpl in Hd.
    change (braceStep RBRACE) with (-1) in Hd. lia.
  - intros n. rewrite substring_ordered by lia.
    destruct (Nat.le_gt_cases n 0) as [Hn|Hn].
    { replace n with 0%nat by lia. rewrite take_0. simpl. lia. }
    destruct (Z.le_gt_cases (p - (open + 1)) (Z.of_nat n)) as [Hbig|Hsmall].
    + rewrite take_take. replace (n `min` Z.to_nat (p - (open + 1)))%nat
        with (Z.to_nat (p - (open + 1))) by lia.
      rewrite <- substring_ordered by lia.
      rewrite (substring_snoc text (open + 1) p RBRACE) in Hd by (auto; lia).
      rewrite braceDelta_app in Hd. simpl in Hd.
      change (braceStep RBRACE) with (-1) in Hd. lia.
    + rewrite take_take. replace (n `min` Z.to_nat (p - (open + 1)))%nat
        with n by lia.
      specialize (Hbefore (open + Z.of_nat n)).
      rewrite substring_ordered in Hbefore by lia.
      replace (Z.to_nat (open + Z.of_nat n + 1 - (open + 1))) with n
        in Hbefore by lia.
      lia.
Qed.

(** C1. For every text and every offset [open] of an opening brace,
    [findMatchingBrace] counts depth from 1 over the characters after
    [open]: it returns the offset [p] of the first character at which the
    depth reaches 0; that character is a closing brace and the text between
    the two braces is balanced. It returns no offset exactly when the depth
    stays positive to the end of the text. *)
Theorem findMatchingBrace_correct (text : str) (open : Z) :
  JS.charAt text open = Some LBRACE ->
  match findMatchingBrace text open with
  | Some p =>
      open < p < JS.len text /\
      JS.charAt text p = Some RBRACE /\
      depthAt text open p = 0 /\
      (forall q, open < q < p -> 0 < depthAt text open q) /\
      balanced (JS.substring text (open + 1) p)
  | None => forall q, open < q < JS.len text -> 0 < depthAt text open q
  end.
Proof.
  intros Hopen. apply charAt_Some_range in Hopen.
  pose proof (findMatchingBrace_spec text open) as H.
  destruct (findMatchingBrace text open) as [p|]; [|apply H; lia].
  destruct H as (Hp & Hch & Hd & Hbefore); [lia|].
  repeat split; try lia; try assumption.
  - apply matched_body_balanced; auto; lia.
  - apply matched_body_balanced; auto; lia.
Qed.

Lemma findMatchingBrace_correct_witness :
  JS.charAt (lit "a{b{c}d}e{") 1 = Some LBRACE /\
  match findMatchingBrace (lit "a{b{c}d}e{") 1 with
  | Some p =>
      1 < p < JS.len (lit "a{b{c}d}e{") /\
      JS.charAt (lit "a{b{c}d}e{") p = Some RBRACE /\
      depthAt (lit "a{b{c}d}e{") 1 p = 0 /\
      (forall q, 1 < q < p -> 0 < depthAt (lit "a{b{c}d}e{") 1 q) /\
      balanced (JS.substring (lit "a{b{c}d}e{") (1 + 1) p)
  | None =>
      forall q, 1 < q < JS.len (lit "a{b{c}d}e{") ->
                0 < depthAt (lit "a{b{c}d}e{") 1 q
  end.
Proof.
  split; [reflexivity|].
  apply (findMatchingBrace_correct (lit "a{b{c}d}e{") 1). reflexivity.
Defined.

(** ** The matcher against the language of a pattern *)

Section MatcherSound.
Import RegExp.
Variable text : str.

Lemma repeatMatcher_sound (r : regex) (g : bool) body :
  sound_for text r body ->
  forall n, sound_for text (Repeat g r) (fun s k => repeatMatcher body g n s k).
Proof.
  intros Hbody n. induction n as [|n IH]; intros s k res Hres.
  - simpl in Hres. exists s. split; [constructor|assumption].
  - simpl in Hres.
    assert (Hiter :
      body s (fun s' => if pos s <? pos s' then repeatMatcher body g n s' k
                        else None) = Some res ->
      exists s', Matches text (Repeat g r) (pos s) (pos s') /\
                 k s' = Some res).
    { intros Hb. apply Hbody in Hb. destruct Hb as (s1 & Hm1 & Hk1).
      destruct (Z.ltb_spec (pos s) (pos s1)) as [Hlt|]; [|discriminate].
      apply IH in Hk1. destruct Hk1 as (s2 & Hm2 & Hk2).
      exists s2. split; [|assumption].
      eapply M_RepeatCons; eassumption. }
    assert (Hstop : k s = Some res ->
      exists s', Matches text (Repeat g r) (pos s) (pos s') /\
                 k s' = Some res).
    { intros Hk. exists s. split; [constructor|assumption]. }
    destruct g; unfold orElse in Hres.
    + destruct (body s _) as [x|] eqn:Hb.
      * injection Hres as ->. apply Hiter. reflexivity.
      * apply Hstop. assumption.
    + destruct (k s) as [x|] eqn:Hk.
      * injection Hres as ->. apply Hstop. reflexivity.
      * apply Hiter. assumption.
Qed.

Lemma matcher_sound (r : regex) : sound_for text r (matcher text r).
Proof.
  induction r as [|c|p|r1 IH1 r2 IH2|r1 IH1 r2 IH2|g r IH|n r IH| | |];
    intros s k res Hres; simpl in Hres.
  - exists s. split; [constructor|assumption].
  - unfold JS.is_char in Hres.
    destruct (JS.charAt text (pos s)) as [c'|] eqn:Hc; [|discriminate].
    destruct (Ascii.eqb_spec c c') as [->|]; [|discriminate].
    eexists. split; [|eassumption]. simpl. constructor. assumption.
  - destruct (JS.charAt text (pos s)) as [c'|] eqn:Hc; [|discriminate].
    destruct (p c') eqn:Hp; [|discriminate].
    eexists. split; [|eassumption]. simpl. econstructor; eassumption.
  - apply IH1 in Hres. destruct Hres as (s1 & Hm1 & Hk1).
    apply IH2 in Hk1. destruct Hk1 as (s2 & Hm2 & Hk2).
    exists s2. split; [|assumption]. econstructor; eassumption.
  - unfold orElse in Hres.
    destruct (matcher text r1 s k) as [x|] eqn:H1.
    + injection Hres as ->. apply IH1 in H1. destruct H1 as (s1 & Hm & Hk).
      exists s1. split; [|assumption]. apply M_AltL. assumption.
    + apply IH2 in Hres. destruct Hres as (s1 & Hm & Hk).
      exists s1. split; [|assumption]. apply M_AltR. assumption.
  - apply (repeatMatcher_sound r g _ IH) in Hres. assumption.
  - apply IH in Hres. destruct Hres as (s1 & Hm & Hk).
    eexists. split; [|eassumption]. simpl. constructor. assumption.
  - destruct (atLineStart text (pos s)) eqn:Ha; [|discriminate].
    exists s. split; [constructor|]; assumption.
  - destruct (atLineEnd text (pos s)) eqn:Ha; [|discriminate].
    exists s. split; [constructor|]; assumption.
  - destruct (atWordBoundary text (pos s)) eqn:Ha; [|discriminate].
    exists s. split; [constructor|]; assumption.
Qed.

(** The matcher against the captures of a pattern. *)
Lemma repeatMatcher_captures (r : regex) (g : bool) body :
  (forall s k res,
     body s k = Some res ->
     exists s', Captures text r s s' /\ k s' = Some res) ->
  forall n s k res,
    repeatMatcher body g n s k = Some res ->
    exists s', Captures text (Repeat g r) s s' /\ k s' = Some res.
Proof.
  intros Hbody n. induction n as [|n IH]; intros s k res Hres.
  - simpl in Hres. exists s. split; [constructor|assumption].
  - simpl in Hres.
    assert (Hiter :
      body s (fun s' => if pos s <? pos s' then repeatMatcher body g n s' k
                        else None) = Some res ->
      exists s', Captures text (Repeat g r) s s' /\ k s' = Some res).
    { intros Hb. apply Hbody in Hb. destruct Hb as (s1 & Hm1 & Hk1).
      destruct (Z.ltb_spec (pos s) (pos s1)) as [Hlt|]; [|discriminate].
      apply IH in Hk1. destruct Hk1 as (s2 & Hm2 & Hk2).
      exists s2. split; [|assumption].
      eapply C_RepeatCons; eassumption. }
    assert (Hstop : k s = Some res ->
      exists s', Captures text (Repeat g r) s s' /\ k s' = Some res).
    { intros Hk. exists s. split; [constructor|assumption]. }
    destruct g; unfold orElse in Hres.
    + destruct (body s _) as [x|] eqn:Hb.
      * injection Hres as ->. apply Hiter. reflexivity.
      * apply Hstop. assumption.
    + destruct (k s) as [x|] eqn:Hk.
      * injection Hres as ->. apply Hstop. reflexivity.
      * apply Hiter. assumption.
Qed.

Lemma matcher_captures (r : regex) :
  forall s k res,
    matcher text r s k = Some res ->
    exists s', Captures text r s s' /\ k s' = Some res.
Proof.
  induction r as [|c|p|r1 IH1 r2 IH2|r1 IH1 r2 IH2|g r IH|n r IH| | |];
    intros s k res Hres; simpl in Hres.
  - exists s. split; [constructor|assumption].
  - unfold JS.is_char in Hres.
    destruct (JS.charAt text (pos s)) as [c'|] eqn:Hc; [|discriminate].
    destruct (Ascii.eqb_spec c c') as [->|]; [|discriminate].
    eexists. split; [|eassumption]. constructor. assumption.
  - destruct (JS.charAt text (pos s)) as [c'|] eqn:Hc; [|discriminate].
    destruct (p c') eqn:Hp; [|discriminate].
    eexists. split; [|eassumption]. econstructor; eassumption.
  - apply IH1 in Hres. destruct Hres as (s1 & Hm1 & Hk1).
    apply IH2 in Hk1. destruct Hk1 as (s2 & Hm2 & Hk2).
    exists s2. split; [|assumption]. econstructor; eassumption.
  - unfold orElse in Hres.
    destruct (matcher text r1 s k) as [x|] eqn:H1.
    + injection Hres as ->. apply IH1 in H1. destruct H1 as (s1 & Hm & Hk).
      exists s1. split; [|assumption]. apply C_AltL. assumption.
    + apply IH2 in Hres. destruct Hres as (s1 & Hm & Hk).
      exists s1. split; [|assumption]. apply C_AltR. assumption.
  - apply (repeatMatcher_captures r g _ IH) in Hres. assumption.
  - apply IH in Hres. destruct Hres as (s1 & Hm & Hk).
    eexists. split; [|eassumption]. constructor. assumption.
  - destruct (atLineStart text (pos s)) eqn:Ha; [|discriminate].
    exists s. split; [constructor|]; assumption.
  - destruct (atLineEnd text (pos s)) eqn:Ha; [|discriminate].
    exists s. split; [constructor|]; assumption.
  - destruct (atWordBoundary text (pos s)) eqn:Ha; [|discriminate].
    exists s. split; [constructor|]; assumption.
Qed.

(** The captures of a match are a match. *)
Lemma Captures_Matches (r : regex) (s s' : mstate) :
  Captures text r s s' -> Matches text r (pos s) (pos s').
Proof.
  induction 1; simpl; try (econstructor; eassumption).
Qed.

(** A pattern leaves the groups it does not have as they were. *)
Lemma Captures_frame (n : nat) (r : regex) (s s' : mstate) :
  Captures text r s s' -> records n r = false -> caps s' !! n = caps s !! n.
Proof.
  induction 1 as [s|c s Hc|p c s Hc Hp|r1 r2 s s1 s2 _ IH1 _ IH2
                 |r1 r2 s s' _ IH|r1 r2 s s' _ IH|g r s
                 |g r s s1 s2 _ IH1 Hlt _ IH2|m r s s' _ IH|s|s|s];
    simpl; intros Hrec; try reflexivity.
  - apply orb_false_iff in Hrec. destruct Hrec.
    rewrite IH2, IH1 by assumption. reflexivity.
  - apply orb_false_iff in Hrec. destruct Hrec. auto.
  - apply orb_false_iff in Hrec. destruct Hrec. auto.
  - rewrite IH2, IH1 by assumption. reflexivity.
  - apply orb_false_iff in Hrec. destruct Hrec as [Hne Hrec].
    apply Nat.eqb_neq in Hne. rewrite lookup_insert_ne by congruence. auto.
Qed.

(** What a group recorded is the stretch its pattern matched. *)
Lemma Captures_group (n : nat) (r : regex) (s s' : mstate) :
  Captures text (Group n r) s s' ->
  exists j, caps s' !! n = Some (pos s, j) /\ Matches text r (pos s) j.
Proof.
  inversion 1 as [| | | | | | | |? ? ? s1 Hc| | |]; subst.
  exists (pos s1). simpl. rewrite lookup_insert_eq.
  split; [reflexivity|]. apply Captures_Matches. assumption.
Qed.

Lemma Captures_Seq_inv (r1 r2 : regex) (s s2 : mstate) :
  Captures text (Seq r1 r2) s s2 ->
  exists s1, Captures text r1 s s1 /\ Captures text r2 s1 s2.
Proof. inversion 1; subst. eauto. Qed.

(** A match lies inside the text and runs forward. *)
Lemma Matches_bounds (r : regex) (i j : Z) :
  Matches text r i j -> i <= j /\ (i < j -> 0 <= i /\ j <= JS.len text).
Proof.
  induction 1 as [i|c i Hc|p c i Hc Hp|r1 r2 i j k _ IH1 _ IH2
                 |r1 r2 i j _ IH|r1 r2 i j _ IH|g r i
                 |g r i j k _ IH1 Hlt _ IH2|n r i j _ IH|i|i|i];
    try (apply charAt_Some_range in Hc); lia.
Qed.

Lemma minLen_nonneg (r : regex) : 0 <= minLen r.
Proof. induction r; simpl; lia. Qed.

Lemma Matches_minLen (r : regex) (i j : Z) :
  Matches text r i j -> i + minLen r <= j.
Proof.
  induction 1 as [i|c i Hc|p c i Hc Hp|r1 r2 i j k _ IH1 _ IH2
                 |r1 r2 i j _ IH|r1 r2 i j _ IH|g r i
                 |g r i j k _ IH1 Hlt _ IH2|n r i j _ IH|i|i|i];
    simpl in *; lia.
Qed.

Lemma minLen_Str (s : str) : minLen (Str s) = JS.len s.
Proof.
  induction s as [|c s IH]; simpl; [reflexivity|].
  rewrite IH. unfold JS.len. simpl. lia.
Qed.

Lemma matchAt_Matches (r : regex) (i : Z) (m : rmatch) :
  matchAt r text i = Some m ->
  index m = i /\ Matches text r i (endIndex m).
Proof.
  unfold matchAt. intros H.
  destruct (matcher text r (mkState i ∅) Some) as [s|] eqn:Hm; [|discriminate].
  injection H as <-. apply matcher_sound in Hm.
  destruct Hm as (s' & Hm' & Hk). injection Hk as ->.
  split; [reflexivity|assumption].
Qed.

Lemma execFrom_Matches (r : regex) :
  forall (fuel : nat) (i : Z) (m : rmatch),
    execFrom fuel r text i = Some m ->
    i <= index m <= i + Z.of_nat fuel /\
    Matches text r (index m) (endIndex m).
Proof.
  induction fuel as [|fuel IH]; intros i m H; simpl in H.
  - destruct (matchAt r text i) as [m'|] eqn:Hm; [|discriminate].
    injection H as ->. apply matchAt_Matches in Hm.
    destruct Hm as [Hi Hm]. rewrite Hi. split; [lia|assumption].
  - destruct (matchAt r text i) as [m'|] eqn:Hm.
    + injection H as ->. apply matchAt_Matches in Hm.
      destruct Hm as [Hi Hm]. rewrite Hi. split; [lia|assumption].
    + apply IH in H. destruct H as [Hi Hm']. split; [lia|assumption].
Qed.

Lemma matchAt_Captures (r : regex) (i : Z) (m : rmatch) :
  matchAt r text i = Some m ->
  Captures text r (mkState (index m) ∅) (mkState (endIndex m) (groups m)).
Proof.
  unfold matchAt. intros H.
  destruct (matcher text r (mkState i ∅) Some) as [s|] eqn:Hm; [|discriminate].
  injection H as <-. apply matcher_captures in Hm.
  destruct Hm as (s' & Hm' & Hk). injection Hk as ->. simpl.
  destruct s. exact Hm'.
Qed.

Lemma execFrom_Captures (r : regex) :
  forall (fuel : nat) (i : Z) (m : rmatch),
    execFrom fuel r text i = Some m ->
    Captures text r (mkState (index m) ∅) (mkState (endIndex m) (groups m)).
Proof.
  induction fuel as [|fuel IH]; intros i m H; simpl in H.
  - destruct (matchAt r text i) as [m'|] eqn:Hm; [|discriminate].
    injection H as ->. eapply matchAt_Captures. eassumption.
  - destruct (matchAt r text i) as [m'|] eqn:Hm.
    + injection H as ->. eapply matchAt_Captures. eassumption.
    + eapply IH. eassumption.
Qed.

(** [exec] answers with a match of the pattern, at or after [lastIndex]
    and inside the text. *)
Lemma exec_Matches (r : regex) (lastIndex : Z) (m : rmatch) :
  0 <= lastIndex ->
  exec r text lastIndex = Some m ->
  lastIndex <= index m /\ index m <= endIndex m /\
  endIndex m <= JS.len text /\
  Matches text r (index m) (endIndex m).
Proof.
  intros Hli. unfold exec.
  destruct (Z.ltb_spec (JS.len text) lastIndex) as [?|Hge]; [discriminate|].
  intros H. apply execFrom_Matches in H. destruct H as [Hi Hm].
  pose proof (Matches_bounds _ _ _ Hm) as [Hle Hin].
  repeat split; try lia; try assumption.
Qed.

(** The length of [m[0]] *)
Lemma matched_length (m : rmatch) :
  0 <= index m -> index m <= endIndex m -> endIndex m <= JS.len text ->
  JS.len (matched text m) = endIndex m - index m.
Proof. intros. unfold matched. apply substring_length; lia. Qed.

(** The matches of a loop come in order, one after the end of the other. *)
Lemma execLoop_chained (r : regex) :
  forall (fuel : nat) (lastIndex : Z),
    0 <= lastIndex -> chained text lastIndex (execLoop fuel r text lastIndex).
Proof.
  induction fuel as [|fuel IH]; intros li Hli; simpl; [constructor|].
  destruct (exec r text li) as [m|] eqn:He; [|constructor].
  apply exec_Matches in He; [|assumption].
  destruct He as (H1 & H2 & H3 & _).
  constructor; try assumption. apply IH. lia.
Qed.

Lemma execLoop_Matches (r : regex) :
  forall (fuel : nat) (lastIndex : Z) (m : rmatch),
    0 <= lastIndex ->
    In m (execLoop fuel r text lastIndex) ->
    lastIndex <= index m /\ index m <= endIndex m /\
    endIndex m <= JS.len text /\ Matches text r (index m) (endIndex m).
Proof.
  induction fuel as [|fuel IH]; intros li m Hli Hin; simpl in Hin;
    [contradiction|].
  destruct (exec r text li) as [m0|] eqn:He; [|contradiction].
  apply exec_Matches in He; [|assumption].
  destruct He as (H1 & H2 & H3 & H4).
  destruct Hin as [<-|Hin].
  - repeat split; assumption.
  - apply IH in Hin; [|lia]. destruct Hin as (H5 & H6 & H7 & H8).
    repeat split; try assumption; lia.
Qed.

Lemma execAll_Matches (r : regex) (m : rmatch) :
  In m (execAll r text) ->
  0 <= index m /\ index m <= endIndex m /\ endIndex m <= JS.len text /\
  Matches text r (index m) (endIndex m).
Proof. unfold execAll. apply execLoop_Matches. lia. Qed.

Lemma execLoop_Captures (r : regex) :
  forall (fuel : nat) (lastIndex : Z) (m : rmatch),
    In m (execLoop fuel r text lastIndex) ->
    Captures text r (mkState (index m) ∅) (mkState (endIndex m) (groups m)).
Proof.
  induction fuel as [|fuel IH]; intros li m Hin; simpl in Hin;
    [contradiction|].
  destruct (exec r text li) as [m0|] eqn:He; [|contradiction].
  destruct Hin as [<-|Hin]; [|eapply IH; eassumption].
  unfold exec in He. destruct (JS.len text <? li); [discriminate|].
  eapply execFrom_Captures. eassumption.
Qed.

Lemma execAll_Captures (r : regex) (m : rmatch) :
  In m (execAll r text) ->
  Captures text r (mkState (index m) ∅) (mkState (endIndex m) (groups m)).
Proof. apply execLoop_Captures. Qed.

Lemma execAll_chained (r : regex) : chained text 0 (execAll r text).
Proof. unfold execAll. apply execLoop_chained. lia. Qed.

(** The loop of [execAll] has turns to spare: a pattern that reads at
    least one character moves [lastIndex] forward at every match, so more
    turns find nothing more. *)
Lemma execLoop_enough_fuel (r : regex) :
  1 <= minLen r ->
  forall (fuel : nat) (lastIndex : Z) (extra : nat),
    0 <= lastIndex -> JS.len text - lastIndex < Z.of_nat fuel ->
    execLoop (fuel + extra) r text lastIndex = execLoop fuel r text lastIndex.
Proof.
  intros Hmin. induction fuel as [|fuel IH]; intros li extra Hli Hfuel.
  - pose proof (len_nonneg text).
    destruct extra as [|extra]; [reflexivity|]. simpl.
    unfold exec. destruct (Z.ltb_spec (JS.len text) li); [reflexivity|lia].
  - simpl. destruct (exec r text li) as [m|] eqn:He; [|reflexivity].
    apply exec_Matches in He; [|assumption].
    destruct He as (H1 & H2 & H3 & Hm).
    pose proof (Matches_minLen _ _ _ Hm). f_equal. apply IH; lia.
Qed.

Lemma execAll_enough_fuel (r : regex) (extra : nat) :
  1 <= minLen r ->
  execLoop (S (length text) + extra) r text 0 = execAll r text.
Proof.
  intros Hmin. unfold execAll. apply execLoop_enough_fuel; [assumption|lia|].
  unfold JS.len. lia.
Qed.

Lemma chained_weaken (lo lo' : Z) (ms : list rmatch) :
  lo' <= lo -> chained text lo ms -> chained text lo' ms.
Proof.
  intros Hle H. destruct H; constructor; try assumption; lia.
Qed.

Lemma chained_In (lo : Z) (ms : list rmatch) (m : rmatch) :
  chained text lo ms -> In m ms ->
  lo <= index m /\ index m <= endIndex m /\ endIndex m <= JS.len text.
Proof.
  revert lo. induction ms as [|m0 ms IH]; intros lo Hc Hin; [contradiction|].
  inversion Hc; subst. destruct Hin as [<-|Hin]; [lia|].
  specialize (IH _ ltac:(eassumption) Hin). lia.
Qed.

(** In a chain, what comes later in the list starts at or after the end of
    what comes before. *)
Lemma chained_app_order (lo : Z) (ms1 ms2 : list rmatch) (a b : rmatch) :
  chained text lo (ms1 ++ a :: ms2) -> In b ms2 -> endIndex a <= index b.
Proof.
  revert lo. induction ms1 as [|m ms1 IH]; intros lo H Hin; simpl in H.
  - inversion H; subst. eapply chained_In in Hin; [|eassumption]. lia.
  - inversion H; subst. eapply IH; eassumption.
Qed.

End MatcherSound.

(** ** Positions and ranges *)

Section Positions.
Import vscode.

Lemma isBefore_spec (a b : Position) :
  isBefore a b = true <->
  line a < line b \/ (line a = line b /\ character a < character b).
Proof.
  unfold isBefore. rewrite orb_true_iff, andb_true_iff.
  rewrite !Z.ltb_lt, Z.eqb_eq. tauto.
Qed.

Lemma isBefore_false (a b : Position) :
  isBefore a b = false <->
  line b < line a \/ (line a = line b /\ character b <= character a).
Proof.
  destruct (isBefore a b) eqn:H.
  - apply isBefore_spec in H. split; [discriminate|]. lia.
  - split; [|reflexivity]. intros _.
    assert (~ (line a < line b \/
               (line a = line b /\ character a < character b))) as Hn.
    { intros Hs. apply isBefore_spec in Hs. congruence. }
    lia.
Qed.

Lemma position_eq (a b : Position) :
  line a = line b -> character a = character b -> a = b.
Proof. destruct a, b. simpl. intros -> ->. reflexivity. Qed.

Lemma isBefore_irrefl (a : Position) : isBefore a a = false.
Proof. apply isBefore_false. lia. Qed.

Lemma isBefore_antisym (a b : Position) :
  isBefore a b = false -> isBefore b a = false -> a = b.
Proof.
  rewrite !isBefore_false. intros H1 H2. apply position_eq; lia.
Qed.

(** [a <= b <= c] on positions *)
Lemma notBefore_trans (a b c : Position) :
  isBefore b a = false -> isBefore c b = false -> isBefore c a = false.
Proof. rewrite !isBefore_false. lia. Qed.

Lemma isBefore_notBefore_trans (a b c : Position) :
  isBefore a b = true -> isBefore c b = false -> isBefore a c = true.
Proof. rewrite isBefore_false, !isBefore_spec. lia. Qed.

Lemma notBefore_isBefore_trans (a b c : Position) :
  isBefore b a = false -> isBefore b c = true -> isBefore a c = true.
Proof. rewrite isBefore_false, !isBefore_spec. lia. Qed.

Lemma isBefore_asym (a b : Position) :
  isBefore a b = true -> isBefore b a = false.
Proof. rewrite isBefore_false, isBefore_spec. lia. Qed.

Lemma newRange_ordered (a b : Position) :
  isBefore b a = false -> newRange a b = mkRange a b.
Proof. unfold newRange. intros ->. reflexivity. Qed.

Lemma containsPosition_spec (r : Range) (p : Position) :
  containsPosition r p = true <->
  isBefore p (start r) = false /\ isBefore (end_ r) p = false.
Proof.
  unfold containsPosition. rewrite andb_true_iff, !negb_true_iff. tauto.
Qed.

Lemma contains_spec (r o : Range) :
  contains r o = true <->
  (isBefore (start o) (start r) = false /\
   isBefore (end_ r) (start o) = false) /\
  (isBefore (end_ o) (start r) = false /\
   isBefore (end_ r) (end_ o) = false).
Proof.
  unfold contains. rewrite andb_true_iff, !containsPosition_spec. tauto.
Qed.

(** A range given by ordered ends contains another one exactly when its
    ends are outside the ends of the other. *)
Lemma contains_ordered (a b c d : Position) :
  isBefore d c = false ->
  isBefore c a = false -> isBefore b d = false ->
  contains (mkRange a b) (mkRange c d) = true.
Proof.
  intros Hcd Hac Hdb. apply contains_spec. simpl.
  repeat split; try assumption.
  - eapply notBefore_trans; eassumption.
  - eapply notBefore_trans; eassumption.
Qed.

Lemma contains_refl (a b : Position) :
  isBefore b a = false -> contains (mkRange a b) (mkRange a b) = true.
Proof.
  intros H. apply contains_ordered; auto using isBefore_irrefl.
Qed.

(** *** [positionAt] *)

(** Reading on from [(ln, ch)] never goes back. *)
Lemma positionAt_aux_ge (t : str) :
  forall (n : nat) (ln ch : Z),
    isBefore (positionAt_aux t n ln ch) (mkPosition ln ch) = false.
Proof.
  induction t as [|c t IH]; intros n ln ch.
  - destruct n; simpl; apply isBefore_irrefl.
  - destruct n as [|n]; simpl; [apply isBefore_irrefl|].
    destruct (Ascii.eqb c NL).
    + specialize (IH n (ln + 1) 0). rewrite isBefore_false in *. simpl in *.
      lia.
    + specialize (IH n ln (ch + 1)). rewrite isBefore_false in *. simpl in *.
      lia.
Qed.

Lemma positionAt_aux_gt (t : str) :
  forall (n : nat) (ln ch : Z),
    (0 < n <= length t)%nat ->
    isBefore (mkPosition ln ch) (positionAt_aux t n ln ch) = true.
Proof.
  destruct t as [|c t]; intros n ln ch Hn; simpl in Hn; [lia|].
  destruct n as [|n]; [lia|]. simpl.
  destruct (Ascii.eqb c NL).
  - pose proof (positionAt_aux_ge t n (ln + 1) 0) as H.
    rewrite isBefore_false in H. rewrite isBefore_spec. simpl in *. lia.
  - pose proof (positionAt_aux_ge t n ln (ch + 1)) as H.
    rewrite isBefore_false in H. rewrite isBefore_spec. simpl in *. lia.
Qed.

Lemma positionAt_aux_mono (t : str) :
  forall (n1 n2 : nat) (ln ch : Z),
    (n1 <= n2)%nat ->
    isBefore (positionAt_aux t n2 ln ch) (positionAt_aux t n1 ln ch) = false.
Proof.
  induction t as [|c t IH]; intros n1 n2 ln ch Hn.
  - destruct n1, n2; simpl; apply isBefore_irrefl.
  - destruct n1 as [|n1].
    + apply (positionAt_aux_ge (c :: t) n2 ln ch).
    + destruct n2 as [|n2]; [lia|]. simpl.
      destruct (Ascii.eqb c NL); apply IH; lia.
Qed.

Lemma positionAt_aux_strict (t : str) :
  forall (n1 n2 : nat) (ln ch : Z),
    (n1 < n2 <= length t)%nat ->
    isBefore (positionAt_aux t n1 ln ch) (positionAt_aux t n2 ln ch) = true.
Proof.
  induction t as [|c t IH]; intros n1 n2 ln ch Hn; simpl in Hn; [lia|].
  destruct n1 as [|n1].
  - apply (positionAt_aux_gt (c :: t) n2 ln ch). simpl. lia.
  - destruct n2 as [|n2]; [lia|]. simpl.
    destruct (Ascii.eqb c NL); apply IH; lia.
Qed.

(** [positionAt] keeps the order of offsets, *)
Lemma positionAt_mono (t : str) (o1 o2 : Z) :
  o1 <= o2 -> isBefore (positionAt t o2) (positionAt t o1) = false.
Proof. intros H. apply positionAt_aux_mono. lia. Qed.

(** strictly so inside the text. *)
Lemma positionAt_strict (t : str) (o1 o2 : Z) :
  0 <= o1 -> o1 < o2 -> o2 <= JS.len t ->
  isBefore (positionAt t o1) (positionAt t o2) = true.
Proof.
  intros H0 H1 H2. apply positionAt_aux_strict. unfold JS.len in H2. lia.
Qed.

Lemma positionAt_inj_le (t : str) (o1 o2 : Z) :
  0 <= o1 <= JS.len t -> 0 <= o2 <= JS.len t ->
  isBefore (positionAt t o2) (positionAt t o1) = false -> o1 <= o2.
Proof.
  intros H1 H2 Hb. destruct (Z.le_gt_cases o1 o2) as [|Hgt]; [assumption|].
  rewrite (positionAt_strict t o2 o1) in Hb by lia. discriminate.
Qed.

(** A range built from two offsets in order. *)
Lemma newRange_positionAt (t : str) (o1 o2 : Z) :
  o1 <= o2 ->
  newRange (positionAt t o1) (positionAt t o2)
  = mkRange (positionAt t o1) (positionAt t o2).
Proof. intros H. apply newRange_ordered, positionAt_mono. assumption. Qed.

(** Ranges of offsets are nested as their offsets are. *)
Lemma contains_positionAt (t : str) (a b c d : Z) :
  a <= c -> c <= d -> d <= b ->
  contains (newRange (positionAt t a) (positionAt t b))
           (newRange (positionAt t c) (positionAt t d)) = true.
Proof.
  intros Hac Hcd Hdb. rewrite !newRange_positionAt by lia.
  apply contains_ordered; apply positionAt_mono; lia.
Qed.

(** *** Lines *)

Lemma positionAt_aux_shift (t : str) :
  forall (n : nat) (ln ch : Z),
    positionAt_aux t n ln ch
    = let p := positionAt_aux t n 0 0 in
      mkPosition (ln + line p)
                 (if line p =? 0 then ch + character p else character p).
Proof.
  induction t as [|c t IH]; intros n ln ch.
  - destruct n; simpl; f_equal; lia.
  - destruct n as [|n]; simpl; [f_equal; lia|].
    change (0 + 1) with 1.
    destruct (Ascii.eqb c NL).
    + rewrite (IH n (ln + 1) 0), (IH n 1 0). simpl.
      pose proof (positionAt_aux_ge t n 0 0) as Hge.
      rewrite isBefore_false in Hge. simpl in Hge.
      destruct (Z.eqb_spec (line (positionAt_aux t n 0 0)) 0) as [He|Hne];
        destruct (Z.eqb_spec (1 + line (positionAt_aux t n 0 0)) 0);
        try lia; f_equal; lia.
    + rewrite (IH n ln (ch + 1)), (IH n 0 1). simpl.
      destruct (Z.eqb_spec (line (positionAt_aux t n 0 0)) 0) as [He|Hne].
      * rewrite He. simpl. f_equal; lia.
      * destruct (Z.eqb_spec (0 + line (positionAt_aux t n 0 0)) 0);
          [lia|]. f_equal; lia.
Qed.

Lemma splitLines_nonempty (t : str) : splitLines t <> [].
Proof.
  induction t as [|c t IH]; simpl; [discriminate|].
  destruct (Ascii.eqb c NL); [discriminate|].
  destruct (splitLines t); discriminate.
Qed.

Lemma lineOffset_aux_acc (ls : list str) :
  forall (n : nat) (acc : Z),
    lineOffset_aux ls n acc = acc + lineOffset_aux ls n 0.
Proof.
  induction ls as [|l ls IH]; intros n acc.
  - destruct n; simpl; lia.
  - destruct n as [|n]; simpl; [lia|].
    rewrite (IH n (acc + JS.len l + 1)), (IH n (0 + JS.len l + 1)). lia.
Qed.

(** The position of an offset names a line of the document, a column on
    that line, and the offset is the start of the line plus the column. *)
Lemma positionAt_aux_line (t : str) :
  forall (n : nat),
    let p := positionAt_aux t n 0 0 in
    0 <= line p /\ 0 <= character p /\
    exists l, splitLines t !! Z.to_nat (line p) = Some l /\
              character p <= JS.len l /\
              ((n <= length t)%nat ->
               lineOffset_aux (splitLines t) (Z.to_nat (line p)) 0
               + character p = Z.of_nat n).
Proof.
  induction t as [|c t IH]; intros n.
  - destruct n; simpl; (split; [lia|split; [lia|]]); exists [];
      (split; [reflexivity|]); unfold JS.len; simpl; split; lia.
  - destruct n as [|n].
    + simpl. split; [lia|split; [lia|]].
      destruct (Ascii.eqb c NL).
      * exists []. simpl. split; [reflexivity|]. unfold JS.len. simpl. lia.
      * destruct (splitLines t) as [|l0 ls] eqn:Hs;
          [exfalso; eapply splitLines_nonempty; eassumption|].
        exists (c :: l0). simpl. split; [reflexivity|].
        unfold JS.len. simpl. lia.
    + specialize (IH n). cbv zeta in IH.
      destruct IH as (Hl & Hc & l & Hlook & Hlen & Hoff).
      cbv zeta. simpl positionAt_aux. change (0 + 1) with 1.
      destruct (Ascii.eqb c NL) eqn:Hnl.
      * rewrite (positionAt_aux_shift t n 1 0). cbv zeta. simpl line.
        simpl character.
        replace (Z.to_nat (1 + line (positionAt_aux t n 0 0)))
          with (S (Z.to_nat (line (positionAt_aux t n 0 0)))) by lia.
        split; [lia|]. split; [destruct (_ =? _); lia|].
        exists l. simpl. rewrite Hnl. simpl.
        split; [assumption|]. split; [destruct (_ =? _); lia|].
        intros Hn. simpl in Hn. specialize (Hoff ltac:(lia)).
        rewrite lineOffset_aux_acc. change (JS.len []) with 0.
        destruct (_ =? _); lia.
      * rewrite (positionAt_aux_shift t n 0 1). cbv zeta. simpl line.
        simpl character.
        replace (Z.to_nat (0 + line (positionAt_aux t n 0 0)))
          with (Z.to_nat (line (positionAt_aux t n 0 0))) by lia.
        destruct (splitLines t) as [|l0 ls] eqn:Hs;
          [exfalso; eapply splitLines_nonempty; eassumption|].
        simpl splitLines. rewrite Hnl, Hs.
        destruct (Z.eqb_spec (line (positionAt_aux t n 0 0)) 0) as [He|Hne].
        -- rewrite He in *. simpl in Hlook. injection Hlook as ->.
           split; [lia|split; [lia|]].
           exists (c :: l). split; [reflexivity|].
           split; [unfold JS.len in *; simpl length; lia|].
           intros Hn. simpl in Hn. specialize (Hoff ltac:(lia)). simpl in Hoff.
           simpl. lia.
        -- split; [lia|split; [lia|]]. exists l.
           destruct (Z.to_nat (line (positionAt_aux t n 0 0))) as [|k] eqn:Hk;
             [lia|].
           simpl in Hlook. split; [exact Hlook|]. split; [lia|]. intros Hn.
           simpl in Hn. specialize (Hoff ltac:(lia)). simpl in Hoff. simpl.
           rewrite lineOffset_aux_acc.
           rewrite (lineOffset_aux_acc ls k (0 + JS.len l0 + 1)) in Hoff.
           unfold JS.len in *. simpl length. lia.
Qed.

(** The line [positionAt] returns is a line of the document: asking
    [lineAt] for it raises nothing. *)
Lemma positionAt_validLine (t : str) (o : Z) :
  validLine t (line (positionAt t o)).
Proof.
  unfold validLine, lineCount, positionAt.
  destruct (positionAt_aux_line t (Z.to_nat o)) as (Hl & _ & l & Hlook & _).
  apply lookup_lt_Some in Hlook. lia.
Qed.

(** A position is never past the end of its line. *)
Lemma positionAt_le_lineEnd (t : str) (o : Z) :
  isBefore (lineEnd t (line (positionAt t o))) (positionAt t o) = false.
Proof.
  unfold lineEnd, lineText, positionAt.
  destruct (positionAt_aux_line t (Z.to_nat o)) as (Hl & _ & l & Hlook & Hc & _).
  destruct (Z.ltb_spec (line (positionAt_aux t (Z.to_nat o) 0 0)) 0) as [?|_];
    [lia|].
  rewrite Hlook. simpl. apply isBefore_false. simpl. lia.
Qed.

Lemma offsetAt_positionAt (t : str) (o : Z) :
  0 <= o <= JS.len t -> offsetAt t (positionAt t o) = o.
Proof.
  intros Ho. pose proof (positionAt_validLine t o) as Hv.
  unfold validLine in Hv. unfold offsetAt, lineOffset, lineText.
  destruct (Z.leb_spec (lineCount t) (line (positionAt t o))) as [?|_]; [lia|].
  destruct (Z.ltb_spec (line (positionAt t o)) 0) as [?|_]; [lia|].
  unfold positionAt in *.
  destruct (positionAt_aux_line t (Z.to_nat o)) as (Hl & Hc0 & l & Hlook & Hc & Hoff).
  rewrite Hlook. simpl. unfold JS.len in Ho. lia.
Qed.

End Positions.

(** ** Documentation comments of the hover *)

Section DocComments.
Import vscode TclHoverProvider.

Lemma lastIndexOfChar_from_absent (c : ascii) (t : str) :
  forall (i found : Z),
    ~ In c t -> JSStr.lastIndexOfChar_from c t i found = found.
Proof.
  induction t as [|x t IH]; intros i found Hnot; simpl; [reflexivity|].
  destruct (Ascii.eqb_spec x c) as [->|Hne].
  - exfalso. apply Hnot. left. reflexivity.
  - apply IH. intros Hin. apply Hnot. right. assumption.
Qed.

Lemma lastIndexOfChar_from_app (c : ascii) (t1 t2 : str) :
  forall (i found : Z),
    JSStr.lastIndexOfChar_from c (t1 ++ t2) i found
    = JSStr.lastIndexOfChar_from c t2 (i + JS.len t1)
        (JSStr.lastIndexOfChar_from c t1 i found).
Proof.
  induction t1 as [|x t1 IH]; intros i found; simpl.
  - unfold JS.len. simpl. f_equal. lia.
  - rewrite IH. f_equal. unfold JS.len. simpl. lia.
Qed.

(** The first line of a text is never read: whatever it holds, a symbol
    declared on the second line gets no documentation. *)
Lemma extractDocComment_second_line (first rest : str) :
  ~ In NL first ->
  extractDocComment (first ++ [NL] ++ rest) (JS.len first + 1) = [].
Proof.
  intros Hnot. unfold extractDocComment.
  assert (Hstart :
    JSStr.lastIndexOfCharFrom NL (first ++ [NL] ++ rest)
                              (JS.len first + 1 - 1) = JS.len first).
  { unfold JSStr.lastIndexOfCharFrom, JSStr.lastIndexOfChar.
    pose proof (len_nonneg first) as Hl.
    replace (Z.to_nat (Z.max 0 (JS.len first + 1 - 1) + 1))
      with (length (first ++ [NL])) by (rewrite length_app; unfold JS.len in *; simpl; lia).
    rewrite app_assoc, take_app_length, lastIndexOfChar_from_app.
    simpl. lia. }
  rewrite Hstart.
  pose proof (len_nonneg first) as Hl.
  destruct (Z.eqb_spec (JS.len first) (-1)) as [?|_]; [lia|].
  replace (Z.to_nat (JS.len first + 1)) with (S (length first))
    by (unfold JS.len; lia).
  simpl.
  destruct (Z.leb_spec 0 (JS.len first - 1)) as [Hpos|Hneg]; [|reflexivity].
  assert (Hprev :
    JSStr.lastIndexOfCharFrom NL (first ++ NL :: rest) (JS.len first - 1)
    = -1).
  { unfold JSStr.lastIndexOfCharFrom, JSStr.lastIndexOfChar.
    replace (Z.to_nat (Z.max 0 (JS.len first - 1) + 1))
      with (length first) by (unfold JS.len in *; lia).
    rewrite take_app_length.
    apply lastIndexOfChar_from_absent. assumption. }
  rewrite Hprev. reflexivity.
Qed.

(** C9. The documentation of a symbol is the run of comment lines before
    its declaration line. On a file whose first line is the comment and
    whose second line is the declaration the code returns the empty
    string: its loop stops when no line end lies before the line it is
    about to read, so the first line of a text is never collected. *)
Theorem extractDocComment_first_line_lost :
  extractDocComment (unlines ["# doc"; "proc f {} {}"]) 6 = [] /\
  extractDocComment (unlines [""; "# doc"; "proc f {} {}"]) 7 = lit "doc" /\
  getProcedureHover (doc ["# doc"; "proc f {} {}"]) (lit "f")
  = Some [lit "**Procedure**: `f`"; lit "**Arguments**: ``"; []].
Proof. repeat split; reflexivity. Qed.

End DocComments.

(** ** The order of lookups of the definition provider *)

Section DefinitionOrder.
Import vscode Host TclDefinitionProvider.

(** A variable reference never reaches the workspace. *)
Lemma variable_reference_no_host_call
  (document : TextDocument) (position : Position) (w : Workspace) :
  isVariableReference (lineText document (line position))
                      (character position) = true ->
  calls (provideDefinition document position) w = [].
Proof.
  intros Hvar. unfold provideDefinition, calls.
  destruct (getWordAtPosition document position); [|reflexivity].
  rewrite Hvar. reflexivity.
Qed.

(** C7. A reference to a global variable, [$::g], with no [set ::g] in the
    document: the claim sends the lookup on to the search across files.
    The code answers that nothing was found, and asks nothing of the
    workspace, whatever files the workspace holds. *)
Theorem global_variable_never_searched_across_files :
  getWordAtPosition (doc ["puts $::g"]) (mkPosition 0 6) = Some (lit "::g") /\
  isVariableReference (lineText (doc ["puts $::g"]) 0) 6 = true /\
  forall w : Workspace,
    provideDefinition (doc ["puts $::g"]) (mkPosition 0 6) w = ([], None).
Proof.
  split; [reflexivity|]. split; [reflexivity|]. intros w. reflexivity.
Qed.

(** The claim on bare words fails where the word only names a variable:
    the declaration [set counter 0] is there, the lookup of variables
    finds it, and the provider goes to the workspace without looking. *)
Lemma bare_word_variable_not_tried :
  let document := doc ["set counter 0"; "incr counter"] in
  let position := mkPosition 1 6 in
  getWordAtPosition document position = Some (lit "counter") /\
  isVariableReference (lineText document 1) 6 = false /\
  JSStr.includes (lit "counter") (lit "::") = false /\
  findVariableDefinition document (lit "counter") position
  = Some (mkLocation 0 (mkRange (mkPosition 0 0) (mkPosition 0 13))) /\
  specBareWordOrder document position (lit "counter") [document]
  = ([], Some (mkLocation 0 (mkRange (mkPosition 0 0) (mkPosition 0 13)))) /\
  provideDefinition document position [document]
  = ([FindFiles (lit "**/*.tcl"); OpenTextDocument 0], None) /\
  provideDefinition document position [document]
  <> specBareWordOrder document position (lit "counter") [document].
Proof.
  cbv zeta. repeat split; try reflexivity. vm_compute. discriminate.
Qed.

(** C6 (amended). For a bare word (no scope separator, not a variable
    reference) the procedure of that name is looked up first, then the
    namespace of that name; when either is found the workspace is not
    asked; when both fail the search across files is made with the word.
    Variable declarations are not looked up. *)
Theorem bare_word_order
  (document : TextDocument) (position : Position) (word : str)
  (w : Workspace) :
  getWordAtPosition document position = Some word ->
  isVariableReference (lineText document (line position))
                      (character position) = false ->
  JSStr.includes word (lit "::") = false ->
  match findProcedureDefinition document word with
  | Some procLocation =>
      provideDefinition document position w = ([], Some procLocation)
  | None =>
      match findNamespaceDefinition document word with
      | Some nsLocation =>
          provideDefinition document position w = ([], Some nsLocation)
      | None =>
          provideDefinition document position w = searchInWorkspace word w /\
          exists rest,
            calls (provideDefinition document position) w
            = FindFiles (lit "**/*.tcl") :: rest
      end
  end.
Proof.
  intros Hword Hvar Hsep. unfold provideDefinition.
  rewrite Hword, Hvar, Hsep.
  destruct (findProcedureDefinition document word); [reflexivity|].
  destruct (findNamespaceDefinition document word); [reflexivity|].
  split; [reflexivity|].
  unfold calls, searchInWorkspace, bind, findFiles.
  destruct (searchInFiles word w w) as [l r]. simpl. eauto.
Qed.

Lemma bare_word_order_witness :
  let document := doc ["namespace eval counter {"; "}"; "incr counter"] in
  getWordAtPosition document (mkPosition 2 6) = Some (lit "counter") /\
  provideDefinition document (mkPosition 2 6) []
  = ([], Some (mkLocation 0 (mkRange (mkPosition 0 0) (mkPosition 1 1)))).
Proof.
  cbv zeta. split; [reflexivity|].
  exact (bare_word_order
           (doc ["namespace eval counter {"; "}"; "incr counter"])
           (mkPosition 2 6) (lit "counter") [] eq_refl eq_refl eq_refl).
Defined.

End DefinitionOrder.

(** ** Symbol trees *)

Section SymbolTrees.
Import vscode TclDocumentSymbolProvider.

(** Induction over a symbol and, below it, over its children. *)
Lemma DocumentSymbol_tree_ind (P : DocumentSymbol -> Prop) :
  (forall n d k r sr cs, Forall P cs -> P (mkSymbol n d k r sr cs)) ->
  forall s, P s.
Proof.
  intros Hstep. fix IH 1. intros [n d k r sr cs]. apply Hstep.
  induction cs as [|c cs IHcs]; constructor; [apply IH|exact IHcs].
Qed.

Lemma pushChild_children (c s : DocumentSymbol) :
  children (pushChild c s) = children s ++ [c].
Proof. destruct s. reflexivity. Qed.

Lemma pushChild_range (c s : DocumentSymbol) :
  range (pushChild c s) = range s.
Proof. destruct s. reflexivity. Qed.

Lemma setChildren_children (cs : list DocumentSymbol) (s : DocumentSymbol) :
  children (setChildren cs s) = cs.
Proof. destruct s. reflexivity. Qed.

Lemma setChildren_range (cs : list DocumentSymbol) (s : DocumentSymbol) :
  range (setChildren cs s) = range s.
Proof. destruct s. reflexivity. Qed.

(** Changing the symbol a reference names: the reference then names the
    changed symbol. *)
Lemma lookupAt_alterAt (f : DocumentSymbol -> DocumentSymbol) :
  forall (ref : SymbolRef) (symbols : list DocumentSymbol) (p : DocumentSymbol),
    lookupAt ref symbols = Some p ->
    lookupAt ref (alterAt ref f symbols) = Some (f p).
Proof.
  induction ref as [|i ref IH]; intros symbols p Hp; [discriminate|].
  destruct ref as [|j ref].
  - simpl in *. rewrite list_lookup_alter_eq, Hp. reflexivity.
  - change (lookupAt (i :: j :: ref) symbols)
      with (match symbols !! i with
            | Some s => lookupAt (j :: ref) (children s)
            | None => None
            end) in Hp.
    change (alterAt (i :: j :: ref) f symbols)
      with (alter (fun s => setChildren (alterAt (j :: ref) f (children s)) s)
                  i symbols).
    change (lookupAt (i :: j :: ref) ?l)
      with (match l !! i with
            | Some s => lookupAt (j :: ref) (children s)
            | None => None
            end).
    rewrite list_lookup_alter_eq.
    destruct (symbols !! i) as [s|]; [|discriminate]. simpl.
    rewrite setChildren_children. apply IH. assumption.
Qed.

(** *** The search for the enclosing symbol *)

Lemma enclosingChild_children (range : Range) (s : DocumentSymbol) :
  enclosingChild range s = findEnclosingSymbol_from range (children s) 0.
Proof.
  destruct s as [n d k r sr cs]. simpl. generalize 0%nat.
  induction cs as [|c cs IH]; intros i; simpl; [reflexivity|].
  destruct (contains (vscode.range c) range); [reflexivity|]. apply IH.
Qed.

Lemma findEnclosingSymbol_from_None (range : Range) :
  forall (l : list DocumentSymbol) (i : nat),
    findEnclosingSymbol_from range l i = None <->
    Forall (fun s => contains (vscode.range s) range = false) l.
Proof.
  induction l as [|s l IH]; intros i; simpl.
  - split; [constructor|reflexivity].
  - destruct (contains (vscode.range s) range) eqn:Hc.
    + split; [discriminate|]. intros H. inversion H; congruence.
    + rewrite IH. split.
      * intros H. constructor; assumption.
      * intros H. inversion H; assumption.
Qed.

(** A search that succeeds from index [i] found the first containing
    symbol, [k] places on, and the rest of its answer is the search among
    the children of that symbol. *)
Lemma findEnclosingSymbol_from_Some (range : Range) :
  forall (l : list DocumentSymbol) (i : nat) (ref : SymbolRef),
    findEnclosingSymbol_from range l i = Some ref ->
    exists (k : nat) (s : DocumentSymbol),
      firstContaining range l k s /\
      ref = (i + k)%nat :: default [] (enclosingChild range s).
Proof.
  induction l as [|s l IH]; intros i ref H; simpl in H; [discriminate|].
  destruct (contains (vscode.range s) range) eqn:Hc.
  - injection H as <-. exists 0%nat, s. split.
    + split; [reflexivity|]. split; [assumption|]. intros j s' Hj. lia.
    + f_equal. lia.
  - apply IH in H. destruct H as (k & s0 & (Hl & Hc0 & Hfirst) & ->).
    exists (S k), s0. split.
    + split; [exact Hl|]. split; [assumption|].
      intros j s' Hj Hlook. destruct j as [|j].
      * simpl in Hlook. injection Hlook as <-. assumption.
      * simpl in Hlook. eapply Hfirst; [|eassumption]. lia.
    + f_equal. lia.
Qed.

(** The path the search returns goes down through first containing
    symbols to one without a containing child. *)
Lemma findEnclosingSymbol_descent (range : Range) :
  forall (symbols : list DocumentSymbol) (ref : SymbolRef),
    findEnclosingSymbol range symbols = Some ref ->
    exists parent, descent range symbols ref parent.
Proof.
  assert (Hsym : forall s (ref : SymbolRef),
             enclosingChild range s = Some ref ->
             exists parent, descent range (children s) ref parent).
  { induction s as [n d k r sr cs IHcs] using DocumentSymbol_tree_ind.
    intros ref Href. rewrite enclosingChild_children in Href. simpl in *.
    apply findEnclosingSymbol_from_Some in Href.
    destruct Href as (i & c & Hfirst & ->). simpl.
    pose proof Hfirst as (Hlook & _ & _).
    rewrite Forall_forall in IHcs.
    specialize (IHcs c (list_elem_of_lookup_2 _ _ _ Hlook)).
    destruct (enclosingChild range c) as [ref'|] eqn:Hc; simpl.
    - destruct (IHcs ref' eq_refl) as (parent & Hd).
      exists parent. eapply descent_down; eassumption.
    - exists c. apply descent_here; [assumption|].
      rewrite enclosingChild_children in Hc.
      apply findEnclosingSymbol_from_None in Hc. assumption. }
  intros symbols ref Href. unfold findEnclosingSymbol in Href.
  apply findEnclosingSymbol_from_Some in Href.
  destruct Href as (i & c & Hfirst & ->). simpl.
  destruct (enclosingChild range c) as [ref'|] eqn:Hc; simpl.
  - destruct (Hsym c ref' Hc) as (parent & Hd).
    exists parent. eapply descent_down; eassumption.
  - exists c. apply descent_here; [assumption|].
    rewrite enclosingChild_children in Hc.
    apply findEnclosingSymbol_from_None in Hc. assumption.
Qed.

Lemma descent_lookupAt (range : Range) (symbols : list DocumentSymbol)
  (ref : SymbolRef) (parent : DocumentSymbol) :
  descent range symbols ref parent ->
  lookupAt ref symbols = Some parent /\
  contains (vscode.range parent) range = true.
Proof.
  induction 1 as [l i s (Hlook & Hc & _) _
                 |l i s ref parent (Hlook & Hc & _) Hd IH].
  - simpl. split; assumption.
  - destruct IH as [IH1 IH2]. split; [|assumption].
    destruct ref as [|j ref]; [inversion Hd|].
    change (lookupAt (i :: j :: ref) l)
      with (match l !! i with
            | Some s => lookupAt (j :: ref) (children s)
            | None => None
            end).
    rewrite Hlook. assumption.
Qed.

End SymbolTrees.

(** ** Where control blocks go *)

Section ControlBlocks.
Import RegExp vscode TclDocumentSymbolProvider.

(** C10. A control block inside a procedure that was attached to its
    namespace by its qualified name: the procedure [f], a child of [NS],
    is built before the control blocks are gone through and its range
    contains the range of the block, so the claim makes the block a child
    of [f]. The search for the enclosing symbol only goes below symbols
    whose own range contains the block; the range of [NS] does not, [f] is
    never looked at, the search answers that no symbol encloses the block,
    and the block is appended at the top level. *)
Theorem control_block_beside_its_procedure :
  let document :=
    doc ["namespace eval NS {"; "}"; "proc NS::f {} {"; "    if {1} {";
         "        puts hi"; "    }"; "}"] in
  let f :=
    mkSymbol (lit "f") [] KFunction
             (mkRange (mkPosition 2 0) (mkPosition 6 1))
             (mkRange (mkPosition 2 0) (mkPosition 2 15)) [] in
  let NS :=
    mkSymbol (lit "NS") (lit "namespace") KNamespace
             (mkRange (mkPosition 0 0) (mkPosition 1 1))
             (mkRange (mkPosition 0 0) (mkPosition 0 19)) [f] in
  let block :=
    mkSymbol (lit "if") (lit "if block") KObject
             (mkRange (mkPosition 3 4) (mkPosition 5 5))
             (mkRange (mkPosition 3 4) (mkPosition 3 12)) [] in
  processGlobalVariables document document
    (processProcedures document document
       (fst (processNamespaces document document ([], ∅)))
       (snd (processNamespaces document document ([], ∅))))
  = [NS] /\
  contains (range f) (range block) = true /\
  anyContains (range block) NS = true /\
  findEnclosingSymbol (range block) [NS] = None /\
  provideDocumentSymbols document = [NS; block] /\
  forallb accepted (provideDocumentSymbols document) = true.
Proof. cbv zeta. repeat split; vm_compute; reflexivity. Qed.

(** What one step of the loop over the control blocks does with a
    multi-line block whose closing brace is found: the block is not
    dropped. If no top-level symbol contains its range it is appended at
    the top level. Otherwise it becomes the last child of the symbol
    reached by going down from the top level, at each level into the
    first symbol that contains the range, until no child contains it. *)
Lemma control_block_placement
  (document : TextDocument) (text : str) (symbols : list DocumentSymbol)
  (m : rmatch) (closeBracePos : Z) :
  findMatchingBrace text
    (index m + JSStr.lastIndexOfChar LBRACE (matched text m))
  = Some closeBracePos ->
  line (positionAt document (closeBracePos + 1))
  <> line (positionAt document (index m)) ->
  let range := controlRange document m closeBracePos in
  let controlSymbol := controlSymbolOf document text m closeBracePos in
  (Forall (fun s => contains (vscode.range s) range = false) symbols /\
   controlStep document text symbols m = symbols ++ [controlSymbol])
  \/
  (exists (ref : SymbolRef) (parent : DocumentSymbol),
      descent range symbols ref parent /\
      lookupAt ref symbols = Some parent /\
      contains (vscode.range parent) range = true /\
      controlStep document text symbols m
      = alterAt ref (pushChild controlSymbol) symbols /\
      lookupAt ref (controlStep document text symbols m)
      = Some (pushChild controlSymbol parent) /\
      last (children (pushChild controlSymbol parent)) = Some controlSymbol).
Proof.
  intros Hclose Hlines range controlSymbol. unfold controlStep.
  rewrite Hclose.
  destruct (Z.eqb_spec (line (positionAt document (closeBracePos + 1)))
                       (line (positionAt document (index m)))) as [?|_];
    [contradiction|].
  fold range. fold controlSymbol.
  destruct (findEnclosingSymbol range symbols) as [ref|] eqn:Hfind.
  - right. destruct (findEnclosingSymbol_descent _ _ _ Hfind) as (parent & Hd).
    destruct (descent_lookupAt _ _ _ _ Hd) as [Hlook Hc].
    exists ref, parent. repeat split; try assumption.
    + apply lookupAt_alterAt. assumption.
    + rewrite pushChild_children. apply last_snoc.
  - left. split; [|reflexivity].
    apply (findEnclosingSymbol_from_None range symbols 0). assumption.
Qed.

Lemma control_block_placement_witness :
  let document :=
    doc ["proc f {} {"; "    if {1} {"; "        puts hi"; "    }"; "}"] in
  let f :=
    mkSymbol (lit "f") [] KFunction
             (mkRange (mkPosition 0 0) (mkPosition 4 1))
             (mkRange (mkPosition 0 0) (mkPosition 0 11)) [] in
  let m := mkMatch 16 24 {[ 1%nat := (16, 18) ]} in
  let range := controlRange document m 45 in
  let controlSymbol := controlSymbolOf document document m 45 in
  execAll controlRegex document = [m] /\
  ((Forall (fun s => contains (vscode.range s) range = false) [f] /\
    controlStep document document [f] m = [f] ++ [controlSymbol])
   \/
   (exists (ref : SymbolRef) (parent : DocumentSymbol),
       descent range [f] ref parent /\
       lookupAt ref [f] = Some parent /\
       contains (vscode.range parent) range = true /\
       controlStep document document [f] m
       = alterAt ref (pushChild controlSymbol) [f] /\
       lookupAt ref (controlStep document document [f] m)
       = Some (pushChild controlSymbol parent) /\
       last (children (pushChild controlSymbol parent))
       = Some controlSymbol)).
Proof.
  cbv zeta. split; [vm_compute; reflexivity|].
  apply (control_block_placement
           (doc ["proc f {} {"; "    if {1} {"; "        puts hi";
                 "    }"; "}"])
           (doc ["proc f {} {"; "    if {1} {"; "        puts hi";
                 "    }"; "}"])
           [mkSymbol (lit "f") [] KFunction
                     (mkRange (mkPosition 0 0) (mkPosition 4 1))
                     (mkRange (mkPosition 0 0) (mkPosition 0 11)) []]
           (mkMatch 16 24 {[ 1%nat := (16, 18) ]}) 45).
  - vm_compute. reflexivity.
  - vm_compute. discriminate.
Defined.

End ControlBlocks.

(** ** The local variables of a procedure *)

Section LocalVariables.
Import RegExp vscode TclDocumentSymbolProvider.
Variable document : TextDocument.
Variable procBody : str.
Variable procBodyStartOffset : Z.

Local Abbreviation step := (localVarStep document procBody procBodyStartOffset).
Local Abbreviation symbolOf :=
  (localVarSymbol document procBody procBodyStartOffset).

Lemma localVarSymbol_name (m : rmatch) :
  name (symbolOf m) = groupOf procBody m 1.
Proof. reflexivity. Qed.

Lemma localVarSymbol_isVariable (m : rmatch) : isVariable (symbolOf m) = true.
Proof. reflexivity. Qed.

Lemma existsb_named (n : str) (cs : list DocumentSymbol) :
  existsb (fun child => bool_decide (name child = n)) cs = false <->
  List.filter (fun c => bool_decide (name c = n)) cs = [].
Proof.
  induction cs as [|c cs IH]; simpl; [tauto|].
  destruct (bool_decide (name c = n)); simpl; [|exact IH].
  split; discriminate.
Qed.

Lemma variablesNamed_pushChild (n : str) (c s : DocumentSymbol) :
  variablesNamed n (pushChild c s)
  = variablesNamed n s
    ++ (if isVariable c && bool_decide (name c = n) then [c] else []).
Proof.
  unfold variablesNamed. rewrite pushChild_children, List.filter_app.
  reflexivity.
Qed.

Lemma childrenNamed_pushChild (n : str) (c s : DocumentSymbol) :
  childrenNamed n (pushChild c s)
  = childrenNamed n s ++ (if bool_decide (name c = n) then [c] else []).
Proof.
  unfold childrenNamed. rewrite pushChild_children, List.filter_app.
  reflexivity.
Qed.

(** A match of another name leaves the records of [n] as they are. *)
Lemma step_other_name (n : str) (s : DocumentSymbol) (m : rmatch) :
  groupOf procBody m 1 <> n ->
  childrenNamed n (step s m) = childrenNamed n s /\
  variablesNamed n (step s m) = variablesNamed n s.
Proof.
  intros Hne. unfold localVarStep.
  destruct (existsb _ (children s)); [split; reflexivity|].
  rewrite childrenNamed_pushChild, variablesNamed_pushChild.
  rewrite localVarSymbol_name.
  rewrite (bool_decide_eq_false_2 _ Hne), andb_false_r, !app_nil_r.
  split; reflexivity.
Qed.

(** A match of the name [n] is recorded if [n] has no record yet, *)
Lemma step_first (n : str) (s : DocumentSymbol) (m : rmatch) :
  groupOf procBody m 1 = n ->
  childrenNamed n s = [] ->
  childrenNamed n (step s m) = [symbolOf m] /\
  variablesNamed n (step s m) = variablesNamed n s ++ [symbolOf m].
Proof.
  intros Hn Hnone. unfold localVarStep. rewrite Hn.
  apply existsb_named in Hnone. rewrite Hnone.
  rewrite childrenNamed_pushChild, variablesNamed_pushChild.
  rewrite localVarSymbol_name, Hn, bool_decide_eq_true_2 by reflexivity.
  apply existsb_named in Hnone. unfold childrenNamed. rewrite Hnone.
  split; reflexivity.
Qed.

(** and skipped if it has one. *)
Lemma step_again (n : str) (s : DocumentSymbol) (m : rmatch) :
  groupOf procBody m 1 = n ->
  childrenNamed n s <> [] ->
  step s m = s.
Proof.
  intros Hn Hsome. unfold localVarStep. rewrite Hn.
  destruct (existsb _ (children s)) eqn:He; [reflexivity|].
  apply existsb_named in He. contradiction.
Qed.

Lemma fold_other_names (n : str) (ms : list rmatch) :
  forall s : DocumentSymbol,
    Forall (fun m => groupOf procBody m 1 <> n) ms ->
    childrenNamed n (fold_left step ms s) = childrenNamed n s /\
    variablesNamed n (fold_left step ms s) = variablesNamed n s.
Proof.
  induction ms as [|m ms IH]; intros s Hall; simpl; [split; reflexivity|].
  inversion Hall as [|? ? Hm Hms]; subst.
  destruct (IH (step s m) Hms) as [IH1 IH2].
  destruct (step_other_name n s m Hm) as [H1 H2].
  rewrite IH1, IH2, H1, H2. split; reflexivity.
Qed.

Lemma fold_recorded (n : str) (ms : list rmatch) :
  forall s : DocumentSymbol,
    childrenNamed n s <> [] ->
    childrenNamed n (fold_left step ms s) = childrenNamed n s /\
    variablesNamed n (fold_left step ms s) = variablesNamed n s.
Proof.
  induction ms as [|m ms IH]; intros s Hsome; simpl; [split; reflexivity|].
  destruct (decide (groupOf procBody m 1 = n)) as [Hn|Hne].
  - rewrite (step_again n s m Hn Hsome). apply IH. assumption.
  - destruct (step_other_name n s m Hne) as [H1 H2].
    destruct (IH (step s m)) as [IH1 IH2]; [rewrite H1; assumption|].
    rewrite IH1, IH2, H1, H2. split; reflexivity.
Qed.

(** The scan for [array set] adds symbols that are not variables. *)
Lemma fold_arrays_variables (n : str) (ms : list rmatch) :
  forall s : DocumentSymbol,
    variablesNamed n
      (fold_left (arraySetStep document procBody procBodyStartOffset) ms s)
    = variablesNamed n s.
Proof.
  induction ms as [|m ms IH]; intros s; simpl; [reflexivity|].
  rewrite IH. unfold arraySetStep. rewrite variablesNamed_pushChild.
  simpl. apply app_nil_r.
Qed.

(** Every name the pattern matched has a first match. *)
Lemma first_match_of_name (n : str) (ms : list rmatch) :
  In n (map (fun m => groupOf procBody m 1) ms) ->
  exists ms1 m ms2,
    ms = ms1 ++ m :: ms2 /\ groupOf procBody m 1 = n /\
    Forall (fun m' => groupOf procBody m' 1 <> n) ms1.
Proof.
  induction ms as [|m ms IH]; intros Hin; simpl in Hin; [contradiction|].
  destruct (decide (groupOf procBody m 1 = n)) as [Hn|Hne].
  - exists [], m, ms. repeat split; [assumption|constructor].
  - destruct Hin as [Hn|Hin]; [contradiction|].
    destruct (IH Hin) as (ms1 & m0 & ms2 & -> & Hn0 & Hall).
    exists (m :: ms1), m0, ms2. repeat split; [assumption|].
    constructor; assumption.
Qed.

(** The claim on local names fails where a name comes back in an
    [array set]: the scan for [set] records [fruits] once, at its first
    [set], and skips the [set fruits {a 1}] it reads inside the
    [array set]; the scan for [array set] then records the name again, and
    the procedure has two children called [fruits]. *)
Lemma array_name_recorded_twice :
  let document :=
    doc ["proc f {} {"; "    set fruits 0"; "    array set fruits {a 1}";
         "}"] in
  let body := JS.substring document 11 56 in
  let procSymbol :=
    newDocumentSymbol (lit "f") [] KFunction
      (mkRange (mkPosition 0 0) (mkPosition 3 1))
      (mkRange (mkPosition 0 0) (mkPosition 0 11)) in
  let variable :=
    mkSymbol (lit "fruits") (lit "value: 0") KVariable
             (mkRange (mkPosition 1 4) (mkPosition 1 16))
             (mkRange (mkPosition 1 4) (mkPosition 1 16)) [] in
  let array :=
    mkSymbol (lit "fruits") (lit "array") KArray
             (mkRange (mkPosition 2 4) (mkPosition 2 26))
             (mkRange (mkPosition 2 4) (mkPosition 2 26)) [] in
  findMatchingBrace document 10 = Some 56 /\
  map (fun m => groupOf body m 1) (execAll localVarRegex body)
  = [lit "fruits"; lit "fruits"] /\
  childrenNamed (lit "fruits")
    (processLocalVariables document body 11 procSymbol)
  = [variable; array] /\
  provideDocumentSymbols document
  = [pushChild array (pushChild variable procSymbol)] /\
  forallb accepted (provideDocumentSymbols document) = true.
Proof. cbv zeta. repeat split; vm_compute; reflexivity. Qed.

(** C8 (amended). When the body of a procedure is scanned for local
    variables, every name the [set] pattern matched is recorded exactly
    once among the Variable children of the procedure, and the record is
    that of the first match of the name: the matches before it carry other
    names, the matches after it start after its end. (The Array children
    that the scan for [array set] adds are left aside.) *)
Theorem local_variable_recorded_once
  (procSymbol : DocumentSymbol) (n : str) :
  children procSymbol = [] ->
  In n (map (fun m => groupOf procBody m 1) (execAll localVarRegex procBody)) ->
  exists ms1 m ms2,
    execAll localVarRegex procBody = ms1 ++ m :: ms2 /\
    groupOf procBody m 1 = n /\
    Forall (fun m' => groupOf procBody m' 1 <> n) ms1 /\
    Forall (fun m' => endIndex m <= index m') ms2 /\
    variablesNamed n
      (processLocalVariables document procBody procBodyStartOffset procSymbol)
    = [localVarSymbol document procBody procBodyStartOffset m].
Proof.
  intros Hfresh Hin.
  destruct (first_match_of_name n _ Hin) as (ms1 & m & ms2 & Heq & Hn & Hall).
  exists ms1, m, ms2. split; [assumption|]. split; [assumption|].
  split; [assumption|]. split.
  - apply Forall_forall. intros m' Hm'. apply list_elem_of_In in Hm'.
    pose proof (execAll_chained procBody localVarRegex) as Hch.
    rewrite Heq in Hch. eapply chained_app_order; eassumption.
  - unfold processLocalVariables. rewrite fold_arrays_variables, Heq.
    rewrite fold_left_app. simpl.
    destruct (fold_other_names n ms1 procSymbol Hall) as [H1 H2].
    assert (Hnone : childrenNamed n procSymbol = [])
      by (unfold childrenNamed; rewrite Hfresh; reflexivity).
    assert (Hnov : variablesNamed n procSymbol = [])
      by (unfold variablesNamed; rewrite Hfresh; reflexivity).
    rewrite Hnone in H1. rewrite Hnov in H2.
    destruct (step_first n (fold_left step ms1 procSymbol) m Hn H1)
      as [H3 H4].
    rewrite H2 in H4. simpl in H4.
    destruct (fold_recorded n ms2 (step (fold_left step ms1 procSymbol) m))
      as [_ H5]; [rewrite H3; discriminate|].
    rewrite H5, H4. reflexivity.
Qed.

End LocalVariables.

Section LocalVariablesWitness.
Import RegExp vscode TclDocumentSymbolProvider.

Lemma local_variable_recorded_once_witness :
  let document :=
    doc ["proc f {} {"; "  set x 1"; "  set y 2"; "  set x 3"; "}"] in
  let body := JS.substring document 11 42 in
  let procSymbol :=
    newDocumentSymbol (lit "f") [] KFunction
      (mkRange (mkPosition 0 0) (mkPosition 4 1))
      (mkRange (mkPosition 0 0) (mkPosition 0 11)) in
  children procSymbol = [] /\
  In (lit "x")
     (map (fun m => groupOf body m 1) (execAll localVarRegex body)) /\
  exists ms1 m ms2,
    execAll localVarRegex body = ms1 ++ m :: ms2 /\
    groupOf body m 1 = lit "x" /\
    Forall (fun m' => groupOf body m' 1 <> lit "x") ms1 /\
    Forall (fun m' => endIndex m <= index m') ms2 /\
    variablesNamed (lit "x")
      (processLocalVariables document body 11 procSymbol)
    = [localVarSymbol document body 11 m].
Proof.
  cbv zeta. split; [reflexivity|].
  split; [vm_compute; left; reflexivity|].
  apply local_variable_recorded_once.
  - reflexivity.
  - vm_compute. left. reflexivity.
Defined.

End LocalVariablesWitness.

(** ** Names qualified by a namespace *)

Section QualifiedNames.
Import RegExp RegExpNotations vscode Host TclDefinitionProvider.

Lemma Matches_lastLit (text : str) (r : regex) (c : ascii) (i j : Z) :
  lastLit r = Some c -> Matches text r i j ->
  JS.charAt text (j - 1) = Some c.
Proof.
  intros Hlast Hm. induction Hm; simpl in Hlast; try discriminate.
  - injection Hlast as ->. replace (i + 1 - 1) with i by lia. assumption.
  - auto.
Qed.

Lemma lastLit_Str_seq (s : str) (r : regex) :
  lastLit (Str s >> r) = lastLit r.
Proof. reflexivity. Qed.

Lemma definition_truthy (o : option Z) (e : Z) :
  truthy o = Some e <-> o = Some e /\ e <> 0.
Proof.
  unfold truthy. destruct o as [p|].
  - destruct (Z.eqb_spec p 0); split.
    + discriminate.
    + intros [[= ->] Hne]. contradiction.
    + intros [= ->]. split; [reflexivity|assumption].
    + intros [[= ->] _]. reflexivity.
  - split; [discriminate|]. intros [? _]. discriminate.
Qed.

Lemma definition_truthy_matched (text : str) (open : Z) :
  0 <= open ->
  truthy (findMatchingBrace text open) = findMatchingBrace text open.
Proof.
  intros Hopen. pose proof (findMatchingBrace_spec text open) as H.
  unfold truthy. destruct (findMatchingBrace text open) as [p|]; [|reflexivity].
  destruct H as (Hp & _); [lia|].
  destruct (Z.eqb_spec p 0); [lia|reflexivity].
Qed.

(** The location of a block starts where the block starts. *)
Lemma blockLocation_start (document : TextDocument) (text : str)
  (startOffset bodyStart : Z) :
  text = document -> 0 <= startOffset <= bodyStart ->
  start (locRange (blockLocation document text startOffset bodyStart))
  = positionAt document startOffset.
Proof.
  intros -> Hle. unfold blockLocation. simpl.
  rewrite definition_truthy_matched by lia.
  pose proof (findMatchingBrace_spec document bodyStart) as H.
  destruct (findMatchingBrace document bodyStart) as [p|].
  - destruct H as (Hp & _); [lia|].
    rewrite newRange_positionAt by lia. reflexivity.
  - rewrite newRange_ordered; [reflexivity|]. apply positionAt_le_lineEnd.
Qed.

Lemma locationOf_start (document : TextDocument) (a b : Z) :
  a <= b ->
  start (locRange (locationOf document a b)) = positionAt document a.
Proof.
  intros Hab. unfold locationOf. simpl.
  rewrite newRange_positionAt by lia. reflexivity.
Qed.

End QualifiedNames.

(** ** More on the brace matcher and on substrings *)

Lemma loop_forward (text : str) :
  forall (fuel : nat) (bc pos : Z),
    let '(bc', pos') := findMatchingBrace_loop fuel text bc pos in
    pos <= pos' /\ (0 < bc -> bc' = 0 -> pos < pos' <= JS.len text).
Proof.
  induction fuel as [|fuel IH]; intros bc pos; simpl; [lia|].
  destruct (Z.ltb_spec pos (JS.len text)) as [Hlt|Hge]; simpl; [|lia].
  destruct (Z.ltb_spec 0 bc) as [Hbc|Hbc]; simpl; [|lia].
  assert (Hnext : forall b, 0 <= b ->
            let '(bc', pos') := findMatchingBrace_loop fuel text b (pos + 1) in
            pos <= pos' /\ (0 < bc -> bc' = 0 -> pos < pos' <= JS.len text)).
  { intros b Hb. specialize (IH b (pos + 1)).
    destruct (findMatchingBrace_loop fuel text b (pos + 1)) as [bc' pos']
      eqn:Hloop.
    destruct (Z.eq_dec b 0) as [Hz|Hnz].
    - rewrite Hz, loop_done in Hloop. injection Hloop as <- <-. lia.
    - destruct IH as [IH1 IH2]. split; [lia|]. intros _ Hz.
      specialize (IH2 ltac:(lia) Hz). lia. }
  destruct (JS.is_char LBRACE (JS.charAt text pos)); [apply Hnext; lia|].
  destruct (JS.is_char RBRACE (JS.charAt text pos)); apply Hnext; lia.
Qed.

(** Whatever the offset it starts from, the matcher answers with an offset
    after it, inside the text. *)
Lemma findMatchingBrace_after (text : str) (open p : Z) :
  findMatchingBrace text open = Some p -> open < p < JS.len text.
Proof.
  unfold findMatchingBrace.
  pose proof (loop_forward text (Z.to_nat (JS.len text - (open + 1))) 1
                (open + 1)) as H.
  destruct (findMatchingBrace_loop _ text 1 (open + 1)) as [bc' pos'].
  destruct (Z.eqb_spec bc' 0) as [Hz|]; [|discriminate].
  intros [= <-]. destruct H as [_ H]. specialize (H ltac:(lia) Hz). lia.
Qed.

Lemma substring_length_le (t : str) (a b : Z) :
  a <= b -> JS.len (JS.substring t a b) <= b - a.
Proof.
  intros Hab. unfold JS.substring, JS.clamp, JS.len.
  rewrite length_take, length_drop. lia.
Qed.

(** ** Containment in the outline *)

Section Containment.
Import RegExp RegExpNotations vscode TclDocumentSymbolProvider.
Variable document : TextDocument.

Lemma pushChild_kind (c s : DocumentSymbol) : kind (pushChild c s) = kind s.
Proof. destruct s. reflexivity. Qed.

Lemma pushChild_name (c s : DocumentSymbol) : name (pushChild c s) = name s.
Proof. destruct s. reflexivity. Qed.

Lemma pushChild_selectionRange (c s : DocumentSymbol) :
  selectionRange (pushChild c s) = selectionRange s.
Proof. destruct s. reflexivity. Qed.

Lemma setChildren_kind (cs : list DocumentSymbol) (s : DocumentSymbol) :
  kind (setChildren cs s) = kind s.
Proof. destruct s. reflexivity. Qed.

Lemma setChildren_name (cs : list DocumentSymbol) (s : DocumentSymbol) :
  name (setChildren cs s) = name s.
Proof. destruct s. reflexivity. Qed.

Lemma setChildren_selectionRange (cs : list DocumentSymbol)
  (s : DocumentSymbol) :
  selectionRange (setChildren cs s) = selectionRange s.
Proof. destruct s. reflexivity. Qed.

Lemma newRange_wf (a b : Position) :
  isBefore (end_ (newRange a b)) (start (newRange a b)) = false.
Proof.
  unfold newRange. destruct (isBefore b a) eqn:H; simpl.
  - apply isBefore_asym. assumption.
  - assumption.
Qed.

Lemma contains_self (a b : Position) :
  contains (newRange a b) (newRange a b) = true.
Proof.
  pose proof (newRange_wf a b) as H.
  destruct (newRange a b) as [x y]. simpl in H. apply contains_refl.
  assumption.
Qed.

Lemma childInside_same (p p' c : DocumentSymbol) :
  kind p' = kind p -> range p' = range p ->
  childInside p c -> childInside p' c.
Proof. unfold childInside. intros -> ->. tauto. Qed.

Lemma childInside_same_child (p c c' : DocumentSymbol) :
  kind c' = kind c -> range c' = range c ->
  childInside p c -> childInside p c'.
Proof. unfold childInside. intros -> ->. tauto. Qed.

Lemma declarationInside_same (s s' : DocumentSymbol) :
  kind s' = kind s -> range s' = range s ->
  selectionRange s' = selectionRange s ->
  declarationInside s -> declarationInside s'.
Proof. unfold declarationInside. intros -> -> ->. tauto. Qed.

Lemma wellNested_inv (s : DocumentSymbol) :
  wellNested s ->
  declarationInside s /\
  Forall (fun c => childInside s c /\ wellNested c) (children s).
Proof. intros H. inversion H; subst. split; assumption. Qed.

Lemma wellNested_leaf (n d : str) (k : SymbolKind) (r sr : Range) :
  declarationInside (newDocumentSymbol n d k r sr) ->
  wellNested (newDocumentSymbol n d k r sr).
Proof. intros H. constructor; [assumption|constructor]. Qed.

Lemma wellNested_pushChild (c s : DocumentSymbol) :
  wellNested s -> childInside s c -> wellNested c ->
  wellNested (pushChild c s).
Proof.
  intros Hs Hc Hwc. apply wellNested_inv in Hs. destruct Hs as [Hd Hall].
  constructor.
  - eapply declarationInside_same; [..|exact Hd];
      auto using pushChild_kind, pushChild_range, pushChild_selectionRange.
  - rewrite pushChild_children. apply Forall_app. split.
    + eapply Forall_impl; [exact Hall|]. intros x [Hx1 Hx2]. split; [|exact Hx2].
      eapply childInside_same; [..|exact Hx1];
        auto using pushChild_kind, pushChild_range.
    + constructor; [|constructor]. split; [|assumption].
      eapply childInside_same; [..|exact Hc];
        auto using pushChild_kind, pushChild_range.
Qed.

Lemma wellNested_setChildren (cs : list DocumentSymbol) (s : DocumentSymbol) :
  wellNested s ->
  Forall (fun c => childInside s c /\ wellNested c) cs ->
  wellNested (setChildren cs s).
Proof.
  intros Hs Hcs. apply wellNested_inv in Hs. destruct Hs as [Hd _].
  constructor.
  - eapply declarationInside_same; [..|exact Hd];
      auto using setChildren_kind, setChildren_range,
                 setChildren_selectionRange.
  - rewrite setChildren_children.
    eapply Forall_impl; [exact Hcs|]. intros x [Hx1 Hx2]. split; [|exact Hx2].
    eapply childInside_same; [..|exact Hx1];
      auto using setChildren_kind, setChildren_range.
Qed.

Lemma keepsFrame_pushChild (c : DocumentSymbol) : keepsFrame (pushChild c).
Proof. intros [n d k r sr cs]. repeat split. Qed.

Lemma keepsFrame_id : keepsFrame (fun s => s).
Proof. intros s. repeat split. Qed.

Lemma keepsFrame_compose (f g : DocumentSymbol -> DocumentSymbol) :
  keepsFrame f -> keepsFrame g -> keepsFrame (fun s => g (f s)).
Proof.
  intros Hf Hg s. destruct (Hf s) as (H1 & H2 & H3 & H4).
  destruct (Hg (f s)) as (G1 & G2 & G3 & G4).
  repeat split; congruence.
Qed.

Lemma keepsFrame_fold {A : Type} (step : DocumentSymbol -> A -> DocumentSymbol)
  (ms : list A) :
  (forall m, keepsFrame (fun s => step s m)) ->
  keepsFrame (fun s => fold_left step ms s).
Proof.
  intros Hstep. induction ms as [|m ms IH]; simpl; [apply keepsFrame_id|].
  intros s. destruct (IH (step s m)) as (H1 & H2 & H3 & H4).
  destruct (Hstep m s) as (G1 & G2 & G3 & G4). repeat split; congruence.
Qed.

Lemma keepsFrame_setChildren (g : DocumentSymbol -> list DocumentSymbol) :
  keepsFrame (fun s => setChildren (g s) s).
Proof. intros [n d k r sr cs]. repeat split. Qed.

(** A loop that only pushes children, each of them well nested and in its
    place under the symbol, keeps a well-nested symbol well nested. *)
Lemma fold_push_wellNested {A : Type}
  (step : DocumentSymbol -> A -> DocumentSymbol) (ms : list A) :
  forall s0 : DocumentSymbol,
    (forall s m, In m ms ->
       step s m = s \/
       exists c, step s m = pushChild c s /\ wellNested c /\
                 childInside s0 c) ->
    wellNested s0 ->
    wellNested (fold_left step ms s0).
Proof.
  induction ms as [|m ms IH]; intros s0 Hstep Hwn; simpl; [assumption|].
  destruct (Hstep s0 m (or_introl eq_refl)) as [Heq|(c & Heq & Hc & Hin)].
  - rewrite Heq. apply IH; [|assumption].
    intros s m' Hm'. apply Hstep. right. assumption.
  - rewrite Heq. apply IH.
    + intros s m' Hm'. destruct (Hstep s m' (or_intror Hm'))
        as [Hs|(c' & Hs & Hc' & Hin')]; [left; assumption|].
      right. exists c'. split; [assumption|]. split; [assumption|].
      eapply childInside_same; [..|exact Hin'];
        auto using pushChild_kind, pushChild_range.
    + apply wellNested_pushChild; assumption.
Qed.

(** *** The symbols of one body *)

Lemma match_inside (body : str) (r : regex) (m : rmatch) (off a b : Z) :
  In m (execAll r body) -> a <= off -> off + JS.len body <= b ->
  a <= off + index m /\
  off + index m <= off + index m + JS.len (matched body m) /\
  off + index m + JS.len (matched body m) <= b.
Proof.
  intros Hin Ha Hb. apply execAll_Matches in Hin.
  destruct Hin as (H0 & H1 & H2 & _).
  rewrite (matched_length body m) by lia. lia.
Qed.

Lemma variable_symbol_wellNested (n d : str) (k : SymbolKind) (a b : Position) :
  wellNested (newDocumentSymbol n d k (newRange a b) (newRange a b)).
Proof.
  apply wellNested_leaf. unfold declarationInside. simpl.
  destruct k; auto using contains_self.
Qed.

(** The local variables and arrays of a body that lies inside the span of
    the symbol they are pushed to. *)
Lemma processLocalVariables_wellNested (procBody : str) (off a b : Z)
  (procSymbol : DocumentSymbol) :
  range procSymbol
  = newRange (positionAt document a) (positionAt document b) ->
  a <= off -> off + JS.len procBody <= b ->
  wellNested procSymbol ->
  wellNested (processLocalVariables document procBody off procSymbol).
Proof.
  intros Hr Ha Hb Hwn. unfold processLocalVariables.
  assert (Hin : forall r m c,
             In m (execAll r procBody) ->
             range c
             = newRange (positionAt document (off + index m))
                 (positionAt document
                    (off + index m + JS.len (matched procBody m))) ->
             forall p, range p = range procSymbol -> childInside p c).
  { intros r m c Hm Hc p Hp. unfold childInside. rewrite Hp, Hr, Hc.
    pose proof (match_inside procBody r m off a b Hm Ha Hb) as (H1 & H2 & H3).
    destruct (kind p), (kind c); auto using contains_positionAt. }
  apply fold_push_wellNested.
  - intros s m Hm. right. eexists. split; [reflexivity|].
    split; [apply variable_symbol_wellNested|].
    eapply (Hin _ m); [exact Hm|reflexivity|].
    destruct (keepsFrame_fold
                (localVarStep document procBody off)
                (execAll localVarRegex procBody)
                ltac:(intros m0 s0; unfold localVarStep;
                      destruct (existsb _ _);
                      [repeat split|apply keepsFrame_pushChild])
                procSymbol) as (_ & _ & Hrange & _).
    exact Hrange.
  - apply fold_push_wellNested; [|assumption].
    intros s m Hm. unfold localVarStep.
    destruct (existsb _ (children s)); [left; reflexivity|].
    right. eexists. split; [reflexivity|].
    split; [apply variable_symbol_wellNested|].
    eapply (Hin _ m); [exact Hm|reflexivity|reflexivity].
Qed.

Lemma processLocalVariables_keepsFrame (procBody : str) (off : Z) :
  keepsFrame (processLocalVariables document procBody off).
Proof.
  unfold processLocalVariables.
  apply (keepsFrame_compose
           (fun s => fold_left (localVarStep document procBody off)
                               (execAll localVarRegex procBody) s)
           (fun s => fold_left (arraySetStep document procBody off)
                               (execAll arraySetRegex procBody) s)).
  - apply keepsFrame_fold. intros m s. unfold localVarStep.
    destruct (existsb _ _); [repeat split|apply keepsFrame_pushChild].
  - apply keepsFrame_fold. intros m. apply keepsFrame_pushChild.
Qed.

(** *** Pushing, then changing what was pushed *)

Lemma alter_last_pushed (f : DocumentSymbol -> DocumentSymbol)
  (cs : list DocumentSymbol) (c : DocumentSymbol) :
  alter f (length cs) (cs ++ [c]) = cs ++ [f c].
Proof.
  replace (length cs) with (length cs + 0)%nat by lia.
  rewrite alter_app_r. reflexivity.
Qed.

Lemma alterLastChild_pushChild (f : DocumentSymbol -> DocumentSymbol)
  (c s : DocumentSymbol) :
  alterLastChild f (pushChild c s) = pushChild (f c) s.
Proof.
  destruct s as [n d k r sr cs]. unfold alterLastChild. simpl.
  rewrite length_app. simpl.
  replace (pred (length cs + 1)) with (length cs) by lia.
  rewrite alter_last_pushed. reflexivity.
Qed.

(** The procedure symbol as the outline holds it once its local variables
    were scanned. *)
Lemma alter_pushed_child (f : DocumentSymbol -> DocumentSymbol)
  (c : DocumentSymbol) (nsRef : nat) (symbols : list DocumentSymbol) :
  alterAt [nsRef; length (default [] (children <$> symbols !! nsRef))] f
          (alterAt [nsRef] (pushChild c) symbols)
  = alter (pushChild (f c)) nsRef symbols.
Proof.
  simpl. rewrite list_alter_alter_eq.
  apply list_alter_ext; [|reflexivity].
  intros s Hs. rewrite Hs. simpl. destruct s as [n d k r sr cs]. simpl.
  rewrite alter_last_pushed. reflexivity.
Qed.

(** *** Changing a symbol somewhere in a well-nested tree *)

Lemma alterAt_wellNested (f : DocumentSymbol -> DocumentSymbol) :
  keepsFrame f ->
  forall (ref : SymbolRef) (Q : DocumentSymbol -> Prop)
         (l : list DocumentSymbol),
    (forall c c', kind c' = kind c -> range c' = range c -> Q c -> Q c') ->
    (forall p, lookupAt ref l = Some p -> wellNested p -> wellNested (f p)) ->
    Forall (fun c => Q c /\ wellNested c) l ->
    Forall (fun c => Q c /\ wellNested c) (alterAt ref f l).
Proof.
  intros Hf. induction ref as [|i ref IH]; intros Q l HQ Hp Hall;
    [assumption|].
  destruct ref as [|j ref].
  - simpl. apply Forall_alter; [assumption|].
    intros x Hx [Hq Hwn]. destruct (Hf x) as (_ & Hk & Hr & _).
    split; [eapply HQ; eassumption|]. apply Hp; assumption.
  - change (alterAt (i :: j :: ref) f l)
      with (alter (fun s => setChildren (alterAt (j :: ref) f (children s)) s)
                  i l).
    apply Forall_alter; [assumption|].
    intros x Hx [Hq Hwn]. split.
    + eapply HQ; [..|exact Hq];
        auto using setChildren_kind, setChildren_range.
    + apply wellNested_setChildren; [assumption|].
      apply IH.
      * intros c c'. apply childInside_same_child.
      * intros p Hlook. apply Hp.
        change (lookupAt (i :: j :: ref) l)
          with (match l !! i with
                | Some s => lookupAt (j :: ref) (children s)
                | None => None
                end).
        rewrite Hx. assumption.
      * apply wellNested_inv in Hwn. tauto.
Qed.

(** *** Procedures *)

Lemma symbol_truthy (o : option Z) (e : Z) :
  truthy o = Some e -> o = Some e.
Proof.
  unfold truthy. destruct o as [p|]; [|discriminate].
  destruct (p =? 0); [discriminate|]. tauto.
Qed.

Lemma withLocalVariables_keepsFrame (text : str) (procBodyStart : Z) :
  keepsFrame (withLocalVariables document text procBodyStart).
Proof.
  unfold withLocalVariables.
  destruct (truthy (findMatchingBrace text procBodyStart)).
  - apply processLocalVariables_keepsFrame.
  - apply keepsFrame_id.
Qed.

Lemma procedure_wellNested (text name detail : str)
  (startOffset procBodyStart : Z) :
  startOffset <= procBodyStart + 1 ->
  wellNested
    (withLocalVariables document text procBodyStart
       (blockSymbol document text name detail KFunction startOffset
                    procBodyStart)).
Proof.
  intros Hle. unfold withLocalVariables, blockSymbol.
  destruct (truthy (findMatchingBrace text procBodyStart)) as [e|] eqn:He.
  - apply symbol_truthy, findMatchingBrace_after in He.
    apply (processLocalVariables_wellNested _ _ startOffset (e + 1)).
    + reflexivity.
    + assumption.
    + pose proof (substring_length_le text (procBodyStart + 1) e). lia.
    + apply wellNested_leaf. exact I.
  - apply wellNested_leaf. exact I.
Qed.

(** The step of a procedure, seen as one push of the finished symbol. *)
Lemma procStep_push (text : str) (namespaceMap : gmap str nat)
  (symbols : list DocumentSymbol) (procMatch : rmatch) :
  procStep document text namespaceMap symbols procMatch
  = let procBodyStart :=
      index procMatch + JS.len (matched text procMatch) - 1 in
    let procSymbol :=
      withLocalVariables document text procBodyStart
        (blockSymbol document text (groupOf text procMatch 2)
           (argsDetail (JSStr.trim (groupOf text procMatch 3))) KFunction
           (index procMatch) procBodyStart) in
    match procParent namespaceMap (procNamespace text procMatch) with
    | Some nsRef => alter (pushChild procSymbol) nsRef symbols
    | None => symbols ++ [procSymbol]
    end.
Proof.
  unfold procStep, withLocalVariables. cbv zeta.
  destruct (procParent namespaceMap (procNamespace text procMatch))
    as [nsRef|];
    destruct (truthy (findMatchingBrace text _)) as [e|]; try reflexivity.
  - apply alter_pushed_child.
  - simpl. apply alter_last_pushed.
Qed.

Lemma namespaceProcedureStep_push (nsContent : str) (off : Z)
  (nsSymbol : DocumentSymbol) (procMatch : rmatch) :
  namespaceProcedureStep document nsContent off nsSymbol procMatch
  = let procBodyStart :=
      off + index procMatch + JS.len (matched nsContent procMatch) - 1 in
    pushChild
      (withLocalVariables document document procBodyStart
         (blockSymbol document document (groupOf nsContent procMatch 1)
            (argsDetail (JSStr.trim (groupOf nsContent procMatch 2)))
            KFunction (off + index procMatch) procBodyStart))
      nsSymbol.
Proof.
  unfold namespaceProcedureStep, withLocalVariables. cbv zeta.
  destruct (truthy (findMatchingBrace document _)) as [e|]; [|reflexivity].
  apply alterLastChild_pushChild.
Qed.

(** *** Namespaces *)

Lemma processNamespaceVariables_keepsFrame (nsContent : str) (off : Z) :
  keepsFrame (processNamespaceVariables document nsContent off).
Proof.
  unfold processNamespaceVariables. apply keepsFrame_fold.
  intros m. apply keepsFrame_pushChild.
Qed.

Lemma processNamespaceProcedures_keepsFrame (nsContent : str) (off : Z) :
  keepsFrame (processNamespaceProcedures document nsContent off).
Proof.
  unfold processNamespaceProcedures. apply keepsFrame_fold.
  intros m s. rewrite namespaceProcedureStep_push. cbv zeta.
  apply keepsFrame_pushChild.
Qed.

Lemma namespace_wellNested (nsContent : str) (off : Z) (ns : DocumentSymbol) :
  kind ns = KNamespace -> wellNested ns ->
  wellNested
    (processNamespaceProcedures document nsContent off
       (processNamespaceVariables document nsContent off ns)).
Proof.
  intros Hk Hwn.
  destruct (processNamespaceVariables_keepsFrame nsContent off ns)
    as (_ & Hk' & _).
  apply fold_push_wellNested.
  - intros s m Hm. right. rewrite namespaceProcedureStep_push. cbv zeta.
    eexists. split; [reflexivity|]. split.
    + apply procedure_wellNested. apply execAll_Matches in Hm.
      destruct Hm as (H0 & H1 & H2 & _).
      rewrite (matched_length nsContent m) by lia. lia.
    + unfold childInside. rewrite Hk', Hk.
      destruct (withLocalVariables_keepsFrame document
                  (off + index m + JS.len (matched nsContent m) - 1)
                  (blockSymbol document document (groupOf nsContent m 1)
                     (argsDetail (JSStr.trim (groupOf nsContent m 2)))
                     KFunction (off + index m)
                     (off + index m + JS.len (matched nsContent m) - 1)))
        as (_ & Hkp & _).
      rewrite Hkp. exact I.
  - apply fold_push_wellNested; [|assumption].
    intros s m Hm. right. eexists. split; [reflexivity|].
    split; [apply variable_symbol_wellNested|].
    unfold childInside. rewrite Hk. exact I.
Qed.

Lemma namespaceStep_push (text : str) (symbols : list DocumentSymbol)
  (namespaceMap : gmap str nat) (nsMatch : rmatch) :
  namespaceStep document text (symbols, namespaceMap) nsMatch
  = let nsName := groupOf text nsMatch 1 in
    let bracePos :=
      index nsMatch + JSStr.indexOfChar LBRACE (matched text nsMatch) in
    let nsContent := groupOf text nsMatch 2 in
    (symbols ++
       [processNamespaceProcedures document nsContent (bracePos + 1)
          (processNamespaceVariables document nsContent (bracePos + 1)
             (blockSymbol document text nsName (lit "namespace") KNamespace
                          (index nsMatch) bracePos))],
     <[nsName := length symbols]> namespaceMap).
Proof.
  unfold namespaceStep. cbv zeta. rewrite !alter_last_pushed. reflexivity.
Qed.

Lemma namespaceRefs_app (namespaceMap : gmap str nat)
  (symbols extra : list DocumentSymbol) :
  namespaceRefs namespaceMap symbols ->
  namespaceRefs namespaceMap (symbols ++ extra).
Proof.
  intros H n i Hn. destruct (H n i Hn) as (s & Hs & Hk).
  exists s. split; [|assumption]. apply lookup_app_l_Some. assumption.
Qed.

Lemma namespaceRefs_alter (namespaceMap : gmap str nat)
  (symbols : list DocumentSymbol) (f : DocumentSymbol -> DocumentSymbol)
  (j : nat) :
  keepsFrame f ->
  namespaceRefs namespaceMap symbols ->
  namespaceRefs namespaceMap (alter f j symbols).
Proof.
  intros Hf H n i Hn. destruct (H n i Hn) as (s & Hs & Hk).
  destruct (decide (j = i)) as [->|Hne].
  - exists (f s). rewrite list_lookup_alter_eq, Hs. split; [reflexivity|].
    destruct (Hf s) as (_ & Hk' & _). congruence.
  - exists s. rewrite list_lookup_alter_ne by assumption. tauto.
Qed.

Lemma processNamespaces_invariant (text : str) :
  forall (ms : list rmatch) (symbols : list DocumentSymbol)
         (namespaceMap : gmap str nat),
    Forall wellNested symbols -> namespaceRefs namespaceMap symbols ->
    let st := fold_left (namespaceStep document text) ms
                        (symbols, namespaceMap) in
    Forall wellNested (fst st) /\ namespaceRefs (snd st) (fst st).
Proof.
  induction ms as [|m ms IH]; intros symbols namespaceMap Hwn Hrefs;
    cbn [fold_left]; [split; assumption|].
  rewrite namespaceStep_push. cbv zeta. apply IH.
  - apply Forall_app. split; [assumption|]. constructor; [|constructor].
    apply namespace_wellNested; [reflexivity|].
    apply wellNested_leaf. exact I.
  - intros n i Hn. destruct (decide (groupOf text m 1 = n)) as [<-|Hne].
    + rewrite lookup_insert_eq in Hn. injection Hn as <-.
      eexists. split; [apply list_lookup_middle; reflexivity|].
      match goal with
      | |- kind (processNamespaceProcedures ?d ?c ?o ?s) = _ =>
          destruct (processNamespaceProcedures_keepsFrame c o s)
            as (_ & Hk1 & _)
      end.
      rewrite Hk1.
      match goal with
      | |- kind (processNamespaceVariables ?d ?c ?o ?s) = _ =>
          destruct (processNamespaceVariables_keepsFrame c o s)
            as (_ & Hk2 & _)
      end.
      rewrite Hk2. reflexivity.
    + rewrite lookup_insert_ne in Hn by assumption.
      apply (namespaceRefs_app namespaceMap symbols _ Hrefs n i Hn).
Qed.

Lemma procParent_lookup (namespaceMap : gmap str nat) (ns : option str)
  (nsRef : nat) :
  procParent namespaceMap ns = Some nsRef ->
  exists n, namespaceMap !! n = Some nsRef.
Proof.
  unfold procParent. destruct ns as [[|c n]|]; try discriminate. eauto.
Qed.

Lemma processProcedures_invariant (text : str) (namespaceMap : gmap str nat) :
  forall (ms : list rmatch) (symbols : list DocumentSymbol),
    Forall wellNested symbols -> namespaceRefs namespaceMap symbols ->
    Forall wellNested
      (fold_left (procStep document text namespaceMap) ms symbols) /\
    namespaceRefs namespaceMap
      (fold_left (procStep document text namespaceMap) ms symbols).
Proof.
  induction ms as [|m ms IH]; intros symbols Hwn Hrefs; cbn [fold_left];
    [split; assumption|].
  rewrite procStep_push. cbv zeta.
  set (procBodyStart := index m + JS.len (matched text m) - 1).
  set (procSymbol := withLocalVariables document text procBodyStart _).
  assert (Hp : wellNested procSymbol).
  { apply procedure_wellNested. subst procBodyStart.
    pose proof (len_nonneg (matched text m)). lia. }
  assert (Hk : kind procSymbol = KFunction).
  { subst procSymbol.
    match goal with
    | |- kind (withLocalVariables ?d ?t ?b ?s) = _ =>
        destruct (withLocalVariables_keepsFrame t b s) as (_ & Hk & _)
    end.
    rewrite Hk. reflexivity. }
  destruct (procParent namespaceMap (procNamespace text m)) as [nsRef|]
    eqn:Hparent.
  - apply IH.
    + apply Forall_alter; [assumption|]. intros s Hs Hws.
      apply procParent_lookup in Hparent. destruct Hparent as (n & Hn).
      destruct (Hrefs n nsRef Hn) as (s' & Hs' & Hks).
      assert (s' = s) as -> by congruence.
      apply wellNested_pushChild; [assumption| |assumption].
      unfold childInside. rewrite Hks, Hk. exact I.
    + apply namespaceRefs_alter; [apply keepsFrame_pushChild|assumption].
  - apply IH.
    + apply Forall_app. split; [assumption|]. constructor; [assumption|].
      constructor.
    + apply namespaceRefs_app. assumption.
Qed.

(** *** Global variables *)

Lemma processGlobalVariables_wellNested (text : str) :
  forall (ms : list rmatch) (symbols : list DocumentSymbol),
    Forall wellNested symbols ->
    Forall wellNested (fold_left (globalVarStep document text) ms symbols).
Proof.
  induction ms as [|m ms IH]; intros symbols Hwn; cbn [fold_left];
    [assumption|].
  apply IH. unfold globalVarStep. apply Forall_app. split; [assumption|].
  constructor; [|constructor]. apply variable_symbol_wellNested.
Qed.

(** *** Control blocks *)

Lemma lastIndexOfChar_from_ge (c : ascii) (t : str) :
  forall (i found : Z),
    -1 <= found -> 0 <= i ->
    -1 <= JSStr.lastIndexOfChar_from c t i found.
Proof.
  induction t as [|x t IH]; intros i found Hf Hi; simpl; [assumption|].
  apply IH; [|lia]. destruct (Ascii.eqb x c); lia.
Qed.

Lemma controlSymbol_wellNested (text : str) (m : rmatch) (close : Z) :
  index m <= close + 1 ->
  line (positionAt document (close + 1))
  <> line (positionAt document (index m)) ->
  wellNested (controlSymbolOf document text m close).
Proof.
  intros Hle Hlines. apply wellNested_leaf.
  unfold declarationInside, controlRange. simpl.
  rewrite newRange_positionAt by lia.
  rewrite newRange_ordered by apply positionAt_le_lineEnd.
  apply contains_ordered.
  - apply positionAt_le_lineEnd.
  - apply isBefore_irrefl.
  - pose proof (positionAt_mono document (index m) (close + 1) Hle) as Hm.
    rewrite isBefore_false in *. unfold lineEnd. simpl. lia.
Qed.

Lemma Forall_wellNested_True (l : list DocumentSymbol) :
  Forall wellNested l <-> Forall (fun c => True /\ wellNested c) l.
Proof.
  split; intros H; (eapply Forall_impl; [exact H|]); simpl; tauto.
Qed.

Lemma controlStep_wellNested (text : str) (symbols : list DocumentSymbol)
  (m : rmatch) :
  Forall wellNested symbols ->
  Forall wellNested (controlStep document text symbols m).
Proof.
  intros Hwn. unfold controlStep.
  destruct (findMatchingBrace text _) as [close|] eqn:Hclose; [|assumption].
  destruct (Z.eqb_spec (line (positionAt document (close + 1)))
                       (line (positionAt document (index m))))
    as [|Hlines]; [assumption|].
  apply findMatchingBrace_after in Hclose.
  pose proof (lastIndexOfChar_from_ge LBRACE (matched text m) 0 (-1)
                ltac:(lia) ltac:(lia)) as Hlast.
  fold (JSStr.lastIndexOfChar LBRACE (matched text m)) in Hlast.
  assert (Hc : wellNested (controlSymbolOf document text m close))
    by (apply controlSymbol_wellNested; [lia|assumption]).
  destruct (findEnclosingSymbol (controlRange document m close) symbols)
    as [ref|] eqn:Hfind.
  - destruct (findEnclosingSymbol_descent _ _ _ Hfind) as (parent & Hd).
    destruct (descent_lookupAt _ _ _ _ Hd) as [Hlook Hin].
    apply Forall_wellNested_True.
    apply alterAt_wellNested.
    + apply keepsFrame_pushChild.
    + tauto.
    + intros p Hp Hwp. assert (p = parent) as -> by congruence.
      apply wellNested_pushChild; [assumption| |assumption].
      unfold childInside. simpl. destruct (kind parent); assumption.
    + apply Forall_wellNested_True. assumption.
  - apply Forall_app. split; [assumption|]. constructor; [assumption|].
    constructor.
Qed.

Lemma processControlBlocks_wellNested (text : str) :
  forall (ms : list rmatch) (symbols : list DocumentSymbol),
    Forall wellNested symbols ->
    Forall wellNested (fold_left (controlStep document text) ms symbols).
Proof.
  induction ms as [|m ms IH]; intros symbols Hwn; cbn [fold_left];
    [assumption|].
  apply IH, controlStep_wellNested. assumption.
Qed.

(** The claim of containment, as stated, fails on a procedure that is
    declared outside the block of its namespace under a qualified name:
    it is made a child of the namespace symbol, and lies outside its
    span. *)
Lemma qualified_procedure_outside_namespace :
  let document :=
    doc ["namespace eval NS {"; "}"; "proc NS::f {} {"; "}"] in
  let f :=
    mkSymbol (lit "f") [] KFunction
             (mkRange (mkPosition 2 0) (mkPosition 3 1))
             (mkRange (mkPosition 2 0) (mkPosition 2 15)) [] in
  let NS :=
    mkSymbol (lit "NS") (lit "namespace") KNamespace
             (mkRange (mkPosition 0 0) (mkPosition 1 1))
             (mkRange (mkPosition 0 0) (mkPosition 0 19)) [f] in
  provideDocumentSymbols document = [NS] /\
  forallb accepted (provideDocumentSymbols document) = true /\
  contains (range NS) (range f) = false /\
  forallb containmentHolds (provideDocumentSymbols document) = false.
Proof. cbv zeta. repeat split; vm_compute; reflexivity. Qed.

End Containment.

Section OutlineContainment.
Import RegExp vscode TclDocumentSymbolProvider.

Lemma accepted_inv (s : DocumentSymbol) :
  accepted s = true ->
  validate s = true /\ forallb accepted (children s) = true.
Proof.
  destruct s as [n d k r sr cs]. cbn [accepted children].
  rewrite andb_true_iff. intros [Hv Hcs]. split; [exact Hv|]. clear Hv.
  induction cs as [|c cs IH]; [reflexivity|].
  apply andb_true_iff in Hcs. destruct Hcs as [Hc Hcs].
  cbn [forallb]. rewrite Hc. apply IH. exact Hcs.
Qed.

(** What the constructor checked stays true of the symbols of a tree that
    is well nested. *)
Lemma wellNested_accepted (s : DocumentSymbol) :
  wellNested s -> accepted s = true -> nested s.
Proof.
  induction s as [n d k r sr cs IH] using DocumentSymbol_tree_ind.
  intros Hwn Hacc. apply wellNested_inv in Hwn. destruct Hwn as [_ Hin].
  apply accepted_inv in Hacc. destruct Hacc as [Hv Hcs].
  unfold validate in Hv. apply andb_true_iff in Hv. destruct Hv as [_ Hv].
  constructor; [exact Hv|]. cbn [children] in *.
  induction cs as [|c cs IHcs]; [constructor|].
  apply Forall_cons in IH. destruct IH as [IHc IH].
  apply Forall_cons in Hin. destruct Hin as [[Hci Hcw] Hin].
  cbn [forallb] in Hcs. apply andb_true_iff in Hcs. destruct Hcs as [Hc Hcs].
  constructor; [split; [exact Hci|apply IHc; assumption]|].
  apply IHcs; assumption.
Qed.

(** C4 (amended). In every symbol tree the outline query returns, the
    declaration span of every symbol lies inside its span; every child of
    a procedure (its local variables and arrays, the control blocks
    attached to it) lies inside the span of the procedure; and every
    control block lies inside the span of the symbol it is attached to.
    Nothing is said of where the children of a namespace lie: a procedure
    declared under a qualified name goes under the namespace of that name
    wherever it is declared. The spans of variables, arrays and control
    blocks and the places of children are as the scans make them; for
    procedures and namespaces the declaration span is inside the span
    because the constructor let the symbol through. *)
Theorem outline_containment (document : TextDocument) :
  let outline := provideDocumentSymbols document in
  Forall wellNested outline /\
  (forallb accepted outline = true -> Forall nested outline).
Proof.
  assert (Hwn : Forall wellNested (provideDocumentSymbols document)).
  { unfold provideDocumentSymbols,
      processNamespaces,
      processProcedures,
      processGlobalVariables,
      processControlBlocks.
    cbv zeta.
    pose proof (processNamespaces_invariant document document
                  (execAll nsRegex document)
                  [] ∅ (Forall_nil_2 _)) as Hns.
    cbv zeta in Hns.
    destruct (fold_left (namespaceStep document document)
                        (execAll nsRegex document) ([], ∅))
      as [symbols namespaceMap].
    destruct Hns as [Hwn Hrefs].
    { intros n i Hn. rewrite lookup_empty in Hn. discriminate. }
    simpl in Hwn, Hrefs.
    apply processControlBlocks_wellNested, processGlobalVariables_wellNested.
    apply processProcedures_invariant; assumption. }
  cbv zeta. split; [exact Hwn|].
  induction Hwn as [|s l Hs _ IH]; intros Hacc; [constructor|].
  cbn [forallb] in Hacc. apply andb_true_iff in Hacc.
  destruct Hacc as [Ha Hl].
  constructor; [apply wellNested_accepted; assumption|apply IH; exact Hl].
Qed.

Lemma outline_containment_witness :
  let document :=
    doc ["namespace eval NS {"; "    variable x 5";
         "    proc add {a b} {"; "        set r [expr {$a+$b}]";
         "        if {$r > 0} {"; "            return $r"; "        }";
         "    }"; "}"] in
  forallb accepted (provideDocumentSymbols document) = true /\
  Forall nested (provideDocumentSymbols document).
Proof.
  cbv zeta. split; [vm_compute; reflexivity|].
  apply (outline_containment
           (doc ["namespace eval NS {"; "    variable x 5";
                 "    proc add {a b} {"; "        set r [expr {$a+$b}]";
                 "        if {$r > 0} {"; "            return $r";
                 "        }"; "    }"; "}"])).
  vm_compute. reflexivity.
Defined.

End OutlineContainment.

(** ** What stays in the outline *)

Section Reported.
Import RegExp RegExpNotations vscode TclDocumentSymbolProvider.


Lemma frame_keepsFrame (f : DocumentSymbol -> DocumentSymbol)
  (s : DocumentSymbol) :
  keepsFrame f -> frame (f s) = frame s.
Proof.
  intros Hf. destruct (Hf s) as (H1 & H2 & H3 & H4). unfold frame.
  rewrite H1, H2, H3, H4. reflexivity.
Qed.

Lemma keeps_refl (l : list DocumentSymbol) : keeps l l.
Proof. intros i s Hs. exists s. repeat split; eauto. Qed.

Lemma keeps_trans (l1 l2 l3 : list DocumentSymbol) :
  keeps l1 l2 -> keeps l2 l3 -> keeps l1 l3.
Proof.
  intros H12 H23 i s Hs.
  destruct (H12 i s Hs) as (s2 & Hs2 & Hf2 & Hc2).
  destruct (H23 i s2 Hs2) as (s3 & Hs3 & Hf3 & Hc3).
  exists s3. split; [assumption|]. split; [congruence|].
  intros j c Hc. destruct (Hc2 j c Hc) as (c2 & Hl2 & Hfc2).
  destruct (Hc3 j c2 Hl2) as (c3 & Hl3 & Hfc3).
  exists c3. split; [assumption|congruence].
Qed.


Lemma keeps_app (l extra : list DocumentSymbol) : keeps l (l ++ extra).
Proof.
  intros i s Hs. exists s. split; [apply lookup_app_l_Some; assumption|].
  split; [reflexivity|]. eauto.
Qed.

(** Changing a symbol where it stands keeps the list around it. *)
Lemma alterAt_lookup_frame (f : DocumentSymbol -> DocumentSymbol)
  (ref : SymbolRef) (l : list DocumentSymbol) (k : nat) (c : DocumentSymbol) :
  keepsFrame f -> l !! k = Some c ->
  exists c', alterAt ref f l !! k = Some c' /\ frame c' = frame c.
Proof.
  intros Hf Hk. destruct ref as [|i [|j ref]].
  - exists c. split; [assumption|reflexivity].
  - simpl. rewrite list_lookup_alter. destruct (decide (i = k)) as [->|].
    + rewrite Hk. exists (f c). split; [reflexivity|].
      apply frame_keepsFrame. assumption.
    + exists c. split; [assumption|reflexivity].
  - change (alterAt (i :: j :: ref) f l)
      with (alter (fun s => setChildren (alterAt (j :: ref) f (children s)) s)
                  i l).
    rewrite list_lookup_alter. destruct (decide (i = k)) as [->|].
    + rewrite Hk. eexists. split; [reflexivity|].
      apply (frame_keepsFrame
               (fun s => setChildren (alterAt (j :: ref) f (children s)) s)).
      apply keepsFrame_setChildren.
    + exists c. split; [assumption|reflexivity].
Qed.

Lemma keeps_alterAt_push (c : DocumentSymbol) (ref : SymbolRef)
  (l : list DocumentSymbol) :
  keeps l (alterAt ref (pushChild c) l).
Proof.
  destruct ref as [|i [|j ref]].
  - apply keeps_refl.
  - intros k s Hs. simpl. rewrite list_lookup_alter.
    destruct (decide (i = k)) as [->|].
    + rewrite Hs. exists (pushChild c s). split; [reflexivity|].
      split; [apply frame_keepsFrame, keepsFrame_pushChild|].
      intros j x Hx. exists x. rewrite pushChild_children.
      split; [apply lookup_app_l_Some; assumption|reflexivity].
    + exists s. split; [assumption|]. split; [reflexivity|]. eauto.
  - intros k s Hs.
    change (alterAt (i :: j :: ref) (pushChild c) l)
      with (alter (fun s => setChildren
                              (alterAt (j :: ref) (pushChild c) (children s)) s)
                  i l).
    rewrite list_lookup_alter. destruct (decide (i = k)) as [->|].
    + rewrite Hs. eexists. split; [reflexivity|]. split.
      * apply (frame_keepsFrame
                 (fun s => setChildren
                             (alterAt (j :: ref) (pushChild c) (children s))
                             s)).
        apply keepsFrame_setChildren.
      * intros j' x Hx. cbv beta. rewrite setChildren_children.
        apply alterAt_lookup_frame; [apply keepsFrame_pushChild|assumption].
    + exists s. split; [assumption|]. split; [reflexivity|]. eauto.
Qed.

Lemma keeps_length (l l' : list DocumentSymbol) :
  keeps l l' -> (length l <= length l')%nat.
Proof.
  intros Hk. destruct (Nat.le_gt_cases (length l) (length l')) as [|Hgt];
    [assumption|].
  destruct l as [|x l0] eqn:Hl; [simpl in Hgt; lia|]. rewrite <- Hl in *.
  destruct (lookup_lt_is_Some_2 l (length l - 1)) as [s Hs];
    [rewrite Hl; simpl; lia|].
  destruct (Hk _ _ Hs) as (s' & Hs' & _).
  apply lookup_lt_Some in Hs'. lia.
Qed.


(** *** The frame of a block symbol *)



Section Stages.
Variable document : TextDocument.
Variable text : str.

(** *** Namespaces *)



(** *** Procedures *)


(** *** Global variables and control blocks *)

Lemma globalVariables_keeps (symbols : list DocumentSymbol) :
  keeps symbols (processGlobalVariables document text symbols).
Proof.
  unfold processGlobalVariables. revert symbols.
  induction (execAll globalVarRegex text) as [|m ms IH]; intros symbols;
    cbn [fold_left]; [apply keeps_refl|].
  eapply keeps_trans; [|apply IH]. apply keeps_app.
Qed.

Lemma controlBlocks_keeps (symbols : list DocumentSymbol) :
  keeps symbols (processControlBlocks document text symbols).
Proof.
  unfold processControlBlocks. revert symbols.
  induction (execAll controlRegex text) as [|m ms IH]; intros symbols;
    cbn [fold_left]; [apply keeps_refl|].
  eapply keeps_trans; [|apply IH]. unfold controlStep.
  destruct (findMatchingBrace text _); [|apply keeps_refl].
  destruct (_ =? _); [apply keeps_refl|].
  destruct (findEnclosingSymbol _ symbols).
  - apply keeps_alterAt_push.
  - apply keeps_app.
Qed.

(** *** The names of the blocks *)

Lemma group_nonempty (m : rmatch) (n : nat) (r : regex) (i j : Z) :
  groups m !! n = Some (i, j) -> Matches text r i j -> 1 <= minLen r ->
  groupOf text m n = JS.substring text i j /\ groupOf text m n <> [].
Proof.
  intros Hg Hm Hmin. unfold groupOf, group. rewrite Hg. simpl.
  split; [reflexivity|].
  pose proof (Matches_minLen text _ _ _ Hm) as Hlen.
  destruct (Matches_bounds text _ _ _ Hm) as [_ Hin].
  specialize (Hin ltac:(lia)).
  pose proof (substring_length text i j ltac:(lia) ltac:(lia)) as Hl.
  intros He. rewrite He in Hl. unfold JS.len in Hl. simpl in Hl. lia.
Qed.

Lemma namespace_name_nonempty (m : rmatch) :
  In m (execAll nsRegex text) -> groupOf text m 1 <> [].
Proof.
  intros Hm. apply execAll_Captures in Hm. unfold nsRegex in Hm.
  apply Captures_Seq_inv in Hm as (s1 & _ & Hm).
  apply Captures_Seq_inv in Hm as (s2 & _ & Hm).
  apply Captures_Seq_inv in Hm as (s3 & _ & Hm).
  apply Captures_Seq_inv in Hm as (s4 & _ & Hm).
  apply Captures_Seq_inv in Hm as (s5 & _ & Hm).
  apply Captures_Seq_inv in Hm as (s6 & Hg & Hrest).
  apply Captures_group in Hg. destruct Hg as (j & Hcap & Hname).
  apply (Captures_frame text 1) in Hrest; [|reflexivity].
  simpl in Hrest. rewrite Hcap in Hrest.
  apply (group_nonempty m 1 _ _ _ Hrest Hname). simpl. lia.
Qed.



End Stages.

End Reported.

(** ** The scope of a variable reference *)

Section Characters.
Import RegExp RegExpNotations vscode TclDefinitionProvider.
Variable text : str.

Local Ltac chars_of_pattern :=
  simpl;
  repeat match goal with
         | |- _ /\ _ => split
         | |- True => exact I
         | |- forall c, _ = true -> _ =>
             let c := fresh "c" in
             let Hc := fresh "Hc" in
             intros c Hc
         | Hc : _ ?c = true |- ?c <> _ =>
             intros ->; vm_compute in Hc; discriminate Hc
         | |- _ <> _ => unfold LBRACE, RBRACE; discriminate
         end.

(** What a match read is made of the characters of the pattern. *)
Lemma Matches_charsIn (P : ascii -> Prop) (r : regex) (i j : Z) :
  Matches text r i j -> charsIn P r ->
  forall q, i <= q < j -> exists c, JS.charAt text q = Some c /\ P c.
Proof.
  induction 1 as [i|c i Hc|p c i Hc Hp|r1 r2 i j k H1 IH1 H2 IH2
                 |r1 r2 i j _ IH|r1 r2 i j _ IH|g r i
                 |g r i j k H1 IH1 Hlt H2 IH2|n r i j _ IH|i|i|i];
    simpl; intros HP q Hq; try lia.
  - assert (q = i) as -> by lia. eauto.
  - assert (q = i) as -> by lia. eauto.
  - destruct HP as [HP1 HP2].
    destruct (Z.lt_ge_cases q j); [apply IH1|apply IH2]; auto; lia.
  - apply IH; tauto.
  - apply IH; tauto.
  - destruct (Z.lt_ge_cases q j); [apply IH1|apply IH2]; auto; lia.
  - apply IH; auto.
Qed.

Lemma substring_Forall (P : ascii -> Prop) (a b : Z) :
  0 <= a <= b ->
  (forall q, a <= q < b -> exists c, JS.charAt text q = Some c /\ P c) ->
  Forall P (JS.substring text a b).
Proof.
  intros Hab. remember (Z.to_nat (b - a)) as n eqn:Hn.
  revert a Hab Hn. induction n as [|n IH]; intros a Hab Hn Hall.
  - assert (b = a) as -> by lia. rewrite substring_empty. constructor.
  - destruct (Hall a ltac:(lia)) as (c & Hc & HP).
    rewrite (substring_cons text a b c Hc) by lia.
    constructor; [assumption|]. apply IH; [lia|lia|].
    intros q Hq. apply Hall. lia.
Qed.

Lemma Matches_Seq_inv (r1 r2 : regex) (i k : Z) :
  Matches text (Seq r1 r2) i k ->
  exists j, Matches text r1 i j /\ Matches text r2 j k.
Proof. inversion 1; subst. eauto. Qed.

Lemma Matches_Lit_inv (c : ascii) (i j : Z) :
  Matches text (Lit c) i j -> JS.charAt text i = Some c /\ j = i + 1.
Proof. inversion 1; subst. auto. Qed.

Lemma braceDelta_nonneg (l : str) :
  Forall (fun c => c <> RBRACE) l -> 0 <= braceDelta l.
Proof.
  induction 1 as [|c l Hc _ IH]; simpl; [lia|].
  pose proof (braceStep_bound c) as Hb.
  pose proof (braceStep_close c) as Hcl.
  destruct (Z.eq_dec (braceStep c) (-1)) as [He|]; [|lia].
  apply Hcl in He. contradiction.
Qed.

Lemma braceDelta_zero (l : str) :
  Forall (fun c => c <> LBRACE /\ c <> RBRACE) l -> braceDelta l = 0.
Proof.
  induction 1 as [|c l [Ho Hc] _ IH]; simpl; [lia|].
  unfold braceStep.
  destruct (Ascii.eqb_spec c LBRACE); [contradiction|].
  destruct (Ascii.eqb_spec c RBRACE); [contradiction|]. lia.
Qed.

Lemma braceDelta_char (q : Z) (c : ascii) :
  JS.charAt text q = Some c ->
  braceDelta (JS.substring text q (q + 1)) = braceStep c.
Proof.
  intros Hc. rewrite (substring_cons text q (q + 1) c Hc) by lia.
  rewrite substring_empty. simpl. lia.
Qed.

Lemma braceDelta_split (a b c : Z) :
  0 <= a <= b -> b <= c -> c <= JS.len text ->
  braceDelta (JS.substring text a c)
  = braceDelta (JS.substring text a b) + braceDelta (JS.substring text b c).
Proof.
  intros. rewrite (substring_split text a b c) by lia. apply braceDelta_app.
Qed.

(** A procedure header, read from left to right, never closes more braces
    than it has opened, and ends with one brace open. *)
Lemma header_depth (i j : Z) :
  Matches text containingProcRegex i j ->
  0 <= i /\ i < j /\ j <= JS.len text /\
  (forall e, i <= e <= j -> 0 <= braceDelta (JS.substring text i e)) /\
  1 <= braceDelta (JS.substring text i j).
Proof.
  intros H.
  pose proof (Matches_minLen text _ _ _ H) as Hmin.
  change (minLen containingProcRegex) with 9 in Hmin.
  destruct (Matches_bounds text _ _ _ H) as [_ Hin].
  specialize (Hin ltac:(lia)). destruct Hin as [Hi Hj].
  unfold containingProcRegex in H.
  apply Matches_Seq_inv in H as (k1 & H1 & H).
  apply Matches_Seq_inv in H as (k2 & H2 & H).
  apply Matches_Seq_inv in H as (k3 & H3 & H).
  apply Matches_Seq_inv in H as (k4 & H4 & H).
  apply Matches_Seq_inv in H as (k5 & H5 & H).
  apply Matches_Seq_inv in H as (k6 & H6 & H).
  apply Matches_Seq_inv in H as (k7 & H7 & H).
  apply Matches_Seq_inv in H as (k8 & H8 & H9).
  apply Matches_Lit_inv in H5 as [Hc5 ->].
  apply Matches_Lit_inv in H7 as [Hc7 ->].
  apply Matches_Lit_inv in H9 as [Hc9 ->].
  pose proof (proj1 (Matches_bounds text _ _ _ H1)) as B1.
  pose proof (proj1 (Matches_bounds text _ _ _ H2)) as B2.
  pose proof (proj1 (Matches_bounds text _ _ _ H3)) as B3.
  pose proof (proj1 (Matches_bounds text _ _ _ H4)) as B4.
  pose proof (proj1 (Matches_bounds text _ _ _ H6)) as B6.
  pose proof (proj1 (Matches_bounds text _ _ _ H8)) as B8.
  set (noBrace := fun c : ascii => c <> LBRACE /\ c <> RBRACE).
  assert (N1 := Matches_charsIn noBrace _ _ _ H1
                  ltac:(unfold noBrace; chars_of_pattern)).
  assert (N2 := Matches_charsIn noBrace _ _ _ H2
                  ltac:(unfold noBrace; chars_of_pattern)).
  assert (N3 := Matches_charsIn noBrace _ _ _ H3
                  ltac:(unfold noBrace; chars_of_pattern)).
  assert (N4 := Matches_charsIn noBrace _ _ _ H4
                  ltac:(unfold noBrace; chars_of_pattern)).
  assert (N6 := Matches_charsIn (fun c => c <> RBRACE) _ _ _ H6
                  ltac:(chars_of_pattern)).
  assert (N8 := Matches_charsIn noBrace _ _ _ H8
                  ltac:(unfold noBrace; chars_of_pattern)).
  assert (F1 : forall a b, i <= a <= b -> b <= k4 ->
                 braceDelta (JS.substring text a b) = 0).
  { intros a b Hab Hb. apply braceDelta_zero, substring_Forall; [lia|].
    intros q Hq.
    destruct (Z.lt_ge_cases q k1); [apply N1; lia|].
    destruct (Z.lt_ge_cases q k2); [apply N2; lia|].
    destruct (Z.lt_ge_cases q k3); [apply N3; lia|apply N4; lia]. }
  assert (F3 : forall b, k4 + 1 <= b <= k6 ->
                 0 <= braceDelta (JS.substring text (k4 + 1) b)).
  { intros b Hb. apply braceDelta_nonneg, substring_Forall; [lia|].
    intros q Hq. apply N6. lia. }
  assert (F5 : forall b, k6 + 1 <= b <= k8 ->
                 braceDelta (JS.substring text (k6 + 1) b) = 0).
  { intros b Hb. apply braceDelta_zero, substring_Forall; [lia|].
    intros q Hq. apply N8. lia. }
  pose proof (braceDelta_char _ _ Hc5) as F2.
  pose proof (braceDelta_char _ _ Hc7) as F4.
  pose proof (braceDelta_char _ _ Hc9) as F6.
  change (braceStep LBRACE) with 1 in F2, F6.
  change (braceStep RBRACE) with (-1) in F4.
  pose proof (F1 i k4 ltac:(lia) ltac:(lia)) as E1.
  pose proof (F3 k6 ltac:(lia)) as E3.
  pose proof (F5 k8 ltac:(lia)) as E5.
  assert (S2 : forall e, k4 + 1 <= e -> e <= JS.len text ->
                 braceDelta (JS.substring text i e)
                 = 1 + braceDelta (JS.substring text (k4 + 1) e)).
  { intros e He1 He2.
    rewrite (braceDelta_split i k4 e) by lia.
    rewrite (braceDelta_split k4 (k4 + 1) e) by lia. lia. }
  assert (S3 : forall e, k6 + 1 <= e -> e <= JS.len text ->
                 braceDelta (JS.substring text i e)
                 = braceDelta (JS.substring text (k4 + 1) k6)
                   + braceDelta (JS.substring text (k6 + 1) e)).
  { intros e He1 He2. rewrite S2 by lia.
    rewrite (braceDelta_split (k4 + 1) k6 e) by lia.
    rewrite (braceDelta_split k6 (k6 + 1) e) by lia. lia. }
  repeat split; try lia.
  - intros e He.
    destruct (Z.le_gt_cases e k4); [rewrite F1; lia|].
    destruct (Z.le_gt_cases e k6) as [Hle|Hgt].
    { rewrite S2 by lia. specialize (F3 e ltac:(lia)). lia. }
    rewrite S3 by lia.
    destruct (Z.le_gt_cases e k8) as [Hle'|Hgt'].
    { rewrite F5 by lia. lia. }
    assert (e = k8 + 1) as -> by lia.
    rewrite (braceDelta_split (k6 + 1) k8 (k8 + 1)) by lia. lia.
  - rewrite S3 by lia.
    rewrite (braceDelta_split (k6 + 1) k8 (k8 + 1)) by lia. lia.
Qed.

(** A header that starts inside a braced block has its own block end
    before that block does. *)
Lemma nested_blocks (bA eA i j eB : Z) :
  -1 <= bA -> findMatchingBrace text bA = Some eA ->
  bA < i -> i <= eA ->
  Matches text containingProcRegex i j ->
  findMatchingBrace text (j - 1) = Some eB ->
  j - 1 < eA /\ eB < eA.
Proof.
  intros HbA HfA Hlt Hle Hm HfB.
  pose proof (findMatchingBrace_spec text bA HbA) as SA.
  rewrite HfA in SA. destruct SA as (RA & CA & DA & PA).
  destruct (header_depth i j Hm) as (Hi & Hij & Hj & Hpre & Htot).
  pose proof (findMatchingBrace_spec text (j - 1) ltac:(lia)) as SB.
  rewrite HfB in SB. destruct SB as (RB & CB & DB & PB).
  unfold depthAt in *.
  assert (D0 : 1 <= 1 + braceDelta (JS.substring text (bA + 1) i)).
  { destruct (Z.eq_dec i (bA + 1)) as [->|].
    - rewrite substring_empty. simpl. lia.
    - specialize (PA (i - 1) ltac:(lia)).
      replace (i - 1 + 1) with i in PA by lia. lia. }
  assert (Hout : j - 1 < eA).
  { destruct (Z.lt_ge_cases (j - 1) eA); [assumption|]. exfalso.
    specialize (Hpre (eA + 1) ltac:(lia)).
    rewrite (braceDelta_split (bA + 1) i (eA + 1)) in DA by lia. lia. }
  split; [assumption|].
  rewrite (braceDelta_split (bA + 1) i (eA + 1)) in DA by lia.
  rewrite (braceDelta_split i j (eA + 1)) in DA by lia.
  destruct (Z.lt_ge_cases eB eA); [assumption|]. exfalso.
  destruct (Z.eq_dec eA eB) as [->|].
  - replace (j - 1 + 1) with j in DB by lia. lia.
  - specialize (PB eA ltac:(lia)).
    replace (j - 1 + 1) with j in PB by lia. lia.
Qed.

End Characters.

Section ScopePositions.
Import RegExp RegExpNotations vscode TclDefinitionProvider.

(** The character before a position is the one before it on its line. *)
Lemma positionAt_aux_prev (t : str) :
  forall (n : nat) (c : ascii),
    t !! n = Some c -> c <> NL ->
    let p := positionAt_aux t (S n) 0 0 in
    1 <= character p /\ 0 <= line p /\
    exists l, splitLines t !! Z.to_nat (line p) = Some l /\
              l !! Z.to_nat (character p - 1) = Some c.
Proof.
  induction t as [|c0 t IH]; intros n c Hl Hc; [discriminate|].
  destruct n as [|n].
  - simpl in Hl. injection Hl as ->. cbv zeta. simpl positionAt_aux.
    destruct (Ascii.eqb_spec c NL) as [|_]; [contradiction|].
    replace (positionAt_aux t 0 0 (0 + 1)) with (mkPosition 0 1)
      by (destruct t; reflexivity).
    simpl. split; [lia|]. split; [lia|].
    destruct (Ascii.eqb_spec c NL) as [|_]; [contradiction|].
    destruct (splitLines t) as [|l0 ls]; eexists; split; reflexivity.
  - simpl in Hl. specialize (IH n c Hl Hc). cbv zeta in IH.
    destruct IH as (Hch & Hln & l & Hlook & Hget).
    cbv zeta. cbn [positionAt_aux]. change (0 + 1) with 1.
    destruct (Ascii.eqb c0 NL) eqn:Hnl.
    + rewrite (positionAt_aux_shift t (S n) 1 0). cbv zeta.
      cbn [line character].
      replace (if line (positionAt_aux t (S n) 0 0) =? 0
               then 0 + character (positionAt_aux t (S n) 0 0)
               else character (positionAt_aux t (S n) 0 0))
        with (character (positionAt_aux t (S n) 0 0))
        by (destruct (_ =? _); lia).
      split; [assumption|]. split; [lia|].
      exists l. split; [|assumption].
      replace (Z.to_nat (1 + line (positionAt_aux t (S n) 0 0)))
        with (S (Z.to_nat (line (positionAt_aux t (S n) 0 0)))) by lia.
      cbn [splitLines]. rewrite Hnl. exact Hlook.
    + rewrite (positionAt_aux_shift t (S n) 0 1). cbv zeta.
      cbn [line character]. cbn [splitLines]. rewrite Hnl.
      destruct (splitLines t) as [|l0 ls] eqn:Hs;
        [exfalso; eapply splitLines_nonempty; eassumption|].
      destruct (Z.eqb_spec (line (positionAt_aux t (S n) 0 0)) 0) as [He|Hne].
      * rewrite He in *. simpl in Hlook. injection Hlook as ->.
        split; [lia|]. split; [lia|]. exists (c0 :: l).
        split; [reflexivity|].
        replace (Z.to_nat (1 + character (positionAt_aux t (S n) 0 0) - 1))
          with (S (Z.to_nat (character (positionAt_aux t (S n) 0 0) - 1)))
          by lia.
        exact Hget.
      * split; [assumption|]. split; [lia|]. exists l.
        split; [|assumption].
        replace (0 + line (positionAt_aux t (S n) 0 0))
          with (line (positionAt_aux t (S n) 0 0)) by lia.
        destruct (Z.to_nat (line (positionAt_aux t (S n) 0 0))) as [|k] eqn:Hk;
          [lia|].
        exact Hlook.
Qed.

Lemma positionAt_prev_char (t : str) (o : Z) (c : ascii) :
  JS.charAt t o = Some c -> c <> NL ->
  let p := positionAt t (o + 1) in
  1 <= character p /\
  JS.charAt (lineText t (line p)) (character p - 1) = Some c.
Proof.
  intros Hc Hnl. pose proof (charAt_Some_range _ _ _ Hc) as Ho.
  unfold JS.charAt in Hc. destruct (Z.ltb_spec o 0) as [?|_]; [lia|].
  cbv zeta. unfold positionAt.
  replace (Z.to_nat (o + 1)) with (S (Z.to_nat o)) by lia.
  destruct (positionAt_aux_prev t (Z.to_nat o) c Hc Hnl)
    as (Hch & Hln & l & Hlook & Hget).
  split; [assumption|]. unfold lineText, JS.charAt.
  destruct (Z.ltb_spec (line (positionAt_aux t (S (Z.to_nat o)) 0 0)) 0)
    as [?|_]; [lia|].
  destruct (Z.ltb_spec (character (positionAt_aux t (S (Z.to_nat o)) 0 0) - 1) 0)
    as [?|_]; [lia|].
  rewrite Hlook. exact Hget.
Qed.

(** A column that comes right after a closing brace is no part of a
    variable reference. *)
Lemma isVariableReference_after_brace (lineText : str) (charPos : Z) :
  1 <= charPos ->
  JS.charAt lineText (charPos - 1) = Some RBRACE ->
  isVariableReference lineText charPos = false.
Proof.
  intros Hpos Hc. unfold isVariableReference.
  replace (Z.to_nat charPos) with (S (Z.to_nat (charPos - 1))) by lia.
  cbn [isVariableReference_from]. rewrite Z2Nat.id by lia. rewrite Hc.
  reflexivity.
Qed.

End ScopePositions.

Section ScopeSearch.
Import RegExp RegExpNotations vscode TclDefinitionProvider.
Variable document : TextDocument.
Variable position : Position.

(** The span of a header the pattern matched, in offsets. *)
Lemma procRangeOf_spec (m : rmatch) (r : Range) :
  In m (execAll containingProcRegex document) ->
  procRangeOf document document m = Some r ->
  exists e,
    findMatchingBrace document (endIndex m - 1) = Some e /\
    0 <= index m /\ index m < endIndex m /\ endIndex m - 1 < e /\
    e < JS.len document /\
    Matches document containingProcRegex (index m) (endIndex m) /\
    r = mkRange (positionAt document (index m)) (positionAt document (e + 1)).
Proof.
  intros Hin Hr. apply execAll_Matches in Hin.
  destruct Hin as (H0 & H1 & H2 & Hm).
  pose proof (Matches_minLen _ _ _ _ Hm) as Hmin.
  change (minLen containingProcRegex) with 9 in Hmin.
  unfold procRangeOf in Hr. rewrite matched_length in Hr by assumption.
  replace (index m + (endIndex m - index m) - 1) with (endIndex m - 1)
    in Hr by lia.
  pose proof (findMatchingBrace_spec document (endIndex m - 1) ltac:(lia))
    as Hspec.
  destruct (findMatchingBrace document (endIndex m - 1)) as [e|] eqn:Hf;
    [|discriminate].
  destruct Hspec as (He & _).
  unfold truthy in Hr. destruct (Z.eqb_spec e 0) as [?|_]; [lia|].
  injection Hr as <-. exists e.
  rewrite newRange_positionAt by lia.
  repeat split; try assumption; lia.
Qed.

Hypothesis reference :
  isVariableReference (lineText document (line position))
                      (character position) = true.

(** Two spans that hold a variable reference are nested: the one whose
    header comes later in the text lies inside the other. *)
Lemma spans_nested (ma mb : rmatch) (ra rb : Range) :
  In ma (execAll containingProcRegex document) ->
  In mb (execAll containingProcRegex document) ->
  endIndex ma <= index mb ->
  procRangeOf document document ma = Some ra ->
  procRangeOf document document mb = Some rb ->
  containsPosition ra position = true ->
  containsPosition rb position = true ->
  inside ra rb.
Proof.
  intros Hina Hinb Hord Hra Hrb Hca Hcb.
  destruct (procRangeOf_spec ma ra Hina Hra)
    as (eA & HfA & A0 & A1 & A2 & A3 & HmA & ->).
  destruct (procRangeOf_spec mb rb Hinb Hrb)
    as (eB & HfB & B0 & B1 & B2 & B3 & HmB & ->).
  apply containsPosition_spec in Hca, Hcb. cbn [start end_] in Hca, Hcb.
  destruct Hca as [HA1 HA2]. destruct Hcb as [HB1 HB2].
  destruct (Matches_bounds _ _ _ _ HmB) as [_ HinB].
  specialize (HinB ltac:(lia)).
  assert (Hle : index mb <= eA + 1).
  { apply (positionAt_inj_le document); [lia|lia|].
    eapply notBefore_trans; eassumption. }
  pose proof (findMatchingBrace_spec document (endIndex ma - 1) ltac:(lia))
    as SA.
  rewrite HfA in SA. destruct SA as (_ & Hclose & _).
  destruct (Z.eq_dec (index mb) (eA + 1)) as [Heq|Hne].
  - exfalso. rewrite Heq in HB1.
    assert (Hpos : position = positionAt document (eA + 1))
      by (apply isBefore_antisym; assumption).
    destruct (positionAt_prev_char document eA RBRACE Hclose
                ltac:(unfold RBRACE, NL; discriminate)) as [Hch Hprev].
    rewrite <- Hpos in Hch, Hprev.
    rewrite (isVariableReference_after_brace _ _ Hch Hprev) in reference.
    discriminate.
  - destruct (nested_blocks document (endIndex ma - 1) eA (index mb)
                (endIndex mb) eB ltac:(lia) HfA ltac:(lia) ltac:(lia)
                HmB HfB) as [_ Hlt].
    split; cbn [start end_]; apply positionAt_strict; lia.
Qed.

(** The spans that hold the reference, in the order of their headers. *)
Lemma candidates_nested (ms : list rmatch) :
  forall lo,
    chained document lo ms ->
    (forall m, In m ms -> In m (execAll containingProcRegex document)) ->
    ForallOrdPairs inside
      (List.filter (fun r => containsPosition r position)
                   (omap (procRangeOf document document) ms)).
Proof.
  induction ms as [|m ms IH]; intros lo Hch Hall; [constructor|].
  inversion Hch as [|? ? Hlo Hle Hlen Htail]; subst.
  assert (IH' := IH _ Htail (fun m' Hm' => Hall m' (or_intror Hm'))).
  cbn [omap list_omap].
  destruct (procRangeOf document document m) as [r|] eqn:Hr; [|exact IH'].
  cbn [List.filter].
  destruct (containsPosition r position) eqn:Hc; [|exact IH'].
  constructor; [|exact IH'].
  apply List.Forall_forall. intros rb Hrb.
  apply List.filter_In in Hrb. destruct Hrb as [Hrb Hcb].
  apply list_elem_of_In, list_elem_of_omap in Hrb.
  destruct Hrb as (mb & Hmb & Hrb). apply list_elem_of_In in Hmb.
  eapply (spans_nested m mb); try eassumption.
  - apply Hall. left. reflexivity.
  - apply Hall. right. assumption.
  - pose proof (chained_In _ _ _ _ Htail Hmb). lia.
Qed.

(** The loop ends on the last span that holds the reference. *)
Lemma fold_last_nested (ms : list rmatch) :
  forall best : option Range,
    let candidates :=
      List.filter (fun r => containsPosition r position)
                  (omap (procRangeOf document document) ms) in
    ForallOrdPairs inside candidates ->
    (forall b, best = Some b -> Forall (inside b) candidates) ->
    fold_left (containingStep document document position) ms best
    = match last candidates with
      | Some r => Some r
      | None => best
      end.
Proof.
  induction ms as [|m ms IH]; intros best candidates Hfop Hbest;
    [reflexivity|].
  subst candidates. cbn [fold_left]. unfold containingStep at 2.
  cbn [omap list_omap] in *.
  destruct (procRangeOf document document m) as [r|] eqn:Hr;
    [|apply IH; assumption].
  cbn [List.filter] in *.
  destruct (containsPosition r position) eqn:Hc; [|apply IH; assumption].
  inversion Hfop as [|? ? Hhead Htail]; subst.
  assert (Hnew : match best with
                 | Some best0 =>
                     if isBefore (end_ r) (end_ best0)
                        && isAfter (start r) (start best0)
                     then Some r else Some best0
                 | None => Some r
                 end = Some r).
  { destruct best as [b|]; [|reflexivity].
    specialize (Hbest b eq_refl). inversion Hbest as [|? ? [Hs He] _]; subst.
    unfold isAfter. rewrite Hs, He. reflexivity. }
  rewrite Hnew. rewrite IH; [|assumption|].
  - rewrite last_cons. destruct (last _); reflexivity.
  - intros b Hb. injection Hb as <-. assumption.
Qed.

Lemma last_tightest (spans : list Range) (r : Range) :
  ForallOrdPairs inside spans -> last spans = Some r -> tightest r spans.
Proof.
  induction 1 as [|a spans Hhead Htail IH]; intros Hlast; [discriminate|].
  rewrite last_cons in Hlast.
  destruct (last spans) as [r'|] eqn:Hl.
  - injection Hlast as ->. destruct (IH eq_refl) as [Hin Hall].
    split; [right; assumption|].
    intros s [<-|Hs]; [|apply Hall; assumption].
    rewrite List.Forall_forall in Hhead. destruct (Hhead r Hin) as [Hs He].
    split; apply isBefore_asym; assumption.
  - injection Hlast as ->. apply last_None in Hl. subst spans.
    split; [left; reflexivity|].
    intros s [<-|[]]. split; apply isBefore_irrefl.
Qed.

(** The scope of a variable reference is the tightest span that holds it,
    and there is none only when no span holds it. *)
Lemma scope_tightest :
  match getContainingProcedureRange document position with
  | Some r => tightest r (containingSpans document position)
  | None => containingSpans document position = []
  end.
Proof.
  assert (Hfop : ForallOrdPairs inside (containingSpans document position)).
  { apply (candidates_nested _ 0); [apply execAll_chained|tauto]. }
  unfold getContainingProcedureRange. cbv zeta.
  rewrite fold_last_nested; [|exact Hfop|discriminate].
  fold (procSpans document). fold (containingSpans document position).
  destruct (last (containingSpans document position)) as [r|] eqn:Hl.
  - apply last_tightest; assumption.
  - apply last_None. assumption.
Qed.

End ScopeSearch.

Section ScopedLookup.
Import RegExp RegExpNotations vscode Host TclDefinitionProvider.

(** The word under the cursor is made of word characters and colons. *)
Lemma word_chars (document : TextDocument) (position : Position) (word : str) :
  getWordAtPosition document position = Some word ->
  Forall (fun c => wordOrColon c = true) word.
Proof.
  unfold getWordAtPosition. cbv zeta.
  destruct (filter _ _) as [|m ms] eqn:Hf; [discriminate|].
  intros Hw. injection Hw as <-.
  assert (Hin : m ∈ m :: ms) by (left; reflexivity).
  rewrite <- Hf in Hin. apply list_elem_of_filter in Hin.
  destruct Hin as [_ Hin]. apply list_elem_of_In, execAll_Matches in Hin.
  destruct Hin as (H0 & H1 & H2 & Hm).
  unfold matched. apply substring_Forall; [lia|].
  apply (Matches_charsIn _ _ _ _ _ Hm).
  simpl. split; intros c Hc; exact Hc.
Qed.

Lemma word_not_array (word : str) :
  Forall (fun c => wordOrColon c = true) word ->
  JSStr.includes word (lit "(") = false.
Proof.
  intros Hall. unfold JSStr.includes, JSStr.indexOf.
  assert (H : forall i, JSStr.indexOf_from (lit "(") word i = -1);
    [|rewrite H; reflexivity].
  induction Hall as [|c w Hc _ IH]; intros i; [reflexivity|].
  cbn [JSStr.indexOf_from JSStr.startsWith lit list_ascii_of_string].
  destruct (Ascii.eqb_spec "(" c) as [<-|_];
    [vm_compute in Hc; discriminate Hc|].
  apply IH.
Qed.

(** A name with no [::] in it does not start with one. *)
Lemma unqualified_not_global (word : str) :
  JSStr.includes word (lit "::") = false ->
  JSStr.startsWith word (lit "::") = false.
Proof.
  unfold JSStr.includes, JSStr.indexOf. intros H.
  destruct (JSStr.startsWith word (lit "::")) eqn:Hs; [|reflexivity].
  destruct word; cbn [JSStr.indexOf_from] in H; rewrite Hs in H;
    discriminate H.
Qed.

(** [findVariableDefinition], for a name that is no array element and does
    not start with [::], is the lookup of the specification. *)
Lemma findVariableDefinition_scoped
  (document : TextDocument) (position : Position) (word : str) :
  JSStr.startsWith word (lit "::") = false ->
  JSStr.includes word (lit "(") = false ->
  findVariableDefinition document word position
  = scopedLookup document word
                 (getContainingProcedureRange document position).
Proof.
  intros Hglobal Harray.
  unfold findVariableDefinition, scopedLookup, declarationIn. cbv zeta.
  rewrite Hglobal, Harray.
  destruct (getContainingProcedureRange document position) as [r|].
  - destruct (exec (setRegex word) (getText document r) 0); [reflexivity|].
    destruct (exec (variableRegex word) (getText document r) 0);
      [reflexivity|].
    destruct (exec (setRegex word) document 0); [reflexivity|].
    destruct (exec (variableRegex word) document 0); reflexivity.
  - destruct (exec (setRegex word) document 0); [reflexivity|].
    destruct (exec (variableRegex word) document 0); reflexivity.
Qed.

End ScopedLookup.

Section VariableScope.
Import RegExp RegExpNotations vscode Host TclDefinitionProvider.

(** C3. For a variable reference whose name does not start with [::]
    (every unqualified name is one), the scope the lookup computes is the
    tightest of the procedure spans that hold the reference position: one
    of them, with no such span starting later and none ending earlier;
    there is no scope only when no span holds the position. The lookup
    returns the first declaration inside the scope and goes to the whole
    document only when the scope has none; a [set] of the name inside the
    scope is what is returned, whatever the rest of the document declares,
    and its location lies inside the scope. *)
Theorem variable_scope_lookup
  (document : TextDocument) (position : Position) (word : str) :
  getWordAtPosition document position = Some word ->
  isVariableReference (lineText document (line position))
                      (character position) = true ->
  JSStr.startsWith word (lit "::") = false ->
  let scope := getContainingProcedureRange document position in
  match scope with
  | Some r => tightest r (containingSpans document position)
  | None => containingSpans document position = []
  end /\
  provideDefinition document position
  = ret (scopedLookup document word scope) /\
  forall r m,
    scope = Some r ->
    exec (setRegex word) (getText document r) 0 = Some m ->
    exists l,
      provideDefinition document position = ret (Some l) /\
      Matches (getText document r) (setRegex word) (index m) (endIndex m) /\
      start (locRange l)
      = positionAt document (offsetAt document (start r) + index m) /\
      containsPosition r (start (locRange l)) = true.
Proof.
  intros Hword Href Hglobal scope.
  pose proof (scope_tightest document position Href) as Htight.
  fold scope in Htight.
  assert (Hdef : provideDefinition document position
                 = ret (scopedLookup document word scope)).
  { unfold provideDefinition. rewrite Hword. cbv zeta. rewrite Href.
    rewrite findVariableDefinition_scoped;
      [reflexivity|assumption|].
    apply word_not_array. eapply word_chars. eassumption. }
  split; [exact Htight|]. split; [exact Hdef|].
  intros r m Hscope Hexec. rewrite Hscope in Htight.
  destruct Htight as [Hin _].
  apply List.filter_In in Hin. destruct Hin as [Hin _].
  apply list_elem_of_In, list_elem_of_omap in Hin.
  destruct Hin as (pm & Hpm & Hr). apply list_elem_of_In in Hpm.
  destruct (procRangeOf_spec document pm r Hpm Hr)
    as (e & _ & P0 & P1 & P2 & P3 & _ & ->).
  unfold getText in *. cbn [start end_] in *.
  rewrite !offsetAt_positionAt in * by lia.
  destruct (exec_Matches _ _ 0 m (Z.le_refl 0) Hexec) as (M0 & M1 & M2 & Hm).
  rewrite substring_length in M2 by lia.
  pose proof (len_nonneg (matched (JS.substring document (index pm) (e + 1)) m))
    as Hlen.
  eexists. split; [|split; [exact Hm|]].
  - rewrite Hdef, Hscope. unfold scopedLookup, declarationIn. cbv zeta.
    unfold getText. cbn [start end_].
    rewrite !offsetAt_positionAt by lia. rewrite Hexec. reflexivity.
  - unfold locationOf. cbn [locRange].
    rewrite newRange_positionAt by lia. cbn [start].
    split; [reflexivity|].
    apply containsPosition_spec. cbn [start end_].
    split; apply positionAt_mono; lia.
Qed.

Lemma variable_scope_lookup_witness :
  let document :=
    doc ["namespace eval ns {"; "  variable x 0"; "  proc f {} {";
         "    set x 1"; "    puts $x"; "  }"; "}"] in
  let position := mkPosition 4 10 in
  let scope := mkRange (mkPosition 2 2) (mkPosition 5 3) in
  getWordAtPosition document position = Some (lit "x") /\
  isVariableReference (lineText document (line position))
                      (character position) = true /\
  getContainingProcedureRange document position = Some scope /\
  tightest scope (containingSpans document position) /\
  provideDefinition document position
  = ret (Some (mkLocation 0 (mkRange (mkPosition 3 4) (mkPosition 3 11)))).
Proof.
  cbv zeta.
  assert (Hword :
    getWordAtPosition
      (doc ["namespace eval ns {"; "  variable x 0"; "  proc f {} {";
            "    set x 1"; "    puts $x"; "  }"; "}"])
      (mkPosition 4 10) = Some (lit "x")) by (vm_compute; reflexivity).
  assert (Href :
    isVariableReference
      (lineText
         (doc ["namespace eval ns {"; "  variable x 0"; "  proc f {} {";
               "    set x 1"; "    puts $x"; "  }"; "}"])
         (line (mkPosition 4 10)))
      (character (mkPosition 4 10)) = true) by (vm_compute; reflexivity).
  assert (Hscope :
    getContainingProcedureRange
      (doc ["namespace eval ns {"; "  variable x 0"; "  proc f {} {";
            "    set x 1"; "    puts $x"; "  }"; "}"])
      (mkPosition 4 10)
    = Some (mkRange (mkPosition 2 2) (mkPosition 5 3)))
    by (vm_compute; reflexivity).
  destruct (variable_scope_lookup _ _ _ Hword Href eq_refl)
    as (Htight & Hdef & _).
  rewrite Hscope in Htight, Hdef.
  split; [exact Hword|]. split; [exact Href|]. split; [exact Hscope|].
  split; [exact Htight|].
  rewrite Hdef. vm_compute. reflexivity.
Defined.

End VariableScope.

(** * More of the providers *)

(** ** The matcher finds what there is to find *)

Section MatcherComplete.
Import RegExp.
Variable text : str.

(** A stretch the pattern matches is found by the matcher, whatever the
    captures it starts with, as long as the continuation takes the end of
    the stretch. For a quantified atom the same holds with any number of
    turns that covers the characters left. *)
Lemma matcher_complete (r : regex) (i j : Z) :
  Matches text r i j ->
  forall (s : mstate) (k : cont),
    pos s = i ->
    (forall c, is_Some (k (mkState j c))) ->
    is_Some (matcher text r s k) /\
    forall g r', r = Repeat g r' ->
      forall n : nat, JS.len text - i <= Z.of_nat n ->
        is_Some (repeatMatcher (matcher text r') g n s k).
Proof.
  induction 1 as [i|c i Hc|p c i Hc Hp|r1 r2 i j k0 H1 IH1 H2 IH2
                 |r1 r2 i j _ IH|r1 r2 i j _ IH|g0 r i
                 |g0 r i j k0 H1 IH1 Hlt H2 IH2|n0 r i j _ IH|i Ha|i Ha|i Ha];
    intros s k Hs Hk.
  - split; [|discriminate]. simpl. destruct s as [p c]. simpl in Hs.
    subst p. apply Hk.
  - split; [|discriminate]. simpl. rewrite Hs, Hc. simpl.
    rewrite Ascii.eqb_refl. apply Hk.
  - split; [|discriminate]. simpl. rewrite Hs, Hc, Hp. apply Hk.
  - split; [|discriminate]. simpl.
    apply (IH1 s (fun s' => matcher text r2 s' k) Hs).
    intros c. apply (IH2 (mkState j c) k eq_refl Hk).
  - split; [|discriminate]. simpl. unfold orElse.
    destruct (IH s k Hs Hk) as [[x Hx] _]. rewrite Hx. eauto.
  - split; [|discriminate]. simpl. unfold orElse.
    destruct (matcher text r1 s k); [eauto|]. apply (IH s k Hs Hk).
  - assert (Hany : forall n : nat,
               is_Some (repeatMatcher (matcher text r) g0 n s k)).
    { intros n. destruct s as [p c]. simpl in Hs. subst p.
      destruct n as [|n]; simpl; [apply Hk|].
      destruct (Hk c) as [x Hx]. unfold orElse.
      destruct g0; [|rewrite Hx; eauto].
      destruct (matcher text r _ _); [eauto|]. rewrite Hx. eauto. }
    split; [apply Hany|]. intros g r' Heq n _. injection Heq as <- <-.
    apply Hany.
  - destruct (Matches_bounds text _ _ _ H1) as [_ Hin].
    specialize (Hin Hlt).
    assert (Hany : forall n : nat,
               JS.len text - i <= Z.of_nat n ->
               is_Some (repeatMatcher (matcher text r) g0 n s k)).
    { intros n Hn. destruct n as [|n]; [lia|]. simpl.
      assert (Hagain :
        is_Some (matcher text r s
                   (fun s' => if pos s <? pos s'
                              then repeatMatcher (matcher text r) g0 n s' k
                              else None))).
      { apply (IH1 s _ Hs). intros c. simpl. rewrite Hs.
        destruct (Z.ltb_spec i j) as [_|?]; [|lia].
        apply (proj2 (IH2 (mkState j c) k eq_refl Hk) g0 r eq_refl). lia. }
      destruct Hagain as [x Hx]. unfold orElse.
      destruct g0; [rewrite Hx; eauto|].
      destruct (k s); [eauto|]. rewrite Hx. eauto. }
    split.
    + simpl. apply Hany. rewrite Hs. lia.
    + intros g r' Heq n Hn. injection Heq as <- <-. apply Hany. exact Hn.
  - split; [|discriminate]. simpl.
    apply (IH s _ Hs). intros c. simpl. apply Hk.
  - split; [|discriminate]. simpl. rewrite Hs, Ha.
    destruct s as [p c]. simpl in Hs. subst p. apply Hk.
  - split; [|discriminate]. simpl. rewrite Hs, Ha.
    destruct s as [p c]. simpl in Hs. subst p. apply Hk.
  - split; [|discriminate]. simpl. rewrite Hs, Ha.
    destruct s as [p c]. simpl in Hs. subst p. apply Hk.
Qed.

Lemma matchAt_complete (r : regex) (i j : Z) :
  Matches text r i j -> is_Some (matchAt r text i).
Proof.
  intros Hm. unfold matchAt.
  destruct (matcher_complete r i j Hm (mkState i ∅) Some eq_refl) as [[x Hx] _].
  { intros c. eauto. }
  rewrite Hx. eauto.
Qed.

Lemma matchAt_None (r : regex) (i : Z) :
  matchAt r text i = None -> forall j, ~ Matches text r i j.
Proof.
  intros Hn j Hm. destruct (matchAt_complete r i j Hm) as [x Hx]. congruence.
Qed.

(** [execFrom] returns the match at the first start that has one. *)
Lemma execFrom_leftmost (r : regex) :
  forall (fuel : nat) (lo : Z) (m : rmatch),
    execFrom fuel r text lo = Some m ->
    forall i j, lo <= i < index m -> ~ Matches text r i j.
Proof.
  induction fuel as [|fuel IH]; intros lo m H i j Hi; simpl in H.
  - destruct (matchAt r text lo) as [m'|] eqn:Hm; [|discriminate].
    injection H as ->. apply matchAt_Matches in Hm. lia.
  - destruct (matchAt r text lo) as [m'|] eqn:Hm.
    + injection H as ->. apply matchAt_Matches in Hm. lia.
    + destruct (Z.eq_dec i lo) as [->|Hne].
      * apply matchAt_None. assumption.
      * apply (IH _ _ H). lia.
Qed.

Lemma execFrom_None (r : regex) :
  forall (fuel : nat) (lo : Z),
    execFrom fuel r text lo = None ->
    forall i j, lo <= i <= lo + Z.of_nat fuel -> ~ Matches text r i j.
Proof.
  induction fuel as [|fuel IH]; intros lo H i j Hi; simpl in H.
  - destruct (matchAt r text lo) as [m'|] eqn:Hm; [discriminate|].
    assert (i = lo) as -> by lia. apply matchAt_None. assumption.
  - destruct (matchAt r text lo) as [m'|] eqn:Hm; [discriminate|].
    destruct (Z.eq_dec i lo) as [->|Hne].
    + apply matchAt_None. assumption.
    + apply (IH _ H). lia.
Qed.

Lemma execFrom_complete (r : regex) :
  forall (fuel : nat) (lo i j : Z),
    lo <= i <= lo + Z.of_nat fuel -> Matches text r i j ->
    is_Some (execFrom fuel r text lo).
Proof.
  intros fuel lo i j Hi Hm.
  destruct (execFrom fuel r text lo) as [m|] eqn:He; [eauto|].
  exfalso. eapply execFrom_None; eassumption.
Qed.

(** [exec] answers [null] exactly when the pattern matches nowhere from
    [lastIndex] on, and otherwise with the match that starts first. *)
Lemma exec_leftmost (r : regex) (lastIndex : Z) (m : rmatch) :
  exec r text lastIndex = Some m ->
  forall i j, lastIndex <= i < index m -> ~ Matches text r i j.
Proof.
  unfold exec. destruct (JS.len text <? lastIndex); [discriminate|].
  apply execFrom_leftmost.
Qed.

Lemma exec_None_iff (r : regex) (lastIndex : Z) :
  0 <= lastIndex -> 1 <= minLen r ->
  exec r text lastIndex = None <->
  forall i j, lastIndex <= i -> ~ Matches text r i j.
Proof.
  intros Hli Hmin. unfold exec. split.
  - intros H i j Hi Hm.
    pose proof (Matches_minLen text _ _ _ Hm) as Hlen.
    destruct (Matches_bounds text _ _ _ Hm) as [_ Hin].
    specialize (Hin ltac:(lia)).
    destruct (Z.ltb_spec (JS.len text) lastIndex) as [?|Hge]; [lia|].
    eapply (execFrom_None r _ _ H i j); [|exact Hm]. lia.
  - intros Hno.
    destruct (Z.ltb_spec (JS.len text) lastIndex) as [?|Hge]; [reflexivity|].
    destruct (execFrom _ r text lastIndex) as [m|] eqn:He; [|reflexivity].
    apply execFrom_Matches in He. destruct He as [Hi Hm].
    exfalso. apply (Hno _ _ (proj1 Hi) Hm).
Qed.

(** What a spliced word matched is the word. *)
Lemma Matches_Str (w : str) :
  forall i j, Matches text (Str w) i j ->
              0 <= i -> JS.substring text i j = w /\ j = i + JS.len w.
Proof.
  induction w as [|c w IH]; intros i j Hm Hi; simpl in Hm.
  - inversion Hm; subst. rewrite substring_empty. unfold JS.len. simpl.
    split; [reflexivity|lia].
  - inversion Hm as [| | |? ? ? k ? H1 H2| | | | | | | |]; subst.
    inversion H1 as [|? ? Hc| | | | | | | | | |]; subst.
    destruct (IH _ _ H2 ltac:(lia)) as [Hsub ->].
    pose proof (len_nonneg w).
    rewrite (substring_cons text i _ c Hc) by lia. rewrite Hsub.
    unfold JS.len. simpl. split; [reflexivity|lia].
Qed.

End MatcherComplete.

(** ** The definition provider: references, scopes and the workspace *)

Section References.
Import RegExp vscode TclDefinitionProvider.

Lemma isVariableReference_from_spec (lineText : str) (n : nat) :
  isVariableReference_from lineText n = true <->
  exists i : nat,
    (i < n)%nat /\
    JS.charAt lineText (Z.of_nat i) = Some "$"%char /\
    forall j : nat, (i < j < n)%nat ->
      isVariableChar (JS.charAt lineText (Z.of_nat j)) = true.
Proof.
  induction n as [|n IH]; cbn [isVariableReference_from].
  - split; [discriminate|]. intros (i & Hi & _). lia.
  - destruct (JS.charAt lineText (Z.of_nat n)) as [c|] eqn:Hc;
      cbn [JS.is_char].
    + destruct (Ascii.eqb_spec "$"%char c) as [<-|Hne].
      * split; [|reflexivity]. intros _. exists n.
        split; [lia|]. split; [assumption|]. intros j Hj. lia.
      * destruct (isVariableChar (Some c)) eqn:Hv; cbn [negb].
        -- rewrite IH. split; intros (i & Hi & Hd & Hall).
           ++ exists i. split; [lia|]. split; [assumption|].
              intros j Hj. destruct (Nat.eq_dec j n) as [->|];
                [rewrite Hc; exact Hv|apply Hall; lia].
           ++ exists i. assert (i <> n) by congruence.
              split; [lia|]. split; [assumption|].
              intros j Hj. apply Hall. lia.
        -- split; [discriminate|]. intros (i & Hi & Hd & Hall).
           assert (i <> n) by congruence.
           specialize (Hall n ltac:(lia)). rewrite Hc in Hall. congruence.
    + change (negb (isVariableChar None)) with false. cbv iota.
      rewrite IH. split; intros (i & Hi & Hd & Hall).
      * exists i. split; [lia|]. split; [assumption|].
        intros j Hj. destruct (Nat.eq_dec j n) as [->|];
          [rewrite Hc; reflexivity|apply Hall; lia].
      * exists i. assert (i <> n) by congruence.
        split; [lia|]. split; [assumption|].
        intros j Hj. apply Hall. lia.
Qed.

(** X1. A column is part of a variable reference exactly when a dollar
    sign stands before it on the line with nothing between the two but
    word characters, white space and parentheses (columns past the end of
    the line count as such). In particular column 0 never is. *)
Theorem isVariableReference_spec (lineText : str) (charPos : Z) :
  isVariableReference lineText charPos = true <->
  exists i,
    0 <= i < charPos /\
    JS.charAt lineText i = Some "$"%char /\
    forall j, i < j < charPos ->
      isVariableChar (JS.charAt lineText j) = true.
Proof.
  unfold isVariableReference. rewrite isVariableReference_from_spec. split.
  - intros (i & Hi & Hd & Hall). exists (Z.of_nat i).
    split; [lia|]. split; [assumption|]. intros j Hj.
    specialize (Hall (Z.to_nat j) ltac:(lia)).
    rewrite Z2Nat.id in Hall by lia. exact Hall.
  - intros (i & Hi & Hd & Hall). exists (Z.to_nat i).
    split; [lia|]. rewrite Z2Nat.id by lia. split; [assumption|].
    intros j Hj. apply Hall. lia.
Qed.

End References.

Section Scopes.
Import RegExp vscode TclDefinitionProvider.
Variable document : TextDocument.
Variable position : Position.

Lemma containingStep_invariant (ms : list rmatch) :
  forall best : option Range,
    let spans :=
      List.filter (fun r => containsPosition r position)
                  (omap (procRangeOf document document) ms) in
    match fold_left (containingStep document document position) ms best with
    | Some r =>
        (best = Some r /\ Forall (fun c => ~ inside r c) spans) \/
        exists l1 l2,
          spans = l1 ++ r :: l2 /\ Forall (fun c => ~ inside r c) l2
    | None => best = None /\ spans = []
    end.
Proof.
  induction ms as [|m ms IH]; intros best; cbn [fold_left omap list_omap].
  - simpl. destruct best as [r|]; [left|]; split; try reflexivity.
    constructor.
  - unfold containingStep at 2.
    destruct (procRangeOf document document m) as [c|] eqn:Hc;
      [|apply IH].
    cbn [List.filter].
    destruct (containsPosition c position) eqn:Hin; [|apply IH].
    set (best' := match best with
                  | Some best0 =>
                      if isBefore (end_ c) (end_ best0)
                         && isAfter (start c) (start best0)
                      then Some c else Some best0
                  | None => Some c
                  end).
    specialize (IH best'). cbv zeta in IH.
    destruct (fold_left (containingStep document document position) ms best')
      as [r|].
    + destruct IH as [[Hb Hall]|(l1 & l2 & Heq & Hall)].
      * subst best'. destruct best as [b|].
        -- destruct (isBefore (end_ c) (end_ b)
                     && isAfter (start c) (start b)) eqn:Hrep.
           ++ injection Hb as <-. right. eexists [], _.
              split; [reflexivity|assumption].
           ++ injection Hb as <-. left. split; [reflexivity|].
              constructor; [|assumption].
              unfold inside, isAfter in *. intros [H1 H2].
              rewrite H1, H2 in Hrep. discriminate.
        -- injection Hb as <-. right. eexists [], _.
           split; [reflexivity|assumption].
      * right. exists (c :: l1), l2. rewrite Heq.
        split; [reflexivity|assumption].
    + destruct IH as [Hb _]. subst best'. destruct best as [b|];
        [destruct (_ && _)|]; discriminate.
Qed.

(** X2. Whatever the position, the scope the lookup computes is one of
    the procedure spans that hold the position, and none of the spans
    that hold the position and come later in the text lies strictly
    inside it; there is no scope exactly when no span holds the
    position. *)
Theorem getContainingProcedureRange_holds :
  match getContainingProcedureRange document position with
  | Some r =>
      containsPosition r position = true /\
      exists l1 l2,
        containingSpans document position = l1 ++ r :: l2 /\
        Forall (fun c => ~ inside r c) l2
  | None => containingSpans document position = []
  end.
Proof.
  pose proof (containingStep_invariant
                (execAll containingProcRegex document) None) as H.
  cbv zeta in H. unfold getContainingProcedureRange. cbv zeta.
  fold (procSpans document) in H.
  fold (containingSpans document position) in H.
  destruct (fold_left _ _ None) as [r|].
  - destruct H as [[Hb _]|(l1 & l2 & Heq & Hall)]; [discriminate|].
    split; [|eauto].
    assert (Hin : In r (containingSpans document position))
      by (rewrite Heq; apply in_or_app; right; left; reflexivity).
    apply List.filter_In in Hin. tauto.
  - tauto.
Qed.

End Scopes.

Section WorkspaceSearch.
Import RegExp RegExpNotations vscode Host TclDefinitionProvider.

Lemma indexOfChar_from_spec (c : ascii) (t : str) :
  forall i : Z,
    let r := JSStr.indexOfChar_from c t i in
    (r = -1 /\ ~ In c t) \/
    (i <= r /\ t !! Z.to_nat (r - i) = Some c) \/ i < 0.
Proof.
  induction t as [|x t IH]; intros i; cbv zeta; simpl.
  - left. split; [reflexivity|tauto].
  - destruct (Z.lt_ge_cases i 0) as [?|Hi]; [right; right; assumption|].
    destruct (Ascii.eqb_spec x c) as [->|Hne].
    + right. left. split; [lia|]. rewrite Z.sub_diag. reflexivity.
    + destruct (IH (i + 1)) as [[Hr Hnot]|[[Hr Hl]|?]]; [| |lia].
      * left. split; [assumption|]. intros [?|?]; contradiction.
      * right. left. split; [lia|].
        replace (Z.to_nat (JSStr.indexOfChar_from c t (i + 1) - i))
          with (S (Z.to_nat (JSStr.indexOfChar_from c t (i + 1) - (i + 1))))
          by lia.
        exact Hl.
Qed.

Lemma substring_lookup (t : str) (a b : Z) (n : nat) :
  0 <= a -> a + Z.of_nat n < b -> b <= JS.len t ->
  JS.substring t a b !! n = JS.charAt t (a + Z.of_nat n).
Proof.
  intros Ha Hn Hb. rewrite substring_ordered by lia.
  rewrite lookup_take_lt by lia. rewrite lookup_drop.
  unfold JS.charAt. destruct (Z.ltb_spec (a + Z.of_nat n) 0); [lia|].
  f_equal. lia.
Qed.

(** The brace a match of the pattern ends with is found by the search
    that starts after the first closing brace of the match. *)
Lemma indexOfCharAfter_last (t : str) :
  last t = Some LBRACE ->
  0 <= indexOfCharAfter LBRACE t (JSStr.indexOfChar RBRACE t + 1).
Proof.
  intros Hlast. apply last_Some in Hlast. destruct Hlast as [t' ->].
  unfold indexOfCharAfter.
  set (idx := JSStr.indexOfChar RBRACE (t' ++ [LBRACE])).
  assert (Hfrom : 0 <= JS.clamp (t' ++ [LBRACE]) (idx + 1) <= JS.len t').
  { unfold JS.clamp, JS.len. rewrite length_app. simpl.
    destruct (indexOfChar_from_spec RBRACE (t' ++ [LBRACE]) 0)
      as [[Hr _]|[[Hr Hl]|?]]; [| |lia].
    - fold (JSStr.indexOfChar RBRACE (t' ++ [LBRACE])) in Hr. fold idx in Hr.
      lia.
    - cbv zeta in Hr, Hl.
      fold (JSStr.indexOfChar RBRACE (t' ++ [LBRACE])) in Hr, Hl.
      fold idx in Hr, Hl. rewrite Z.sub_0_r in Hl.
      pose proof (lookup_lt_Some _ _ _ Hl) as Hlt.
      rewrite length_app in Hlt. simpl in Hlt.
      destruct (Nat.eq_dec (Z.to_nat idx) (length t')) as [He|Hne].
      + rewrite He in Hl. rewrite list_lookup_middle in Hl by reflexivity.
        discriminate.
      + lia. }
  set (from := JS.clamp (t' ++ [LBRACE]) (idx + 1)) in *.
  destruct (indexOfChar_from_spec LBRACE
              (drop (Z.to_nat from) (t' ++ [LBRACE])) 0)
    as [[Hr Hnot]|[[Hr Hl]|?]]; [| |lia].
  - exfalso. apply Hnot. apply list_elem_of_In.
    apply (list_elem_of_lookup_2 _ (length t' - Z.to_nat from)%nat).
    rewrite lookup_drop.
    replace (Z.to_nat from + (length t' - Z.to_nat from))%nat
      with (length t') by (unfold JS.len in Hfrom; lia).
    apply list_lookup_middle. reflexivity.
  - cbv zeta in Hr.
    fold (JSStr.indexOfChar LBRACE (drop (Z.to_nat from) (t' ++ [LBRACE])))
      in Hr.
    destruct (JSStr.indexOfChar LBRACE
                (drop (Z.to_nat from) (t' ++ [LBRACE]))) as [|p|p];
      try lia.
Qed.

Lemma searchInFiles_first_hit (symbolName : str) (files : list TextDocument)
  (w : Workspace) :
  exists opened rest,
    files = opened ++ rest /\
    fst (searchInFiles symbolName files w)
    = map (fun d => OpenTextDocument (uri d)) opened /\
    match snd (searchInFiles symbolName files w) with
    | Some l =>
        exists pre d,
          opened = pre ++ [d] /\
          searchInFile symbolName d = Some l /\
          Forall (fun d' => searchInFile symbolName d' = None) pre
    | None =>
        rest = [] /\
        Forall (fun d' => searchInFile symbolName d' = None) opened
    end.
Proof.
  induction files as [|file files IH].
  - exists [], []. simpl. repeat split; constructor.
  - cbn [searchInFiles]. unfold bind, openTextDocument.
    destruct (searchInFile symbolName file) as [l|] eqn:Hfile.
    + exists [file], files. simpl. repeat split.
      exists [], file. repeat split; [assumption|constructor].
    + destruct IH as (opened & rest & Heq & Hlog & Hres).
      destruct (searchInFiles symbolName files w) as [log res].
      simpl in Hlog, Hres. exists (file :: opened), rest. simpl.
      split; [rewrite Heq; reflexivity|]. split; [rewrite Hlog; reflexivity|].
      destruct res as [l|].
      * destruct Hres as (pre & d & Hop & Hd & Hpre).
        exists (file :: pre), d. rewrite Hop.
        repeat split; [assumption|]. constructor; assumption.
      * destruct Hres as [Hrest Hall]. split; [assumption|].
        constructor; assumption.
Qed.

(** X3. The search across files asks once for the TCL files of the
    workspace, then opens them one by one in the order they were given and
    stops at the first file that answers: no file after it is opened. When
    the search finds nothing, every file was opened and none answered. *)
Theorem searchInWorkspace_first_hit (symbolName : str) (w : Workspace) :
  exists opened rest,
    w = opened ++ rest /\
    calls (searchInWorkspace symbolName) w
    = FindFiles (lit "**/*.tcl")
      :: map (fun d => OpenTextDocument (uri d)) opened /\
    match result (searchInWorkspace symbolName) w with
    | Some l =>
        exists pre d,
          opened = pre ++ [d] /\
          searchInFile symbolName d = Some l /\
          Forall (fun d' => searchInFile symbolName d' = None) pre
    | None =>
        rest = [] /\
        Forall (fun d' => searchInFile symbolName d' = None) opened
    end.
Proof.
  destruct (searchInFiles_first_hit symbolName w w)
    as (opened & rest & Heq & Hlog & Hres).
  exists opened, rest. split; [assumption|].
  unfold calls, result, searchInWorkspace, bind, findFiles.
  destruct (searchInFiles symbolName w w) as [log res].
  simpl in *. rewrite Hlog. split; [reflexivity|assumption].
Qed.

(** X4. For a name that holds the scope separator the search in a file
    looks for the name with every separator taken out: a file answers
    only where it reads [proc], white space, possibly a qualifier that
    ends in [::], and then that collapsed name. The name as it was
    written, with its separators, is not what is looked for. *)
Theorem searchInFile_collapsed_name
  (symbolName : str) (d : TextDocument) (l : Location) :
  JSStr.includes symbolName (lit "::") = true ->
  searchInFile symbolName d = Some l ->
  exists i j k,
    Matches d (word "proc" >> Plus ws) i j /\
    j <= k /\
    JS.substring d k (k + JS.len (JSStr.removeScope symbolName))
    = JSStr.removeScope symbolName /\
    start (locRange l) = positionAt d i.
Proof.
  intros Hsep Hfind. unfold searchInFile in Hfind. cbv zeta in Hfind.
  rewrite Hsep in Hfind. cbn [negb] in Hfind.
  destruct (exec (workspaceProcRegex (JSStr.removeScope symbolName)) d 0)
    as [m|] eqn:Hexec; [|discriminate].
  injection Hfind as <-.
  destruct (exec_Matches d _ 0 m ltac:(lia) Hexec) as (H0 & H1 & H2 & Hm).
  unfold workspaceProcRegex in Hm.
  apply Matches_Seq_inv in Hm as (k1 & Hproc & Hm).
  apply Matches_Seq_inv in Hm as (k2 & Hws & Hm).
  apply Matches_Seq_inv in Hm as (k3 & Hname & Hm).
  apply Matches_Seq_inv in Hm as (k4 & Hws2 & Hbrace).
  apply Matches_Lit_inv in Hbrace as [Hbrace Hend].
  pose proof (proj1 (Matches_bounds d _ _ _ Hproc)) as B1.
  pose proof (proj1 (Matches_bounds d _ _ _ Hws)) as B2.
  pose proof (proj1 (Matches_bounds d _ _ _ Hws2)) as B4.
  inversion Hname as [| | | | | | | |? ? ? ? Halt| | |]; subst.
  assert (Hclean : exists k, k2 <= k /\ k <= k3 /\
            JS.substring d k (k + JS.len (JSStr.removeScope symbolName))
            = JSStr.removeScope symbolName).
  { pose proof (len_nonneg (JSStr.removeScope symbolName)) as Hlen.
    inversion Halt as [| | | |? ? ? ? Hl|? ? ? ? Hr| | | | | |]; subst.
    - destruct (Matches_Str d _ _ _ Hl ltac:(lia)) as [Hsub Hk3].
      exists k2. rewrite <- Hk3. split; [lia|]. split; [lia|assumption].
    - apply Matches_Seq_inv in Hr as (q1 & Hq & Hr).
      apply Matches_Seq_inv in Hr as (q2 & Hsep' & Hr).
      pose proof (proj1 (Matches_bounds d _ _ _ Hq)).
      pose proof (proj1 (Matches_bounds d _ _ _ Hsep')).
      destruct (Matches_Str d _ _ _ Hr ltac:(lia)) as [Hsub Hk3].
      exists q2. rewrite <- Hk3. split; [lia|]. split; [lia|assumption]. }
  destruct Hclean as (k & Hk2 & Hk3 & Hsub).
  exists (index m), k2, k. split.
  - eapply M_Seq; eassumption.
  - split; [assumption|]. split; [assumption|].
    apply blockLocation_start; [reflexivity|].
    pose proof (charAt_Some_range _ _ _ Hbrace) as Hb.
    assert (Hlast : last (matched d m) = Some LBRACE).
    { rewrite last_lookup. unfold matched.
      pose proof (substring_length d (index m) (endIndex m)
                    ltac:(lia) ltac:(lia)) as Hlen.
      unfold JS.len in Hlen at 1.
      replace (pred (length (JS.substring d (index m) (endIndex m))))
        with (Z.to_nat (k4 - index m)) by lia.
      rewrite substring_lookup by lia.
      rewrite <- Hbrace. f_equal. lia. }
    pose proof (indexOfCharAfter_last _ Hlast). lia.
Qed.

End WorkspaceSearch.

Section WorkspaceSearchWitness.
Import RegExp RegExpNotations vscode Host TclDefinitionProvider.

Lemma searchInFile_collapsed_name_witness :
  let d := doc ["proc NSf {} {"; "}"] in
  JSStr.includes (lit "NS::f") (lit "::") = true /\
  searchInFile (lit "NS::f") d
  = Some (mkLocation 0 (mkRange (mkPosition 0 0) (mkPosition 0 11))) /\
  searchInFile (lit "NS::f") (doc ["proc NS::f {} {"; "}"]) = None /\
  exists i j k,
    Matches d (word "proc" >> Plus ws) i j /\
    j <= k /\
    JS.substring d k (k + JS.len (JSStr.removeScope (lit "NS::f")))
    = JSStr.removeScope (lit "NS::f") /\
    start (locRange (mkLocation 0 (mkRange (mkPosition 0 0) (mkPosition 0 11))))
    = positionAt d i.
Proof.
  cbv zeta. split; [reflexivity|]. split; [vm_compute; reflexivity|].
  split; [vm_compute; reflexivity|].
  apply (searchInFile_collapsed_name (lit "NS::f")
           (doc ["proc NSf {} {"; "}"])).
  - reflexivity.
  - vm_compute. reflexivity.
Defined.

End WorkspaceSearchWitness.

Section ProcedureDefinitions.
Import RegExp RegExpNotations vscode Host TclDefinitionProvider.

Lemma blockLocation_range (document : TextDocument) (startOffset bodyStart : Z) :
  0 <= startOffset <= bodyStart ->
  locRange (blockLocation document document startOffset bodyStart)
  = mkRange (positionAt document startOffset)
      match findMatchingBrace document bodyStart with
      | Some bodyEnd => positionAt document (bodyEnd + 1)
      | None => lineEnd document (line (positionAt document startOffset))
      end.
Proof.
  intros Hle. unfold blockLocation. simpl.
  rewrite definition_truthy_matched by lia.
  pose proof (findMatchingBrace_spec document bodyStart) as H.
  destruct (findMatchingBrace document bodyStart) as [p|].
  - destruct H as (Hp & _); [lia|].
    rewrite newRange_positionAt by lia. reflexivity.
  - rewrite newRange_ordered; [reflexivity|]. apply positionAt_le_lineEnd.
Qed.

(** X5. The definition of a procedure, when one is returned, is at the
    first place of the document that reads [proc], white space, the name,
    and an opening brace after optional white space: the location starts
    there and runs to one past the brace that closes that opening brace,
    or to the end of the line when there is none. Nothing is returned
    exactly when no place of the document reads so. *)
Theorem findProcedureDefinition_first
  (document : TextDocument) (procName : str) :
  match findProcedureDefinition document procName with
  | Some l =>
      exists i j,
        Matches document (procDefRegex procName) i j /\
        (forall i' j', 0 <= i' < i ->
                       ~ Matches document (procDefRegex procName) i' j') /\
        JS.charAt document (j - 1) = Some LBRACE /\
        locUri l = uri document /\
        locRange l
        = mkRange (positionAt document i)
            match findMatchingBrace document (j - 1) with
            | Some e => positionAt document (e + 1)
            | None => lineEnd document (line (positionAt document i))
            end
  | None =>
      forall i j, ~ Matches document (procDefRegex procName) i j
  end.
Proof.
  unfold findProcedureDefinition. cbv zeta.
  assert (Hmin : 1 <= minLen (procDefRegex procName)).
  { simpl. pose proof (minLen_nonneg (Str procName)). lia. }
  destruct (exec (procDefRegex procName) document 0) as [m|] eqn:Hexec.
  - destruct (exec_Matches document _ 0 m ltac:(lia) Hexec)
      as (H0 & H1 & H2 & Hm).
    pose proof (Matches_minLen document _ _ _ Hm) as Hlen.
    exists (index m), (endIndex m). split; [assumption|].
    split; [intros i' j' Hi'; eapply exec_leftmost; eassumption|].
    split; [eapply Matches_lastLit; [|exact Hm]; reflexivity|].
    split; [reflexivity|].
    rewrite (matched_length document m) by lia.
    replace (index m + (endIndex m - index m) - 1) with (endIndex m - 1)
      by lia.
    apply blockLocation_range. lia.
  - intros i j Hm.
    pose proof (Matches_minLen document _ _ _ Hm) as Hlen.
    destruct (Matches_bounds document _ _ _ Hm) as [_ Hin].
    specialize (Hin ltac:(lia)).
    apply (proj1 (exec_None_iff document _ 0 ltac:(lia) Hmin) Hexec i j);
      [lia|assumption].
Qed.

End ProcedureDefinitions.

(** ** Folding ranges *)

Section Folding.
Import RegExp RegExpNotations vscode TclFoldingRangeProvider.
Variable document : TextDocument.

Lemma foldBlock_invariant (P : FoldingRange -> Prop)
  (ranges : list FoldingRange) (open : Z) :
  (forall close,
     findMatchingBrace document open = Some close ->
     line (positionAt document open) < line (positionAt document close) ->
     P (mkFoldingRange (line (positionAt document open))
                       (line (positionAt document close)))) ->
  Forall P ranges -> Forall P (foldBlock document document ranges open).
Proof.
  intros Hnew Hall. unfold foldBlock.
  destruct (findMatchingBrace document open) as [close|]; [|assumption].
  cbv zeta.
  destruct (Z.ltb_spec (line (positionAt document open))
                       (line (positionAt document close))) as [Hlt|_];
    [|assumption].
  apply Forall_app. split; [assumption|].
  constructor; [|constructor]. apply Hnew; [reflexivity|assumption].
Qed.

(** X6. Every folding range comes from an opening brace of the document
    whose closing brace was found on a later line: it starts on the line
    of the opening brace and ends on the line of the brace that closes
    it, both lines of the document, and the text between the two braces
    has its braces paired. A brace that is never closed, or is closed on
    its own line, gives no range. *)
Theorem provideFoldingRanges_sound (fr : FoldingRange) :
  In fr (provideFoldingRanges document) ->
  exists open close,
    JS.charAt document open = Some LBRACE /\
    findMatchingBrace document open = Some close /\
    JS.charAt document close = Some RBRACE /\
    balanced (JS.substring document (open + 1) close) /\
    foldStart fr = line (positionAt document open) /\
    foldEnd fr = line (positionAt document close) /\
    foldStart fr < foldEnd fr /\
    validLine document (foldStart fr) /\
    validLine document (foldEnd fr).
Proof.
  set (P := fun fr : FoldingRange =>
    exists open close,
      JS.charAt document open = Some LBRACE /\
      findMatchingBrace document open = Some close /\
      JS.charAt document close = Some RBRACE /\
      balanced (JS.substring document (open + 1) close) /\
      foldStart fr = line (positionAt document open) /\
      foldEnd fr = line (positionAt document close) /\
      foldStart fr < foldEnd fr /\
      validLine document (foldStart fr) /\
      validLine document (foldEnd fr)).
  assert (Hblock : forall ranges open,
             JS.charAt document open = Some LBRACE ->
             Forall P ranges ->
             Forall P (foldBlock document document ranges open)).
  { intros ranges open Hopen Hall. apply foldBlock_invariant; [|assumption].
    intros close Hclose Hlt. exists open, close.
    pose proof (charAt_Some_range _ _ _ Hopen) as Hrange.
    pose proof (findMatchingBrace_spec document open ltac:(lia)) as Hspec.
    rewrite Hclose in Hspec. destruct Hspec as (Hin & Hc & Hd & Hq).
    split; [assumption|]. split; [assumption|]. split; [assumption|].
    split; [apply matched_body_balanced; try assumption; lia|].
    simpl. split; [reflexivity|]. split; [reflexivity|].
    split; [assumption|]. split; apply positionAt_validLine. }
  assert (Hopen : forall r m,
             lastLit r = Some LBRACE -> 1 <= minLen r ->
             In m (execAll r document) ->
             JS.charAt document (index m + JS.len (matched document m) - 1)
             = Some LBRACE).
  { intros r m Hlast Hmin Hm. apply execAll_Matches in Hm.
    destruct Hm as (H0 & H1 & H2 & Hm).
    rewrite (matched_length document m) by lia.
    replace (index m + (endIndex m - index m) - 1) with (endIndex m - 1)
      by lia.
    eapply Matches_lastLit; eassumption. }
  assert (Hfold : forall (step : list FoldingRange -> rmatch -> list FoldingRange)
                         (ms all : list rmatch) ranges,
             (forall m, In m ms -> In m all) ->
             (forall ranges m, In m all -> Forall P ranges ->
                               Forall P (step ranges m)) ->
             Forall P ranges -> Forall P (fold_left step ms ranges)).
  { intros step ms all. induction ms as [|m ms IH]; intros ranges Hsub Hstep Hall;
      [assumption|].
    cbn [fold_left]. apply IH; [intros m' Hm'; apply Hsub; right; assumption
                               |assumption|].
    apply Hstep; [apply Hsub; left; reflexivity|assumption]. }
  intros Hin.
  assert (Hall : Forall P (provideFoldingRanges document)).
  { unfold provideFoldingRanges, findBraceBlocks. cbv zeta.
    apply (Hfold _ _ (execAll standaloneBlockRegex document)); [tauto| |].
    - intros ranges m Hm Hall. unfold standaloneStep. cbv zeta.
      destruct (JSStr.startsWith _ _); [assumption|].
      apply Hblock; [|assumption].
      apply (Hopen standaloneBlockRegex); [reflexivity|simpl; lia|assumption].
    - apply (Hfold _ _ (execAll blockRegex document)); [tauto| |constructor].
      intros ranges m Hm Hall. unfold keywordStep. cbv zeta.
      apply Hblock; [|assumption].
      apply (Hopen blockRegex); [reflexivity|simpl; lia|assumption]. }
  rewrite List.Forall_forall in Hall. apply Hall. assumption.
Qed.

End Folding.

Section FoldingWitness.
Import RegExp RegExpNotations vscode TclFoldingRangeProvider.

Lemma provideFoldingRanges_sound_witness :
  let document := doc ["proc f {} {"; "    puts {"; "}"] in
  provideFoldingRanges document = [mkFoldingRange 1 2] /\
  exists open close,
    JS.charAt document open = Some LBRACE /\
    findMatchingBrace document open = Some close /\
    JS.charAt document close = Some RBRACE /\
    balanced (JS.substring document (open + 1) close) /\
    foldStart (mkFoldingRange 1 2) = line (positionAt document open) /\
    foldEnd (mkFoldingRange 1 2) = line (positionAt document close) /\
    foldStart (mkFoldingRange 1 2) < foldEnd (mkFoldingRange 1 2) /\
    validLine document (foldStart (mkFoldingRange 1 2)) /\
    validLine document (foldEnd (mkFoldingRange 1 2)).
Proof.
  cbv zeta. split; [vm_compute; reflexivity|].
  apply (provideFoldingRanges_sound
           (doc ["proc f {} {"; "    puts {"; "}"])).
  vm_compute. left. reflexivity.
Defined.

End FoldingWitness.

(** ** The hover provider: values, namespaces and variables *)

Section Values.
Import RegExp vscode TclHoverProvider.

Lemma trimStart_split (t : str) :
  exists sp,
    t = sp ++ JSStr.trimStart t /\
    Forall (fun c => isSpace c = true) sp /\
    forall c, head (JSStr.trimStart t) = Some c -> isSpace c = false.
Proof.
  induction t as [|x t IH]; simpl.
  - exists []. repeat split; [constructor|discriminate].
  - destruct (isSpace x) eqn:Hx.
    + destruct IH as (sp & Heq & Hsp & Hhead). exists (x :: sp).
      split; [simpl; congruence|]. split; [constructor; assumption|assumption].
    + exists []. split; [reflexivity|]. split; [constructor|].
      simpl. intros c [= <-]. assumption.
Qed.

(** [trim] takes the white space off both ends and leaves a text that
    neither starts nor ends with white space. *)
Lemma trim_split (t : str) :
  exists sp1 sp2,
    t = sp1 ++ JSStr.trim t ++ sp2 /\
    Forall (fun c => isSpace c = true) sp1 /\
    Forall (fun c => isSpace c = true) sp2 /\
    (forall c, head (JSStr.trim t) = Some c -> isSpace c = false) /\
    (forall c, last (JSStr.trim t) = Some c -> isSpace c = false).
Proof.
  unfold JSStr.trim.
  destruct (trimStart_split t) as (sp1 & Heq1 & Hsp1 & Hhead1).
  destruct (trimStart_split (reverse (JSStr.trimStart t)))
    as (sp2 & Heq2 & Hsp2 & Hhead2).
  set (u := JSStr.trimStart t) in *.
  set (v := JSStr.trimStart (reverse u)) in *.
  assert (Hu : u = reverse v ++ reverse sp2).
  { rewrite <- reverse_app, <- Heq2, reverse_involutive. reflexivity. }
  exists sp1, (reverse sp2). split; [rewrite <- Hu; assumption|].
  split; [assumption|].
  split; [apply Forall_reverse; assumption|]. split.
  - intros c Hc. apply Hhead1. rewrite Hu.
    destruct (reverse v) as [|y w]; [discriminate|]. exact Hc.
  - intros c Hc. apply Hhead2. rewrite <- Hc. symmetry. apply last_reverse.
Qed.

Lemma words_aux_spaces (sp : str) :
  Forall (fun c => isSpace c = true) sp ->
  forall cur, words_aux sp cur = words_aux [] cur.
Proof.
  induction 1 as [|x sp Hx _ IH]; intros cur; [reflexivity|].
  simpl. rewrite Hx. destruct cur; rewrite IH; reflexivity.
Qed.

Lemma words_aux_app_spaces (t sp : str) :
  Forall (fun c => isSpace c = true) sp ->
  forall cur, words_aux (t ++ sp) cur = words_aux t cur.
Proof.
  intros Hsp. induction t as [|x t IH]; intros cur.
  - simpl. apply words_aux_spaces. assumption.
  - simpl. destruct (isSpace x); [destruct cur|]; rewrite IH; reflexivity.
Qed.

Lemma words_trim (t : str) : words (JSStr.trim t) = words t.
Proof.
  destruct (trim_split t) as (sp1 & sp2 & Heq & Hsp1 & Hsp2 & _).
  unfold words. rewrite Heq at 2. clear Heq.
  induction Hsp1 as [|x sp1 Hx _ IH]; simpl.
  - symmetry. apply words_aux_app_spaces. assumption.
  - rewrite Hx. exact IH.
Qed.

(** On a text that does not end with white space, splitting at the runs
    of white space gives the words. *)
Lemma splitWhitespace_aux_words (t : str) :
  (forall c, last t = Some c -> isSpace c = false) ->
  (forall cur, cur <> [] ->
     splitWhitespace_aux t cur false = words_aux t cur) /\
  (t <> [] -> splitWhitespace_aux t [] true = words_aux t []).
Proof.
  induction t as [|x t IH]; intros Hlast.
  - split; [|congruence]. intros cur Hcur. simpl.
    destruct cur; [congruence|reflexivity].
  - assert (Ht : t = [] \/ t <> []) by (destruct t; [left|right]; congruence).
    assert (Hlast' : forall c, last t = Some c -> isSpace c = false).
    { intros c Hc. apply Hlast. destruct t; [discriminate|exact Hc]. }
    destruct (IH Hlast') as [IH1 IH2].
    assert (Hx : isSpace x = true -> t <> []).
    { intros Hsp ->. specialize (Hlast x eq_refl). congruence. }
    split.
    + intros cur Hcur. simpl. destruct (isSpace x) eqn:Hsp.
      * destruct cur; [congruence|]. rewrite IH2 by auto. reflexivity.
      * apply IH1. discriminate.
    + intros _. simpl. destruct (isSpace x) eqn:Hsp.
      * apply IH2. auto.
      * apply IH1. discriminate.
Qed.

Lemma splitWhitespace_trim (t : str) :
  splitWhitespace (JSStr.trim t)
  = match words t with [] => [[]] | ws => ws end.
Proof.
  rewrite <- words_trim.
  destruct (trim_split t) as (_ & _ & _ & _ & _ & Hhead & Hlast).
  destruct (JSStr.trim t) as [|x u] eqn:Hu; [reflexivity|].
  assert (Hx : isSpace x = false) by (apply Hhead; reflexivity).
  assert (Hlast' : forall c, last u = Some c -> isSpace c = false).
  { intros c Hc. apply Hlast. destruct u; [discriminate|exact Hc]. }
  destruct (splitWhitespace_aux_words u Hlast') as [H1 _].
  unfold splitWhitespace, words. simpl. rewrite Hx.
  rewrite H1 by discriminate.
  assert (Hne : forall u cur, cur <> [] -> words_aux u cur <> []).
  { clear. induction u as [|y u IH]; intros cur Hcur; simpl.
    - destruct cur; [congruence|discriminate].
    - destruct (isSpace y); [destruct cur; [congruence|discriminate]|].
      apply IH. discriminate. }
  specialize (Hne u [x] ltac:(discriminate)).
  destruct (words_aux u [x]); [congruence|reflexivity].
Qed.

(** X7. The value shown for a [set] command is made of the words of the
    command from the third on, with one space between two words, however
    the words are spaced in the command; a command of fewer than three
    words has the empty value. *)
Theorem extractValueFromSetCommand_words (setCommand : str) :
  extractValueFromSetCommand setCommand
  = if 3 <=? Z.of_nat (length (words setCommand))
    then joinSpace (drop 2 (words setCommand))
    else [].
Proof.
  unfold extractValueFromSetCommand. cbv zeta. rewrite splitWhitespace_trim.
  destruct (words setCommand) as [|w ws]; reflexivity.
Qed.

End Values.

Section NamespaceText.
Import RegExp RegExpNotations vscode TclHoverProvider.

(** X8. The text of a namespace, when one is returned, is what stands
    between the opening brace of the first header of that namespace in
    the document and the brace that closes it: its braces are paired, and
    no occurrence of the header stands before the one used. Nothing is
    returned when the document has no such header or its brace is never
    closed. *)
Theorem getNamespaceText_body (document : TextDocument) (namespace : str) :
  match getNamespaceText document namespace with
  | Some body =>
      exists i open close,
        Matches document (TclDefinitionProvider.nsDefRegex namespace)
                i (open + 1) /\
        (forall i' j', 0 <= i' < i ->
           ~ Matches document (TclDefinitionProvider.nsDefRegex namespace)
                     i' j') /\
        JS.charAt document open = Some LBRACE /\
        findMatchingBrace document open = Some close /\
        JS.charAt document close = Some RBRACE /\
        body = JS.substring document (open + 1) close /\
        JS.len body = close - open - 1 /\
        balanced body
  | None =>
      forall i j,
        Matches document (TclDefinitionProvider.nsDefRegex namespace) i j ->
        exists i' j',
          Matches document (TclDefinitionProvider.nsDefRegex namespace)
                  i' j' /\
          i' <= i /\
          findMatchingBrace document (j' - 1) = None
  end.
Proof.
  unfold getNamespaceText. cbv zeta.
  assert (Hmin : 1 <= minLen (TclDefinitionProvider.nsDefRegex namespace)).
  { simpl. pose proof (minLen_nonneg (Str namespace)). lia. }
  destruct (exec (TclDefinitionProvider.nsDefRegex namespace) document 0)
    as [m|] eqn:Hexec.
  - destruct (exec_Matches document _ 0 m ltac:(lia) Hexec)
      as (H0 & H1 & H2 & Hm).
    pose proof (Matches_minLen document _ _ _ Hm) as Hlen.
    rewrite (matched_length document m) by lia.
    replace (index m + (endIndex m - index m) - 1) with (endIndex m - 1)
      by lia.
    assert (Hbrace : JS.charAt document (endIndex m - 1) = Some LBRACE)
      by (eapply Matches_lastLit; [|exact Hm]; reflexivity).
    unfold TclDefinitionProvider.truthy.
    pose proof (findMatchingBrace_spec document (endIndex m - 1) ltac:(lia))
      as Hspec.
    destruct (findMatchingBrace document (endIndex m - 1)) as [close|]
      eqn:Hclose.
    + destruct Hspec as (Hin & Hc & Hd & Hq).
      destruct (Z.eqb_spec close 0) as [?|_]; [lia|].
      exists (index m), (endIndex m - 1), close.
      replace (endIndex m - 1 + 1) with (endIndex m) by lia.
      split; [assumption|].
      split; [intros i' j' Hi'; eapply exec_leftmost; eassumption|].
      split; [assumption|]. split; [assumption|]. split; [assumption|].
      split; [reflexivity|].
      split; [rewrite substring_length by lia; lia|].
      replace (endIndex m) with (endIndex m - 1 + 1) by lia.
      apply matched_body_balanced; try assumption; lia.
    + intros i j Hij. exists (index m), (endIndex m).
      split; [assumption|]. split; [|exact Hclose].
      destruct (Z.le_gt_cases (index m) i) as [|Hgt]; [assumption|].
      exfalso.
      pose proof (Matches_minLen document _ _ _ Hij) as Hl.
      destruct (Matches_bounds document _ _ _ Hij) as [_ Hb].
      specialize (Hb ltac:(lia)).
      eapply (exec_leftmost document _ 0 m Hexec i j); [lia|assumption].
  - intros i j Hij. exfalso.
    pose proof (Matches_minLen document _ _ _ Hij) as Hl.
    destruct (Matches_bounds document _ _ _ Hij) as [_ Hb].
    specialize (Hb ltac:(lia)).
    apply (proj1 (exec_None_iff document _ 0 ltac:(lia) Hmin) Hexec i j);
      [lia|assumption].
Qed.

End NamespaceText.

(** ** Where the blocks stand in the outline *)

Section OutlinePlaces.
Import RegExp RegExpNotations vscode TclDocumentSymbolProvider.
Variable document : TextDocument.

Lemma keeps_topLevelAt (fr : str * SymbolKind * Range * Range) (i : nat)
  (l l' : list DocumentSymbol) :
  keeps l l' -> topLevelAt fr i l -> topLevelAt fr i l'.
Proof.
  intros Hk (s & Hs & Hfr). destruct (Hk i s Hs) as (s' & Hs' & Hf & _).
  exists s'. split; [assumption|congruence].
Qed.

Lemma keeps_childAt (fr : str * SymbolKind * Range * Range) (i : nat)
  (l l' : list DocumentSymbol) :
  keeps l l' -> childAt fr i l -> childAt fr i l'.
Proof.
  intros Hk (s & j & c & Hs & Hc & Hfr).
  destruct (Hk i s Hs) as (s' & Hs' & _ & Hcs).
  destruct (Hcs j c Hc) as (c' & Hc' & Hf).
  exists s', j, c'. split; [assumption|]. split; [assumption|congruence].
Qed.

(** The state after the namespace headers [ms] were gone through, from
    the empty outline: one symbol for each, in their order, and the map
    holds for a name the place of the last header of that name. *)
Lemma namespaces_state (ms : list rmatch) :
  let text : str := document in
  let st := fold_left (namespaceStep document text) ms ([], ∅) in
  Forall2 (fun m s => frame s = namespaceFrame document m) ms (fst st) /\
  forall n i,
    snd st !! n = Some i
    <-> lastNamed n i ((fun m => groupOf text m 1) <$> ms).
Proof.
  cbv zeta. induction ms as [|m ms IH] using rev_ind.
  - simpl. split; [constructor|]. intros n i. rewrite lookup_empty.
    split; [discriminate|]. intros [H _]. discriminate.
  - rewrite fold_left_app. cbn [fold_left].
    destruct (fold_left (namespaceStep document document) ms ([], ∅))
      as [symbols namespaceMap].
    simpl in IH. destruct IH as [Hsyms Hmap].
    rewrite namespaceStep_push. cbv zeta. cbn [fst snd].
    pose proof (Forall2_length _ _ _ Hsyms) as Hlen.
    split.
    + apply Forall2_app; [assumption|]. constructor; [|constructor].
      rewrite (frame_keepsFrame _ _
                 (processNamespaceProcedures_keepsFrame document _ _)).
      rewrite (frame_keepsFrame _ _
                 (processNamespaceVariables_keepsFrame document _ _)).
      reflexivity.
    + intros n i. rewrite fmap_app. cbn [fmap list_fmap].
      set (names := (fun m0 => groupOf document m0 1) <$> ms) in *.
      assert (Hnames : length names = length symbols)
        by (subst names; rewrite length_fmap; assumption).
      unfold lastNamed.
      destruct (decide (groupOf document m 1 = n)) as [<-|Hne].
      * rewrite lookup_insert_eq. split.
        -- intros [= <-]. rewrite <- Hnames.
           split; [apply list_lookup_middle; reflexivity|].
           intros j Hj. rewrite lookup_ge_None_2; [discriminate|].
           rewrite length_app. simpl. lia.
        -- intros [Hi Hlast]. f_equal.
           pose proof (lookup_lt_Some _ _ _ Hi) as Hlt.
           rewrite length_app in Hlt. simpl in Hlt.
           destruct (decide (i = length names)) as [->|Hnei];
             [symmetry; assumption|].
           exfalso. apply (Hlast (length names)); [lia|].
           apply list_lookup_middle. reflexivity.
      * rewrite lookup_insert_ne by assumption. rewrite Hmap.
        unfold lastNamed. split.
        -- intros [Hi Hlast].
           split; [apply lookup_app_l_Some; assumption|].
           intros j Hj Hjn.
           apply lookup_app_Some in Hjn as [Hjn|[Hge Hjn]];
             [exact (Hlast j Hj Hjn)|].
           destruct (j - length names)%nat; simpl in Hjn;
             [congruence|discriminate].
        -- intros [Hi Hlast].
           apply lookup_app_Some in Hi as [Hi|[Hge Hi]].
           ++ split; [assumption|]. intros j Hj Hjn.
              apply (Hlast j Hj). apply lookup_app_l_Some. assumption.
           ++ destruct (i - length names)%nat; simpl in Hi;
                [congruence|discriminate].
Qed.

(** A loop whose steps keep the outline as it stands leaves every match
    where its own step put it. *)
Lemma fold_placed {A : Type}
  (step : list DocumentSymbol -> A -> list DocumentSymbol)
  (P : A -> list DocumentSymbol -> Prop)
  (Inv : list DocumentSymbol -> Prop) (ms : list A) :
  (forall m l l', keeps l l' -> P m l -> P m l') ->
  (forall l m, In m ms -> Inv l ->
     Inv (step l m) /\ keeps l (step l m) /\ P m (step l m)) ->
  forall l, Inv l ->
    keeps l (fold_left step ms l) /\
    forall m, In m ms -> P m (fold_left step ms l).
Proof.
  intros Hstable. induction ms as [|m ms IH]; intros Hstep l Hinv;
    cbn [fold_left].
  - split; [apply keeps_refl|]. intros m [].
  - destruct (Hstep l m (or_introl eq_refl) Hinv) as (Hi & Hk & Hp).
    destruct (IH (fun l' m' Hm' => Hstep l' m' (or_intror Hm'))
                 (step l m) Hi) as (Hk' & Hp').
    split; [eapply keeps_trans; eassumption|].
    intros m' [<-|Hm']; [|apply Hp'; assumption].
    eapply Hstable; eassumption.
Qed.

(** Where the procedure of a header stands once the headers were gone
    through: under the namespace the map gives for its qualifier, or at
    the top level behind what was there when the loop began. *)
Lemma procedures_placed (namespaceMap : gmap str nat)
  (symbols : list DocumentSymbol) :
  let text : str := document in
  namespaceRefs namespaceMap symbols ->
  let symbols' := processProcedures document text symbols namespaceMap in
  keeps symbols symbols' /\
  forall m, In m (execAll procRegex text) ->
    match procParent namespaceMap (procNamespace text m) with
    | Some nsRef => childAt (procedureFrame document m) nsRef symbols'
    | None =>
        exists i, (length symbols <= i)%nat /\
                  topLevelAt (procedureFrame document m) i symbols'
    end.
Proof.
  cbv zeta. intros Hrefs. unfold processProcedures.
  apply (fold_placed (procStep document document namespaceMap)
           (fun m l =>
              match procParent namespaceMap (procNamespace document m) with
              | Some nsRef => childAt (procedureFrame document m) nsRef l
              | None =>
                  exists i, (length symbols <= i)%nat /\
                            topLevelAt (procedureFrame document m) i l
              end)
           (fun l => namespaceRefs namespaceMap l /\
                     (length symbols <= length l)%nat)).
  - intros m l l' Hk.
    destruct (procParent namespaceMap (procNamespace document m)).
    + apply keeps_childAt. assumption.
    + intros (i & Hi & Ht). exists i.
      split; [assumption|eapply keeps_topLevelAt; eassumption].
  - intros l m _ [Hinv Hlen]. rewrite procStep_push. cbv zeta.
    set (procSymbol := withLocalVariables document document _ _).
    assert (Hframe : frame procSymbol = procedureFrame document m).
    { subst procSymbol. apply frame_keepsFrame.
      apply withLocalVariables_keepsFrame. }
    destruct (procParent namespaceMap (procNamespace document m))
      as [nsRef|] eqn:Hparent.
    + split.
      { split; [apply namespaceRefs_alter;
                [apply keepsFrame_pushChild|assumption]|].
        rewrite length_alter. assumption. }
      split; [apply (keeps_alterAt_push procSymbol [nsRef])|].
      apply procParent_lookup in Hparent. destruct Hparent as (n & Hn).
      destruct (Hinv n nsRef Hn) as (s & Hs & _).
      exists (pushChild procSymbol s), (length (children s)), procSymbol.
      split; [rewrite list_lookup_alter_eq, Hs; reflexivity|].
      rewrite pushChild_children.
      split; [apply list_lookup_middle; reflexivity|assumption].
    + split.
      { split; [apply namespaceRefs_app; assumption|].
        rewrite length_app. lia. }
      split; [apply keeps_app|].
      exists (length l). split; [assumption|].
      exists procSymbol.
      split; [apply list_lookup_middle; reflexivity|assumption].
  - split; [assumption|lia].
Qed.

End OutlinePlaces.

Section OutlineOrder.
Import RegExp RegExpNotations vscode TclDocumentSymbolProvider.

(** What the later stages keep of the outline the namespace stage and
    the procedure stage built. *)
Lemma outline_stages (document : TextDocument) :
  let text : str := document in
  let st := processNamespaces document text ([], ∅) in
  let symbols := processProcedures document text (fst st) (snd st) in
  provideDocumentSymbols document
  = processControlBlocks document text
      (processGlobalVariables document text symbols) /\
  keeps symbols (provideDocumentSymbols document).
Proof.
  cbv zeta. unfold provideDocumentSymbols.
  destruct (processNamespaces document document ([], ∅))
    as [symbols namespaceMap].
  cbn [fst snd]. split; [reflexivity|].
  eapply keeps_trans; [apply globalVariables_keeps|].
  apply controlBlocks_keeps.
Qed.

Lemma namespaces_refs (document : TextDocument) :
  let st := processNamespaces document document ([], ∅) in
  namespaceRefs (snd st) (fst st).
Proof.
  cbv zeta. unfold processNamespaces.
  apply (processNamespaces_invariant document document
           (execAll nsRegex document) [] ∅ (Forall_nil_2 _)).
  intros n i Hn. rewrite lookup_empty in Hn. discriminate.
Qed.

(** X9. The outline opens with the namespaces: for every namespace header
    of the document, in the order of the headers, one top-level symbol
    that has the name the header gives, the kind Namespace and the spans
    of the block of the header. Whatever else the outline holds at the
    top level comes behind them, wherever it stands in the document. *)
Theorem namespaces_lead_outline (document : TextDocument) :
  let headers := execAll nsRegex document in
  let outline := provideDocumentSymbols document in
  Forall2 (fun m s => frame s = namespaceFrame document m)
          headers (take (length headers) outline).
Proof.
  cbv zeta.
  destruct (outline_stages document) as [_ Hkeeps]. cbv zeta in Hkeeps.
  pose proof (namespaces_refs document) as Hrefs. cbv zeta in Hrefs.
  destruct (procedures_placed document _ _ Hrefs) as [Hk _].
  pose proof (keeps_trans _ _ _ Hk Hkeeps) as Hall. clear Hk Hkeeps Hrefs.
  destruct (namespaces_state document (execAll nsRegex document))
    as [Hsyms _].
  unfold processNamespaces in Hall.
  set (symbols := fst (fold_left (namespaceStep document document)
                                 (execAll nsRegex document) ([], ∅))) in *.
  pose proof (Forall2_length _ _ _ Hsyms) as Hlen.
  pose proof (keeps_length _ _ Hall) as Hle.
  apply Forall2_same_length_lookup_2.
  - rewrite length_take. lia.
  - intros i m s Hm Hs.
    destruct (lookup_lt_is_Some_2 symbols i) as [s0 Hs0];
      [rewrite <- Hlen; eapply lookup_lt_Some; eassumption|].
    destruct (Hall i s0 Hs0) as (s' & Hs' & Hf & _).
    rewrite lookup_take_lt in Hs
      by (eapply lookup_lt_Some; eassumption).
    assert (s' = s) by congruence. subst s'.
    rewrite Hf.
    exact (Forall2_lookup_lr _ _ _ _ _ _ Hsyms Hm Hs0).
Qed.

(** X10. Where the procedure of a procedure header stands in the outline.
    If the name is qualified by a namespace that has a header in the
    document, the procedure is a child of the namespace symbol of the last
    header of that name, whichever block it was written in. If the
    qualifier names no namespace of the document, or the name has no
    qualifier, the procedure stands at the top level, behind the
    namespaces. *)
Theorem qualified_procedure_placement (document : TextDocument)
  (m : rmatch) :
  In m (execAll procRegex document) ->
  let outline := provideDocumentSymbols document in
  let names := namespaceNames document in
  match procNamespace document m with
  | Some ns =>
      (forall i, lastNamed ns i names ->
                 childAt (procedureFrame document m) i outline) /\
      (~ In ns names ->
       exists i, (length names <= i)%nat /\
                 topLevelAt (procedureFrame document m) i outline)
  | None =>
      exists i, (length names <= i)%nat /\
                topLevelAt (procedureFrame document m) i outline
  end.
Proof.
  intros Hm. cbv zeta.
  destruct (outline_stages document) as [_ Hkeeps]. cbv zeta in Hkeeps.
  pose proof (namespaces_refs document) as Hrefs. cbv zeta in Hrefs.
  destruct (procedures_placed document _ _ Hrefs) as [_ Hplaced].
  specialize (Hplaced m Hm).
  destruct (namespaces_state document (execAll nsRegex document))
    as [Hsyms Hmap].
  fold (namespaceNames document) in Hmap.
  unfold processNamespaces in Hkeeps, Hplaced.
  set (st := fold_left (namespaceStep document document)
                       (execAll nsRegex document) ([], ∅)) in *.
  assert (Hlen : length (fst st) = length (namespaceNames document)).
  { unfold namespaceNames. rewrite length_fmap. symmetry.
    eapply Forall2_length. eassumption. }
  rewrite Hlen in Hplaced.
  assert (Hnonempty : forall i, namespaceNames document !! i <> Some []).
  { intros i Hi. unfold namespaceNames in Hi.
    apply list_lookup_fmap_Some in Hi as (m' & Hname & Hm').
    apply list_elem_of_lookup_2, list_elem_of_In in Hm'.
    apply (namespace_name_nonempty document m' Hm'). cbv beta in Hname.
    congruence. }
  destruct (procNamespace document m) as [ns|].
  - split.
    + intros i Hlast.
      assert (Hns : ns <> [])
        by (intros ->; destruct Hlast as [Hi _]; exact (Hnonempty i Hi)).
      apply Hmap in Hlast.
      destruct ns as [|c ns]; [congruence|]. cbn [procParent] in Hplaced.
      rewrite Hlast in Hplaced.
      eapply keeps_childAt; eassumption.
    + intros Hnot.
      assert (Hnone : procParent (snd st) (Some ns) = None).
      { destruct ns as [|c ns]; [reflexivity|]. cbn [procParent].
        destruct (snd st !! (c :: ns)) as [i|] eqn:Hi; [|reflexivity].
        apply Hmap in Hi. destruct Hi as [Hi _]. exfalso. apply Hnot.
        apply list_elem_of_In. eapply list_elem_of_lookup_2. eassumption. }
      rewrite Hnone in Hplaced. destruct Hplaced as (i & Hi & Ht).
      exists i. split; [assumption|eapply keeps_topLevelAt; eassumption].
  - cbn [procParent] in Hplaced. destruct Hplaced as (i & Hi & Ht).
    exists i. split; [assumption|eapply keeps_topLevelAt; eassumption].
Qed.

Lemma qualified_procedure_placement_witness :
  let document :=
    doc ["namespace eval foo {"; "    proc foo::bar {} {"; "    }"; "}";
         "namespace eval foo {"; "}";
         "proc foo::baz {} {"; "}"] in
  let m := default (mkMatch 0 0 ∅) (head (execAll procRegex document)) in
  In m (execAll procRegex document) /\
  procNamespace document m = Some (lit "foo") /\
  lastNamed (lit "foo") 1 (namespaceNames document) /\
  childAt (lit "baz", KFunction,
           mkRange (mkPosition 6 0) (mkPosition 7 1),
           mkRange (mkPosition 6 0) (mkPosition 6 18))
          1 (provideDocumentSymbols document).
Proof.
  cbv zeta.
  assert (Hin : In (default (mkMatch 0 0 ∅)
                      (head (execAll procRegex
                         (doc ["namespace eval foo {";
                               "    proc foo::bar {} {"; "    }"; "}";
                               "namespace eval foo {"; "}";
                               "proc foo::baz {} {"; "}"]))))
                   (execAll procRegex
                      (doc ["namespace eval foo {";
                            "    proc foo::bar {} {"; "    }"; "}";
                            "namespace eval foo {"; "}";
                            "proc foo::baz {} {"; "}"])))
    by (vm_compute; left; reflexivity).
  assert (Hlast : lastNamed (lit "foo") 1
                    (namespaceNames
                       (doc ["namespace eval foo {";
                             "    proc foo::bar {} {"; "    }"; "}";
                             "namespace eval foo {"; "}";
                             "proc foo::baz {} {"; "}"]))).
  { split; [vm_compute; reflexivity|]. intros j Hj.
    destruct j as [|[|j]]; [lia|lia|]. vm_compute. discriminate. }
  split; [exact Hin|]. split; [vm_compute; reflexivity|].
  split; [exact Hlast|].
  pose proof (qualified_procedure_placement _ _ Hin) as H.
  cbv zeta in H.
  replace (procNamespace _ _) with (Some (lit "foo")) in H
    by (vm_compute; reflexivity).
  destruct H as [H _]. specialize (H 1%nat Hlast).
  vm_compute in H. vm_compute. exact H.
Defined.

End OutlineOrder.

Section NamespaceMembers.
Import RegExp RegExpNotations vscode TclDocumentSymbolProvider.
Variable document : TextDocument.

Lemma namespaceVariables_children (nsContent : str) (off : Z)
  (vs : list rmatch) :
  forall s : DocumentSymbol,
    frame <$> children
      (fold_left (namespaceVariableStep document nsContent off) vs s)
    = (frame <$> children s) ++
      ((fun v =>
          let range :=
            newRange (positionAt document (off + index v))
                     (positionAt document
                        (off + index v + JS.len (matched nsContent v))) in
          (groupOf nsContent v 1, KVariable, range, range)) <$> vs).
Proof.
  induction vs as [|v vs IH]; intros s; cbn [fold_left].
  - simpl. rewrite app_nil_r. reflexivity.
  - rewrite IH. unfold namespaceVariableStep. cbv zeta.
    rewrite pushChild_children, fmap_app, <- app_assoc. reflexivity.
Qed.

Lemma namespaceProcedures_children (nsContent : str) (off : Z)
  (ps : list rmatch) :
  forall s : DocumentSymbol,
    frame <$> children
      (fold_left (namespaceProcedureStep document nsContent off) ps s)
    = (frame <$> children s) ++
      ((fun p =>
          frame (blockSymbol document document (groupOf nsContent p 1)
                   (argsDetail (JSStr.trim (groupOf nsContent p 2)))
                   KFunction (off + index p)
                   (off + index p + JS.len (matched nsContent p) - 1)))
         <$> ps).
Proof.
  induction ps as [|p ps IH]; intros s; cbn [fold_left].
  - simpl. rewrite app_nil_r. reflexivity.
  - rewrite IH, namespaceProcedureStep_push. cbv zeta.
    rewrite pushChild_children, fmap_app, <- app_assoc.
    cbn [fmap list_fmap].
    rewrite (frame_keepsFrame _ _
               (withLocalVariables_keepsFrame document document _)).
    reflexivity.
Qed.

(** The namespace symbols as the namespace stage leaves them: the members
    of each are those of its body. *)
Lemma namespaces_members (ms : list rmatch) :
  let text : str := document in
  let st := fold_left (namespaceStep document text) ms ([], ∅) in
  Forall2 (fun m s => frame <$> children s = memberFrames document m)
          ms (fst st).
Proof.
  cbv zeta. induction ms as [|m ms IH] using rev_ind; [constructor|].
  rewrite fold_left_app. cbn [fold_left].
  destruct (fold_left (namespaceStep document document) ms ([], ∅))
    as [symbols namespaceMap].
  rewrite namespaceStep_push. cbv zeta. cbn [fst].
  apply Forall2_app; [exact IH|]. constructor; [|constructor].
  unfold processNamespaceProcedures, processNamespaceVariables.
  rewrite namespaceProcedures_children, namespaceVariables_children.
  reflexivity.
Qed.

End NamespaceMembers.

Section NamespaceMembersOrder.
Import RegExp RegExpNotations vscode TclDocumentSymbolProvider.

(** What [keeps] says of the children of a symbol, as a list: the frames
    a symbol had come first among those it has. *)
Lemma keeps_children_prefix (frames : list (str * SymbolKind * Range * Range))
  (s0 s : DocumentSymbol) :
  frame <$> children s0 = frames ->
  (forall j c, children s0 !! j = Some c ->
     exists c', children s !! j = Some c' /\ frame c' = frame c) ->
  Forall2 (fun fr c => frame c = fr) frames
          (take (length frames) (children s)).
Proof.
  intros <- Hkeep. apply Forall2_lookup. intros j.
  rewrite list_lookup_fmap.
  destruct (children s0 !! j) as [c|] eqn:Hc; simpl.
  - destruct (Hkeep j c Hc) as (c' & Hc' & Hf).
    rewrite lookup_take_lt
      by (rewrite length_fmap; eapply lookup_lt_Some; eassumption).
    rewrite Hc'. constructor. assumption.
  - rewrite lookup_take_ge; [constructor|].
    rewrite length_fmap. apply lookup_ge_None. assumption.
Qed.

(** X11. Under the namespace symbol of a header the members found in the
    body of the header come first: one Variable child for each match of
    the pattern of namespace variables in the body, in their order, then
    one Function child for each match of the pattern of procedures in the
    body, in their order, whatever the order of variables and procedures
    in the text. What later stages put under the namespace comes behind
    them. The matches of the pattern of variables are not the [variable]
    lines one by one: a declaration that gives no value on its line takes
    the line that follows as its value, and a declaration on that line is
    then part of the match and gets no child of its own. *)
Theorem namespace_members_lead (document : TextDocument) :
  let headers := execAll nsRegex document in
  let outline := provideDocumentSymbols document in
  Forall2
    (fun m s =>
       Forall2 (fun fr c => frame c = fr) (memberFrames document m)
               (take (length (memberFrames document m)) (children s)))
    headers (take (length headers) outline).
Proof.
  cbv zeta.
  destruct (outline_stages document) as [_ Hkeeps]. cbv zeta in Hkeeps.
  pose proof (namespaces_refs document) as Hrefs. cbv zeta in Hrefs.
  destruct (procedures_placed document _ _ Hrefs) as [Hk _].
  pose proof (keeps_trans _ _ _ Hk Hkeeps) as Hall. clear Hk Hkeeps Hrefs.
  pose proof (namespaces_members document (execAll nsRegex document))
    as Hmem. cbv zeta in Hmem.
  unfold processNamespaces in Hall.
  set (symbols := fst (fold_left (namespaceStep document document)
                                 (execAll nsRegex document) ([], ∅))) in *.
  pose proof (Forall2_length _ _ _ Hmem) as Hlen.
  apply Forall2_lookup. intros i.
  destruct (execAll nsRegex document !! i) as [m|] eqn:Hm.
  - destruct (lookup_lt_is_Some_2 symbols i) as [s0 Hs0];
      [rewrite <- Hlen; eapply lookup_lt_Some; eassumption|].
    destruct (Hall i s0 Hs0) as (s & Hs & _ & Hchildren).
    rewrite lookup_take_lt by (eapply lookup_lt_Some; eassumption).
    rewrite Hs. constructor.
    apply (keeps_children_prefix _ s0); [|assumption].
    exact (Forall2_lookup_lr _ _ _ _ _ _ Hmem Hm Hs0).
  - rewrite lookup_take_ge; [constructor|].
    apply lookup_ge_None. assumption.
Qed.

(** Three declarations, two matches and two children: [variable a] has
    no value on its line and takes the line of [b] as its value. *)
Lemma namespace_members_lead_witness :
  let document :=
    doc ["namespace eval NS {"; "    variable a"; "    variable b";
         "    variable c 1"; "}"] in
  (fun fr => fst (fst (fst fr)))
    <$> flat_map (memberFrames document) (execAll nsRegex document)
  = [lit "a"; lit "c"] /\
  (fun s => (fun c => (name c, detail c)) <$> children s)
    <$> provideDocumentSymbols document
  = [[(lit "a", lit "value: variable b"); (lit "c", lit "value: 1")]] /\
  Forall2
    (fun m s =>
       Forall2 (fun fr c => frame c = fr) (memberFrames document m)
               (take (length (memberFrames document m)) (children s)))
    (execAll nsRegex document)
    (take (length (execAll nsRegex document))
          (provideDocumentSymbols document)).
Proof.
  cbv zeta. split; [vm_compute; reflexivity|].
  split; [vm_compute; reflexivity|].
  apply (namespace_members_lead
           (doc ["namespace eval NS {"; "    variable a"; "    variable b";
                 "    variable c 1"; "}"])).
Defined.

End NamespaceMembersOrder.

(** ** Qualified names *)

Section ScopeParts.
Import JSStr TclDefinitionProvider.

Lemma splitScope_aux_cons (c : ascii) (t cur : str) :
  splitScope_aux (c :: t) cur
  = if startsWith (c :: t) (lit "::")
    then reverse cur :: splitScope_aux (drop 1 t) []
    else splitScope_aux t (c :: cur).
Proof.
  destruct c as [[] [] [] [] [] [] [] []]; try reflexivity.
  destruct t as [|d t]; [reflexivity|].
  destruct d as [[] [] [] [] [] [] [] []]; try reflexivity.
  destruct t; reflexivity.
Qed.

(** What was read of a part before the scan goes on stands in front of
    the first part the scan gives. *)
Lemma splitScope_aux_acc (t : str) :
  forall cur, exists p ps,
    splitScope_aux t [] = p :: ps /\
    splitScope_aux t cur = (reverse cur ++ p) :: ps.
Proof.
  induction t as [|c t IH]; intros cur.
  - exists [], []. split; [reflexivity|]. simpl. rewrite app_nil_r.
    reflexivity.
  - rewrite !splitScope_aux_cons.
    destruct (startsWith (c :: t) (lit "::")).
    + exists [], (splitScope_aux (drop 1 t) []).
      split; [reflexivity|]. rewrite app_nil_r. reflexivity.
    + destruct (IH [c]) as (p & ps & H0 & H1).
      destruct (IH (c :: cur)) as (p' & ps' & H0' & H1').
      rewrite H0 in H0'. injection H0' as <- <-.
      exists (c :: p), ps. rewrite H1, H1'.
      split; [reflexivity|]. rewrite reverse_cons, <- app_assoc.
      reflexivity.
Qed.

Lemma splitScope_cons (c : ascii) (t : str) :
  splitScope (c :: t)
  = if startsWith (c :: t) (lit "::")
    then [] :: splitScope (drop 1 t)
    else match splitScope t with
         | p :: ps => (c :: p) :: ps
         | [] => [[c]]
         end.
Proof.
  unfold splitScope. rewrite splitScope_aux_cons.
  destruct (startsWith (c :: t) (lit "::")); [reflexivity|].
  destruct (splitScope_aux_acc t [c]) as (p & ps & H0 & H1).
  rewrite H1, H0. reflexivity.
Qed.

Lemma splitScope_nonempty (t : str) : splitScope t <> [].
Proof.
  unfold splitScope. destruct (splitScope_aux_acc t []) as (p & ps & H0 & _).
  rewrite H0. discriminate.
Qed.

Lemma joinScope_cons (p : str) (ps : list str) :
  ps <> [] -> joinScope (p :: ps) = p ++ lit "::" ++ joinScope ps.
Proof. destruct ps; [congruence|reflexivity]. Qed.

Lemma joinScope_head (c : ascii) (p : str) (ps : list str) :
  joinScope ((c :: p) :: ps) = c :: joinScope (p :: ps).
Proof. destruct ps; reflexivity. Qed.

Lemma joinScope_snoc (init : list str) (x : str) :
  init <> [] -> joinScope (init ++ [x]) = joinScope init ++ lit "::" ++ x.
Proof.
  induction init as [|p init IH]; [congruence|]. intros _.
  destruct init as [|q init]; [reflexivity|].
  change ((p :: q :: init) ++ [x]) with (p :: ((q :: init) ++ [x])).
  rewrite joinScope_cons by (destruct init; discriminate).
  rewrite IH by discriminate.
  rewrite (joinScope_cons p (q :: init)) by discriminate.
  rewrite <- !app_assoc. reflexivity.
Qed.

Lemma startsWith_two (c d : ascii) (t : str) :
  startsWith (c :: d :: t) (lit "::")
  = Ascii.eqb ":"%char c && Ascii.eqb ":"%char d.
Proof.
  change (lit "::") with [":"%char; ":"%char]. cbn [startsWith].
  destruct t; cbn [startsWith]; rewrite andb_true_r; reflexivity.
Qed.

Lemma startsWith_one (c : ascii) : startsWith [c] (lit "::") = false.
Proof.
  change (lit "::") with [":"%char; ":"%char]. cbn [startsWith].
  apply andb_false_r.
Qed.

Lemma startsWith_scope (c : ascii) (t : str) :
  startsWith (c :: t) (lit "::") = true ->
  c = ":"%char /\ exists t', t = ":"%char :: t'.
Proof.
  destruct t as [|d t]; [rewrite startsWith_one; discriminate|].
  rewrite startsWith_two. intros H. apply andb_true_iff in H as [Hc Hd].
  apply Ascii.eqb_eq in Hc, Hd. subst. eauto.
Qed.

Lemma indexOf_from_shift (needle t : str) (i j : Z) :
  indexOf_from needle t i = -1 -> 0 <= i -> 0 <= j ->
  indexOf_from needle t j = -1.
Proof.
  revert i j. induction t as [|c t IH]; intros i j; cbn [indexOf_from].
  - destruct (startsWith [] needle); [lia|reflexivity].
  - destruct (startsWith (c :: t) needle); [lia|].
    intros H Hi Hj. apply (IH (i + 1)); [assumption|lia|lia].
Qed.

(** The parts of a name give the name back, and no part holds the
    separator. *)
Lemma splitScope_parts (n : nat) :
  forall t : str, (length t <= n)%nat ->
    joinScope (splitScope t) = t /\
    Forall (fun p => indexOf (lit "::") p = -1) (splitScope t).
Proof.
  induction n as [n IH] using lt_wf_ind. intros [|c t] Hlen.
  - split; [reflexivity|]. repeat constructor.
  - rewrite splitScope_cons.
    destruct (startsWith (c :: t) (lit "::")) eqn:Hsw.
    + apply startsWith_scope in Hsw as (-> & t' & ->).
      change (drop 1 (":"%char :: t')) with t'. simpl in Hlen.
      destruct (IH (length t') ltac:(lia) t' ltac:(lia)) as [Hj Hf].
      split; [|constructor; [reflexivity|assumption]].
      rewrite joinScope_cons by apply splitScope_nonempty.
      rewrite Hj. reflexivity.
    + simpl in Hlen.
      destruct (IH (length t) ltac:(lia) t ltac:(lia)) as [Hj Hf].
      destruct (splitScope t) as [|p ps] eqn:Hparts;
        [exfalso; exact (splitScope_nonempty t Hparts)|].
      split; [rewrite joinScope_head, Hj; reflexivity|].
      apply Forall_cons in Hf as [Hp Hps].
      constructor; [|assumption].
      unfold indexOf in *. cbn [indexOf_from].
      assert (Hno : startsWith (c :: p) (lit "::") = false).
      { destruct p as [|d p]; [apply startsWith_one|].
        rewrite <- Hj, joinScope_head, startsWith_two in Hsw.
        rewrite startsWith_two. exact Hsw. }
      rewrite Hno. apply (indexOf_from_shift _ _ 0); [assumption|lia|lia].
Qed.

Lemma includes_scope_parts (t : str) :
  forall i, 0 <= i -> 0 <= indexOf_from (lit "::") t i ->
            (2 <= length (splitScope t))%nat.
Proof.
  induction t as [|c t IH]; intros i Hi; [simpl; lia|].
  cbn [indexOf_from]. rewrite splitScope_cons.
  destruct (startsWith (c :: t) (lit "::")).
  - intros _. pose proof (splitScope_nonempty (drop 1 t)) as Hne.
    destruct (splitScope (drop 1 t)); [congruence|]. simpl. lia.
  - intros H. specialize (IH (i + 1) ltac:(lia) H).
    destruct (splitScope t); simpl in *; lia.
Qed.

(** X12. A name that holds the separator [::] is read as a namespace and
    a symbol that give the name back when the separator is put between
    them, and the symbol holds no separator: the name is cut at its last
    separator. *)
Theorem qualified_name_parts (qualifiedName : str) :
  includes qualifiedName (lit "::") = true ->
  qualifiedName
  = namespaceOf qualifiedName ++ lit "::" ++ symbolOf qualifiedName /\
  includes (symbolOf qualifiedName) (lit "::") = false.
Proof.
  unfold includes at 1. intros Hinc. apply Z.leb_le in Hinc.
  pose proof (includes_scope_parts qualifiedName 0 ltac:(lia) Hinc) as Hlen.
  destruct (splitScope_parts (length qualifiedName) qualifiedName
              ltac:(lia)) as [Hjoin Hparts].
  unfold namespaceOf, symbolOf. cbv zeta.
  destruct (splitScope qualifiedName) as [|p ps] using rev_ind;
    [simpl in Hlen; lia|]. clear IHps.
  rename p into x, ps into init.
  rewrite length_app in *. simpl in Hlen.
  replace (length init + length [x] - 1)%nat with (length init)
    by (simpl; lia).
  rewrite take_app_length. rewrite last_snoc. simpl.
  assert (Hinit : init <> []) by (destruct init; simpl in Hlen; [lia|discriminate]).
  rewrite joinScope_snoc in Hjoin by assumption.
  split; [symmetry; assumption|].
  apply Forall_app in Hparts as [_ Hx]. apply Forall_cons in Hx as [Hx _].
  change (includes x (lit "::") = false). unfold includes.
  rewrite Hx. reflexivity.
Qed.

Lemma qualified_name_parts_witness :
  includes (lit "app::util::log") (lit "::") = true /\
  namespaceOf (lit "app::util::log") = lit "app::util" /\
  symbolOf (lit "app::util::log") = lit "log" /\
  lit "app::util::log"
  = namespaceOf (lit "app::util::log") ++ lit "::"
    ++ symbolOf (lit "app::util::log").
Proof.
  split; [reflexivity|]. split; [reflexivity|]. split; [reflexivity|].
  apply (qualified_name_parts (lit "app::util::log")). reflexivity.
Defined.

End ScopeParts.

(** ** Hover and definition on the same word *)

Section HoverAndDefinition.
Import RegExp RegExpNotations vscode Host.

(** Where the pattern of the hover of a procedure matches, the pattern of
    its definition matches from the same place. *)
Lemma procHover_header (text procName : str) (m : rmatch) :
  exec (TclHoverProvider.procHoverRegex procName) text 0 = Some m ->
  exists m', exec (TclDefinitionProvider.procDefRegex procName) text 0
             = Some m'.
Proof.
  intros Hexec.
  destruct (exec_Matches text _ 0 m ltac:(lia) Hexec) as (H0 & _ & _ & Hm).
  unfold TclHoverProvider.procHoverRegex in Hm.
  apply Matches_Seq_inv in Hm as (j1 & Hproc & Hm).
  apply Matches_Seq_inv in Hm as (j2 & Hws & Hm).
  apply Matches_Seq_inv in Hm as (j3 & Hname & Hm).
  apply Matches_Seq_inv in Hm as (j4 & Hws' & Hm).
  apply Matches_Seq_inv in Hm as (j5 & Hbrace & _).
  assert (Hdef : Matches text (TclDefinitionProvider.procDefRegex procName)
                         (index m) j5).
  { unfold TclDefinitionProvider.procDefRegex.
    repeat (eapply M_Seq; [eassumption|]). assumption. }
  destruct (exec (TclDefinitionProvider.procDefRegex procName) text 0)
    as [m'|] eqn:Hdefexec; [eauto|]. exfalso.
  assert (Hmin : 1 <= minLen (TclDefinitionProvider.procDefRegex procName)).
  { simpl. pose proof (minLen_nonneg (Str procName)). lia. }
  apply (proj1 (exec_None_iff text _ 0 ltac:(lia) Hmin) Hdefexec
           (index m) j5); [lia|assumption].
Qed.

(** X13. When the hover of a word that is not a variable reference
    describes a procedure, going to the definition from the same position
    gives a location in this document, and no file of the workspace is
    asked for: this holds for a bare name and for a name qualified by a
    namespace. *)
Theorem hover_procedure_resolves (document : TextDocument)
  (position : Position) (h : TclHoverProvider.Hover) (rest : str)
  (w : Workspace) :
  TclHoverProvider.provideHover document position = Some h ->
  TclDefinitionProvider.isVariableReference
    (lineText document (line position)) (character position) = false ->
  head (TclHoverProvider.contents h) = Some (lit "**Procedure**: `" ++ rest) ->
  exists l,
    TclDefinitionProvider.provideDefinition document position w
    = ([], Some l) /\
    locUri l = uri document.
Proof.
  unfold TclHoverProvider.provideHover,
    TclDefinitionProvider.provideDefinition.
  destruct (getWordAtPosition document position) as [word|]; [|discriminate].
  cbv zeta. intros Hhover Hvar Hhead. rewrite Hvar in *.
  destruct (JSStr.includes word (lit "::")).
  - unfold TclHoverProvider.getNamespacedSymbolHover in Hhover.
    unfold TclDefinitionProvider.findNamespaceQualifiedDefinition,
      TclDefinitionProvider.findInNamespace.
    unfold TclHoverProvider.getNamespaceText in Hhover. cbv zeta in *.
    destruct (exec (TclDefinitionProvider.nsDefRegex
                      (TclDefinitionProvider.namespaceOf word)) document 0)
      as [m|]; [|discriminate].
    destruct (TclDefinitionProvider.truthy (findMatchingBrace document _))
      as [nsBodyEnd|]; [|discriminate].
    revert Hhover.
    destruct (JS.substring document _ nsBodyEnd) as [|c nsBody];
      [discriminate|].
    intros Hhover.
    destruct (exec (TclHoverProvider.procHoverRegex
                      (TclDefinitionProvider.symbolOf word))
                   (c :: nsBody) 0)
      as [pm|] eqn:Hpm.
    + destruct (procHover_header _ _ _ Hpm) as (m' & Hm'). rewrite Hm'.
      eexists. split; reflexivity.
    + exfalso.
      destruct (exec (TclHoverProvider.nsVariableRegex _) (c :: nsBody) 0);
        [|discriminate].
      injection Hhover as <-. simpl in Hhead. discriminate.
  - unfold TclHoverProvider.getProcedureHover in Hhover.
    unfold TclDefinitionProvider.findProcedureDefinition. cbv zeta in *.
    destruct (exec (TclHoverProvider.procHoverRegex word) document 0)
      as [pm|] eqn:Hpm.
    + destruct (procHover_header _ _ _ Hpm) as (m' & Hm'). rewrite Hm'.
      eexists. split; reflexivity.
    + exfalso. unfold TclHoverProvider.getNamespaceHover in Hhover.
      cbv zeta in Hhover.
      destruct (exec (TclHoverProvider.nsHoverRegex word) document 0);
        [|discriminate].
      injection Hhover as <-. simpl in Hhead. discriminate.
Qed.

Lemma hover_procedure_resolves_witness :
  let document :=
    doc ["proc greet {name} {"; "    puts $name"; "}"; "greet world"] in
  let position := mkPosition 3 2 in
  TclHoverProvider.provideHover document position
  = Some (TclHoverProvider.mkHover
            [lit "**Procedure**: `greet`"; lit "**Arguments**: `name`"; []]
            None) /\
  exists l,
    TclDefinitionProvider.provideDefinition document position []
    = ([], Some l) /\
    locUri l = 0%nat.
Proof.
  cbv zeta. split; [vm_compute; reflexivity|].
  apply (hover_procedure_resolves
           (doc ["proc greet {name} {"; "    puts $name"; "}";
                 "greet world"])
           (mkPosition 3 2)
           (TclHoverProvider.mkHover
              [lit "**Procedure**: `greet`"; lit "**Arguments**: `name`";
               []] None)
           (lit "greet`") []).
  - vm_compute. reflexivity.
  - vm_compute. reflexivity.
  - reflexivity.
Defined.

End HoverAndDefinition.

(** ** The documentation above a declaration *)

Section DocCommentLines.
Import vscode TclHoverProvider.

Lemma len_app (a b : str) : JS.len (a ++ b) = JS.len a + JS.len b.
Proof. unfold JS.len. rewrite length_app. lia. Qed.

Lemma substring_middle (a b c : str) :
  JS.substring (a ++ b ++ c) (JS.len a) (JS.len a + JS.len b) = b.
Proof.
  pose proof (len_nonneg a). pose proof (len_nonneg b).
  pose proof (len_nonneg c).
  rewrite substring_ordered by (rewrite ?len_app; lia).
  replace (Z.to_nat (JS.len a)) with (length a) by (unfold JS.len; lia).
  replace (Z.to_nat (JS.len a + JS.len b - JS.len a)) with (length b)
    by (unfold JS.len; lia).
  rewrite drop_app_length, take_app_length. reflexivity.
Qed.

(** The last line feed at or before the end of a run without line feeds
    is the one in front of the run. *)
Lemma lastIndexOfCharFrom_run (a b c : str) :
  ~ In NL b ->
  JSStr.lastIndexOfCharFrom NL (a ++ [NL] ++ b ++ c) (JS.len a + JS.len b)
  = JS.len a.
Proof.
  intros Hb. pose proof (len_nonneg a). pose proof (len_nonneg b).
  unfold JSStr.lastIndexOfCharFrom, JSStr.lastIndexOfChar.
  replace (Z.to_nat (Z.max 0 (JS.len a + JS.len b) + 1))
    with (length (a ++ [NL] ++ b))
    by (rewrite !length_app; unfold JS.len in *; simpl; lia).
  replace (a ++ [NL] ++ b ++ c) with ((a ++ [NL] ++ b) ++ c)
    by (rewrite <- !app_assoc; reflexivity).
  rewrite take_app_length.
  rewrite !lastIndexOfChar_from_app. cbn [JSStr.lastIndexOfChar_from].
  change (Ascii.eqb NL NL) with true. cbv iota.
  rewrite lastIndexOfChar_from_absent by assumption. lia.
Qed.

(** No line feed lies at or before the end of a first line. *)
Lemma lastIndexOfCharFrom_first (a c : str) :
  ~ In NL a -> 1 <= JS.len a ->
  JSStr.lastIndexOfCharFrom NL (a ++ c) (JS.len a - 1) = -1.
Proof.
  intros Ha Hlen.
  unfold JSStr.lastIndexOfCharFrom, JSStr.lastIndexOfChar.
  replace (Z.to_nat (Z.max 0 (JS.len a - 1) + 1)) with (length a)
    by (unfold JS.len in *; lia).
  rewrite take_app_length. apply lastIndexOfChar_from_absent. assumption.
Qed.

Lemma linesText_snoc (first : str) (above : list str) (l : str) :
  linesText first (above ++ [l]) = linesText first above ++ l ++ [NL].
Proof.
  unfold linesText. rewrite fmap_app, concat_app. simpl.
  rewrite app_nil_r, <- !app_assoc. reflexivity.
Qed.

(** The text of the lines ends with a line feed. *)
Lemma linesText_last (first : str) (above : list str) :
  exists q, linesText first above = q ++ [NL] /\
            JS.len (linesText first above) = JS.len q + 1.
Proof.
  destruct above as [|l above _] using rev_ind.
  - exists first. unfold linesText. simpl. rewrite len_app. split; reflexivity.
  - exists (linesText first above ++ l). rewrite linesText_snoc.
    rewrite app_assoc. split; [reflexivity|]. rewrite !len_app. reflexivity.
Qed.

Lemma linesText_length (first : str) (above : list str) :
  Z.of_nat (length above) + 1 <= JS.len (linesText first above).
Proof.
  induction above as [|l above IH] using rev_ind.
  - unfold linesText. simpl. rewrite len_app.
    pose proof (len_nonneg first). unfold JS.len at 2. simpl. lia.
  - rewrite linesText_snoc, length_app, !len_app.
    pose proof (len_nonneg l). unfold JS.len at 3. simpl. lia.
Qed.

(** The loop, started at the end of the last of the lines [above], reads
    them as [docScan] reads them, and never the first line. *)
Lemma extractDocComment_loop_lines (first : str) :
  ~ In NL first ->
  forall (above : list str) (tail : str) (fuel : nat) (comments : list str),
    Forall (fun l => ~ In NL l) above ->
    (length above < fuel)%nat ->
    extractDocComment_loop fuel (linesText first above ++ tail)
      (JS.len (linesText first above) - 2) comments
    = docScan (reverse above) comments.
Proof.
  intros Hfirst above.
  induction above as [|l above IH] using rev_ind;
    intros tail fuel comments Hlines Hfuel.
  - destruct fuel as [|fuel]; [simpl in Hfuel; lia|].
    cbn [extractDocComment_loop reverse docScan].
    unfold linesText. simpl concat. rewrite app_nil_r.
    rewrite len_app. change (JS.len [NL]) with 1.
    pose proof (len_nonneg first) as Hl.
    destruct (Z.leb_spec 0 (JS.len first + 1 - 2)) as [Hpos|_];
      [|reflexivity].
    replace (JS.len first + 1 - 2) with (JS.len first - 1) by lia.
    rewrite <- app_assoc.
    rewrite lastIndexOfCharFrom_first by (assumption || lia).
    reflexivity.
  - apply Forall_app in Hlines as [Habove Hl].
    apply Forall_cons in Hl as [Hl _].
    rewrite length_app in Hfuel. simpl in Hfuel.
    destruct fuel as [|fuel]; [lia|].
    rewrite reverse_app. cbn [reverse app docScan].
    change (reverse [l]) with [l]. cbn [app docScan].
    cbn [extractDocComment_loop].
    destruct (linesText_last first above) as (q & Hq & Hqlen).
    rewrite linesText_snoc, !len_app. change (JS.len [NL]) with 1.
    pose proof (len_nonneg q) as Hq0. pose proof (len_nonneg l) as Hl0.
    destruct (Z.leb_spec 0 (JS.len (linesText first above)
                            + (JS.len l + 1) - 2)) as [_|Hneg]; [|lia].
    assert (Hprev :
      JSStr.lastIndexOfCharFrom NL
        ((linesText first above ++ l ++ [NL]) ++ tail)
        (JS.len (linesText first above) + (JS.len l + 1) - 2)
      = JS.len q).
    { rewrite Hqlen, Hq.
      replace (JS.len q + 1 + (JS.len l + 1) - 2) with (JS.len q + JS.len l)
        by lia.
      replace (((q ++ [NL]) ++ l ++ [NL]) ++ tail)
        with (q ++ [NL] ++ l ++ ([NL] ++ tail))
        by (rewrite <- !app_assoc; reflexivity).
      apply lastIndexOfCharFrom_run. assumption. }
    rewrite Hprev.
    destruct (Z.eqb_spec (JS.len q) (-1)) as [?|_]; [lia|].
    assert (Hline :
      JS.substring ((linesText first above ++ l ++ [NL]) ++ tail)
        (JS.len q + 1)
        (JS.len (linesText first above) + (JS.len l + 1) - 2 + 1)
      = l).
    { rewrite <- Hqlen.
      replace (JS.len (linesText first above) + (JS.len l + 1) - 2 + 1)
        with (JS.len (linesText first above) + JS.len l) by lia.
      replace ((linesText first above ++ l ++ [NL]) ++ tail)
        with (linesText first above ++ l ++ ([NL] ++ tail))
        by (rewrite <- !app_assoc; reflexivity).
      apply substring_middle. }
    rewrite Hline.
    replace ((linesText first above ++ l ++ [NL]) ++ tail)
      with (linesText first above ++ (l ++ [NL] ++ tail))
      by (rewrite <- !app_assoc; reflexivity).
    replace (JS.len q - 1) with (JS.len (linesText first above) - 2) by lia.
    destruct (JSStr.startsWith (JSStr.trim l) (lit "#")).
    + apply IH; [assumption|lia].
    + destruct (negb (bool_decide (JSStr.trim l = []))); [reflexivity|].
      apply IH; [assumption|lia].
Qed.

(** X14. The documentation of a declaration is read from the lines above
    the line of the declaration, from the nearest one upwards: a line
    that, trimmed, starts with [#] gives what follows the [#], trimmed; an
    empty line is passed over; the first other line ends the reading. The
    lines read come out in the order of the text, joined by line feeds.
    The first line of the text is never among them. *)
Theorem extractDocComment_lines (first : str) (above : list str)
  (seg rest : str) :
  ~ In NL first -> Forall (fun l => ~ In NL l) above -> ~ In NL seg ->
  extractDocComment (linesText first above ++ seg ++ rest)
                    (JS.len (linesText first above) + JS.len seg)
  = joinLines (docScan (reverse above) []).
Proof.
  intros Hfirst Habove Hseg. unfold extractDocComment.
  destruct (linesText_last first above) as (q & Hq & Hqlen).
  pose proof (len_nonneg q) as Hq0.
  assert (Hstart :
    JSStr.lastIndexOfCharFrom NL (linesText first above ++ seg ++ rest)
      (JS.len (linesText first above) + JS.len seg - 1)
    = JS.len q).
  { rewrite Hqlen, Hq.
    replace (JS.len q + 1 + JS.len seg - 1) with (JS.len q + JS.len seg)
      by lia.
    rewrite <- app_assoc. apply lastIndexOfCharFrom_run. assumption. }
  rewrite Hstart.
  destruct (Z.eqb_spec (JS.len q) (-1)) as [?|_]; [lia|].
  f_equal.
  replace (JS.len q - 1) with (JS.len (linesText first above) - 2) by lia.
  apply extractDocComment_loop_lines; [assumption|assumption|].
  pose proof (linesText_length first above). lia.
Qed.

Lemma extractDocComment_lines_witness :
  let above := [lit "set x 1"; lit "# Adds two numbers."; lit "";
                lit "  #   Returns the sum."] in
  let text :=
    linesText (lit "# File header") above ++ lit "proc " ++ lit "add {a b} {}"
  in
  text = unlines ["# File header"; "set x 1"; "# Adds two numbers."; "";
                  "  #   Returns the sum."; "proc add {a b} {}"] /\
  extractDocComment text (JS.len text - 12)
  = unlines ["Adds two numbers."; "Returns the sum."] /\
  extractDocComment (linesText (lit "# File header") [] ++ lit "proc f {} {}")
                    (JS.len (linesText (lit "# File header") []))
  = [].
Proof.
  cbv zeta. split; [reflexivity|]. split.
  - pose proof (extractDocComment_lines (lit "# File header")
                  [lit "set x 1"; lit "# Adds two numbers."; lit "";
                   lit "  #   Returns the sum."]
                  (lit "proc ") (lit "add {a b} {}")) as H.
    vm_compute in H. vm_compute. apply H.
    + intuition discriminate.
    + repeat constructor; intuition discriminate.
    + intuition discriminate.
  - pose proof (extractDocComment_lines (lit "# File header") [] []
                  (lit "proc f {} {}")) as H.
    vm_compute in H. vm_compute. apply H.
    + intuition discriminate.
    + constructor.
    + intros [].
Defined.

End DocCommentLines.

(** ** What the outline holds at any depth *)

Section Occurs.
Import RegExp RegExpNotations vscode TclDocumentSymbolProvider.

Lemma lookupAt_cons (i j : nat) (ref : SymbolRef)
  (l : list DocumentSymbol) :
  lookupAt (i :: j :: ref) l
  = match l !! i with
    | Some s => lookupAt (j :: ref) (children s)
    | None => None
    end.
Proof. reflexivity. Qed.







Lemma reported_occurs (fr : str * SymbolKind * Range * Range)
  (l : list DocumentSymbol) :
  reported fr l -> occurs fr l.
Proof.
  intros (i & s & Hs & [Hf|(j & c & Hc & Hf)]).
  - exists [i], s. split; assumption.
  - exists [i; j], c. rewrite lookupAt_cons, Hs. split; assumption.
Qed.

End Occurs.

(** ** What every stage of the outline reports *)

Section Scan.
Import RegExp RegExpNotations vscode TclDocumentSymbolProvider.
Variable document : TextDocument.

(** *** Global variables *)


(** *** Control blocks *)






(** *** Procedures in the body of a namespace *)



End Scan.

(** ** Blocks whose closing brace is not found *)

Section UnmatchedBraces.
Import RegExp RegExpNotations vscode TclDocumentSymbolProvider.




End UnmatchedBraces.

(** ** Qualified names: the search in the block of the namespace *)

Section QualifiedResolution.
Import RegExp RegExpNotations vscode Host TclDefinitionProvider.

(** What [exec] from the start of a text answers, in terms of the places
    where the pattern matches. *)
Lemma exec_first (text : str) (r : regex) (m : rmatch) :
  1 <= minLen r -> exec r text 0 = Some m ->
  forall i j, i < index m -> ~ Matches text r i j.
Proof.
  intros Hmin Hexec i j Hi Hm.
  pose proof (Matches_minLen text _ _ _ Hm) as Hlen.
  destruct (Matches_bounds text _ _ _ Hm) as [_ Hin].
  specialize (Hin ltac:(lia)).
  apply (exec_leftmost text r 0 m Hexec i j); [lia|assumption].
Qed.

Lemma exec_nowhere (text : str) (r : regex) :
  1 <= minLen r -> exec r text 0 = None ->
  forall i j, ~ Matches text r i j.
Proof.
  intros Hmin Hexec i j Hm.
  pose proof (Matches_minLen text _ _ _ Hm) as Hlen.
  destruct (Matches_bounds text _ _ _ Hm) as [_ Hin].
  specialize (Hin ltac:(lia)).
  apply (proj1 (exec_None_iff text r 0 ltac:(lia) Hmin) Hexec i j);
    [lia|assumption].
Qed.

Lemma minLen_nsDefRegex (n : str) : 1 <= minLen (nsDefRegex n).
Proof. simpl. pose proof (minLen_nonneg (Str n)). lia. Qed.

Lemma minLen_procDefRegex (n : str) : 1 <= minLen (procDefRegex n).
Proof. simpl. pose proof (minLen_nonneg (Str n)). lia. Qed.

Lemma minLen_variableRegex (n : str) : 1 <= minLen (variableRegex n).
Proof. simpl. pose proof (minLen_nonneg (Str n)). lia. Qed.

(** The calls of the search across files, whatever it is asked for. *)
Lemma searchInWorkspace_calls (symbolName : str) (w : Workspace) :
  exists opened rest,
    w = opened ++ rest /\
    calls (searchInWorkspace symbolName) w
    = FindFiles (lit "**/*.tcl")
      :: map (fun d => OpenTextDocument (uri d)) opened /\
    match result (searchInWorkspace symbolName) w with
    | Some l =>
        exists pre d,
          opened = pre ++ [d] /\
          searchInFile symbolName d = Some l /\
          Forall (fun d' => searchInFile symbolName d' = None) pre
    | None =>
        rest = [] /\
        Forall (fun d' => searchInFile symbolName d' = None) opened
    end.
Proof.
  destruct (searchInFiles_first_hit symbolName w w)
    as (opened & rest & Heq & Hlog & Hres).
  exists opened, rest. split; [assumption|].
  unfold calls, result, searchInWorkspace, bind, findFiles.
  destruct (searchInFiles symbolName w w) as [log res].
  simpl in *. rewrite Hlog. split; [reflexivity|assumption].
Qed.

(** C2. A definition query on a word that holds the scope separator and
    is not a variable reference splits the word into the namespace path
    and the leaf name. If the document has a header of the namespace of
    that name and the brace that opens the block of the first such header
    has a match, the text between the two braces, and only that text, is
    searched: for the first place that reads as the declaration of a
    procedure called by the leaf name and, when there is no such place,
    for the first place that reads as the declaration of a variable
    called by the leaf name. The location returned starts at that place,
    which lies inside the block, and the workspace is not asked. When the
    document has no header of the namespace, or the brace of the first one
    has no match, or the text between the braces holds neither
    declaration, the search across files is made with the whole qualified
    name: the editor is asked for the TCL files, and they are opened and
    searched for that name, one by one, up to the first that answers. *)
Theorem qualified_name_resolution
  (document : TextDocument) (position : Position) (word : str)
  (w : Workspace) :
  getWordAtPosition document position = Some word ->
  isVariableReference (lineText document (line position))
                      (character position) = false ->
  JSStr.includes word (lit "::") = true ->
  let text : str := document in
  let namespace := namespaceOf word in
  let leafName := symbolOf word in
  (exists (nsMatch : rmatch) (nsBodyEnd : Z) (found : rmatch)
          (pattern : regex) (l : Location),
      exec (nsDefRegex namespace) text 0 = Some nsMatch /\
      Matches text (nsDefRegex namespace) (index nsMatch) (endIndex nsMatch) /\
      (forall i j, i < index nsMatch ->
                   ~ Matches text (nsDefRegex namespace) i j) /\
      let nsBodyStart := endIndex nsMatch - 1 in
      JS.charAt text nsBodyStart = Some LBRACE /\
      findMatchingBrace text nsBodyStart = Some nsBodyEnd /\
      let nsBody := JS.substring text (nsBodyStart + 1) nsBodyEnd in
      ((pattern = procDefRegex leafName /\
        exec (procDefRegex leafName) nsBody 0 = Some found) \/
       (pattern = variableRegex leafName /\
        exec (procDefRegex leafName) nsBody 0 = None /\
        (forall i j, ~ Matches nsBody (procDefRegex leafName) i j) /\
        exec (variableRegex leafName) nsBody 0 = Some found)) /\
      Matches nsBody pattern (index found) (endIndex found) /\
      (forall i j, i < index found -> ~ Matches nsBody pattern i j) /\
      nsBodyStart < nsBodyStart + 1 + index found /\
      nsBodyStart + 1 + endIndex found <= nsBodyEnd /\
      start (locRange l)
      = positionAt document (nsBodyStart + 1 + index found) /\
      locUri l = uri document /\
      provideDefinition document position w = ([], Some l))
  \/
  (findInNamespace document word = None /\
   ((forall i j, ~ Matches text (nsDefRegex namespace) i j) \/
    (exists nsMatch : rmatch,
        exec (nsDefRegex namespace) text 0 = Some nsMatch /\
        findMatchingBrace text (endIndex nsMatch - 1) = None) \/
    (exists (nsMatch : rmatch) (nsBodyEnd : Z),
        exec (nsDefRegex namespace) text 0 = Some nsMatch /\
        findMatchingBrace text (endIndex nsMatch - 1) = Some nsBodyEnd /\
        let nsBody := JS.substring text (endIndex nsMatch - 1 + 1) nsBodyEnd in
        (forall i j, ~ Matches nsBody (procDefRegex leafName) i j) /\
        (forall i j, ~ Matches nsBody (variableRegex leafName) i j))) /\
   provideDefinition document position w = searchInWorkspace word w /\
   exists opened rest,
     w = opened ++ rest /\
     calls (provideDefinition document position) w
     = FindFiles (lit "**/*.tcl")
       :: map (fun d => OpenTextDocument (uri d)) opened /\
     match result (provideDefinition document position) w with
     | Some l =>
         exists pre d,
           opened = pre ++ [d] /\
           searchInFile word d = Some l /\
           Forall (fun d' => searchInFile word d' = None) pre
     | None =>
         rest = [] /\
         Forall (fun d' => searchInFile word d' = None) opened
     end).
Proof.
  intros Hword Hvar Hsep text namespace leafName.
  assert (Hdef : provideDefinition document position
                 = findNamespaceQualifiedDefinition document word).
  { unfold provideDefinition. rewrite Hword, Hvar, Hsep. reflexivity. }
  rewrite Hdef. clear Hdef.
  unfold findNamespaceQualifiedDefinition.
  destruct (findInNamespace document word) as [l|] eqn:Hfind.
  - left.
    unfold findInNamespace in Hfind. fold text namespace leafName in Hfind.
    destruct (exec (nsDefRegex namespace) text 0) as [nsMatch|] eqn:Hns;
      [|discriminate].
    pose proof (exec_Matches text _ 0 nsMatch ltac:(lia) Hns)
      as (Hi0 & Hi1 & Hi2 & Hm).
    rewrite (matched_length text nsMatch) in Hfind by lia.
    replace (index nsMatch + (endIndex nsMatch - index nsMatch) - 1)
      with (endIndex nsMatch - 1) in Hfind by lia.
    assert (Hbrace : JS.charAt text (endIndex nsMatch - 1) = Some LBRACE).
    { eapply Matches_lastLit; [|exact Hm]. reflexivity. }
    pose proof (charAt_Some_range _ _ _ Hbrace) as Hbr.
    rewrite definition_truthy_matched in Hfind by lia.
    pose proof (findMatchingBrace_spec text (endIndex nsMatch - 1)
                  ltac:(lia)) as Hspec.
    destruct (findMatchingBrace text (endIndex nsMatch - 1)) as [nsBodyEnd|]
      eqn:Hfm; [|discriminate].
    destruct Hspec as (Hend & _).
    set (nsBody := JS.substring text (endIndex nsMatch - 1 + 1) nsBodyEnd)
      in *.
    assert (Hlen : JS.len nsBody = nsBodyEnd - (endIndex nsMatch - 1 + 1))
      by (apply substring_length; lia).
    destruct (exec (procDefRegex leafName) nsBody 0) as [pm|] eqn:Hproc.
    + pose proof (exec_Matches nsBody _ 0 pm ltac:(lia) Hproc)
        as (Hp0 & Hp1 & Hp2 & Hpm).
      injection Hfind as Hl.
      exists nsMatch, nsBodyEnd, pm, (procDefRegex leafName), l.
      subst l. split; [reflexivity|]. split; [assumption|].
      split; [apply exec_first; [apply minLen_nsDefRegex|assumption]|].
      cbv zeta. split; [assumption|]. split; [exact Hfm|].
      split; [left; split; [reflexivity|assumption]|].
      split; [assumption|].
      split; [apply exec_first; [apply minLen_procDefRegex|assumption]|].
      split; [lia|]. split; [lia|].
      split; [|split; reflexivity].
      apply blockLocation_start; [reflexivity|].
      rewrite (matched_length nsBody pm) by lia.
      pose proof (Matches_minLen nsBody _ _ _ Hpm) as Hmin.
      simpl in Hmin. pose proof (minLen_nonneg (Str leafName)). lia.
    + destruct (exec (variableRegex leafName) nsBody 0) as [vm|] eqn:Hvarm;
        [|discriminate].
      pose proof (exec_Matches nsBody _ 0 vm ltac:(lia) Hvarm)
        as (Hp0 & Hp1 & Hp2 & Hpm).
      injection Hfind as Hl.
      exists nsMatch, nsBodyEnd, vm, (variableRegex leafName), l.
      subst l. split; [reflexivity|]. split; [assumption|].
      split; [apply exec_first; [apply minLen_nsDefRegex|assumption]|].
      cbv zeta. split; [assumption|]. split; [exact Hfm|].
      split.
      { right. split; [reflexivity|]. split; [exact Hproc|].
        split; [|assumption].
        apply exec_nowhere; [apply minLen_procDefRegex|assumption]. }
      split; [assumption|].
      split; [apply exec_first; [apply minLen_variableRegex|assumption]|].
      split; [lia|]. split; [lia|].
      split; [|split; reflexivity].
      apply locationOf_start. rewrite (matched_length nsBody vm) by lia. lia.
  - right. split; [reflexivity|]. split.
    + unfold findInNamespace in Hfind. fold text namespace leafName in Hfind.
      destruct (exec (nsDefRegex namespace) text 0) as [nsMatch|] eqn:Hns.
      * pose proof (exec_Matches text _ 0 nsMatch ltac:(lia) Hns)
          as (Hi0 & Hi1 & Hi2 & Hm).
        rewrite (matched_length text nsMatch) in Hfind by lia.
        replace (index nsMatch + (endIndex nsMatch - index nsMatch) - 1)
          with (endIndex nsMatch - 1) in Hfind by lia.
        pose proof (Matches_minLen text _ _ _ Hm) as Hmin.
        pose proof (minLen_nsDefRegex namespace) as Hmin1.
        rewrite definition_truthy_matched in Hfind by lia.
        destruct (findMatchingBrace text (endIndex nsMatch - 1))
          as [nsBodyEnd|] eqn:Hfm.
        -- right. right. exists nsMatch, nsBodyEnd.
           split; [reflexivity|]. split; [exact Hfm|]. cbv zeta.
           destruct (exec (procDefRegex leafName) _ 0) eqn:Hproc;
             [discriminate|].
           destruct (exec (variableRegex leafName) _ 0) eqn:Hvarm;
             [discriminate|].
           split; apply exec_nowhere;
             solve [apply minLen_procDefRegex
                   |apply minLen_variableRegex|assumption].
        -- right. left. exists nsMatch. split; [reflexivity|exact Hfm].
      * left. apply exec_nowhere; [apply minLen_nsDefRegex|assumption].
    + split; [reflexivity|]. apply searchInWorkspace_calls.
Qed.

(** On the file of the scenario the qualified name goes to the procedure
    inside the namespace, not to the global procedure of the same name;
    a qualified name whose namespace the document does not declare is
    looked for in the files of the workspace; and a qualified name of a
    variable goes to its declaration in the block of the namespace. *)
Lemma qualified_name_resolution_witness :
  let document :=
    doc ["proc calculateSum {a b} {"; "    return 0"; "}";
         "namespace eval MyNamespace {";
         "    proc calculateSum {a b} {";
         "        return [expr {$a + $b}]"; "    }"; "}";
         "puts [MyNamespace::calculateSum 10 20]"] in
  let position := mkPosition 8 20 in
  let other := doc ["puts [Lib::area 2 3]"] in
  let library := mkDocument 1 (unlines ["proc area {w h} {"; "}"]) in
  getWordAtPosition document position
  = Some (lit "MyNamespace::calculateSum") /\
  findProcedureDefinition document (lit "calculateSum")
  = Some (mkLocation 0 (mkRange (mkPosition 0 0) (mkPosition 0 23))) /\
  provideDefinition document position []
  = ([], Some (mkLocation 0 (mkRange (mkPosition 4 4) (mkPosition 4 27)))) /\
  getWordAtPosition other (mkPosition 0 8) = Some (lit "Lib::area") /\
  provideDefinition other (mkPosition 0 8) [library]
  = ([FindFiles (lit "**/*.tcl"); OpenTextDocument 1], None) /\
  provideDefinition
    (doc ["namespace eval NS {"; "    variable count 0"; "}";
          "incr NS::count"])
    (mkPosition 3 8) []
  = ([], Some (mkLocation 0 (mkRange (mkPosition 1 4) (mkPosition 1 19)))).
Proof.
  cbv zeta. split; [reflexivity|]. split; [vm_compute; reflexivity|].
  split.
  - destruct (qualified_name_resolution
                (doc ["proc calculateSum {a b} {"; "    return 0"; "}";
                      "namespace eval MyNamespace {";
                      "    proc calculateSum {a b} {";
                      "        return [expr {$a + $b}]"; "    }"; "}";
                      "puts [MyNamespace::calculateSum 10 20]"])
                (mkPosition 8 20) (lit "MyNamespace::calculateSum") []
                eq_refl eq_refl eq_refl)
      as [(nsMatch & nsBodyEnd & found & pattern & l & _)|[_ _]];
      vm_compute; reflexivity.
  - split; [reflexivity|]. split.
    + destruct (qualified_name_resolution
                  (doc ["puts [Lib::area 2 3]"]) (mkPosition 0 8)
                  (lit "Lib::area")
                  [mkDocument 1 (unlines ["proc area {w h} {"; "}"])]
                  eq_refl eq_refl eq_refl)
        as [(nsMatch & nsBodyEnd & found & pattern & l & _)|[_ _]];
        vm_compute; reflexivity.
    + destruct (qualified_name_resolution
                  (doc ["namespace eval NS {"; "    variable count 0"; "}";
                        "incr NS::count"])
                  (mkPosition 3 8) (lit "NS::count") []
                  eq_refl eq_refl eq_refl)
        as [(nsMatch & nsBodyEnd & found & pattern & l & _)|[_ _]];
        vm_compute; reflexivity.
Defined.

End QualifiedResolution.

